(** * Node generation for RBF / RBF-FD solvers: [rbf/pde/nodes.py]

    A shallow embedding of the node-dispersion engine ([_disperse_step],
    [disperse]), the locality reorderer ([neighbor_argsort]) and the node
    preparation pipeline ([prepare_nodes]), together with the properties
    of the index bookkeeping, the bounce logic and the error behaviour.

    Arrays are lists of rows; an index array is a list of naturals; a
    Python exception is a value of [exn] carried by the error monad [res].
    The arithmetic of the array library is an interface ([Arith]): every
    statement below holds for each implementation of it, and the IEEE
    binary64 instance [Float64.float_arith] is used to run the model. *)

From Stdlib Require Import ZArith Floats Lia.
From stdpp Require Import base option list sorting strings.

Set Default Proof Using "Type".

(** ** Exceptions and the error monad *)

Inductive exn : Type :=
  | ValueError
  | IndexError
  | KeyError
  | TypeError.

Inductive res (A : Type) : Type :=
  | Ok (a : A)
  | Raise (e : exn).

Arguments Ok {A} a.
Arguments Raise {A} e.

#[global] Instance res_ret : MRet res := fun _ a => Ok a.
#[global] Instance res_bind : MBind res := fun _ _ f m =>
  match m with
  | Ok a => f a
  | Raise e => Raise e
  end.
#[global] Instance res_fmap : FMap res := fun _ _ f m =>
  match m with
  | Ok a => Ok (f a)
  | Raise e => Raise e
  end.

(** [for x in l: f x], collecting the results; the first exception wins. *)
Fixpoint traverse {A B} (f : A -> res B) (l : list A) : res (list B) :=
  match l with
  | [] => Ok []
  | x :: l' => y ← f x; ys ← traverse f l'; Ok (y :: ys)
  end.

(** ** Index arithmetic of the array library *)

(** [a[i]] for a non-negative index: [IndexError] out of range. *)
Definition get {A} (a : list A) (i : nat) : res A :=
  match a !! i with
  | Some x => Ok x
  | None => Raise IndexError
  end.

(** [a[idx]] with an integer index array (fancy indexing). *)
Definition take_rows {A} (a : list A) (idx : list nat) : res (list A) :=
  traverse (get a) idx.

(** [a[idx] = vals] with an integer index array: the rows are written one
    after the other, so that the last write to an index wins. *)
Fixpoint put_rows {A} (a : list A) (idx : list nat) (vals : list A)
  : res (list A) :=
  match idx, vals with
  | [], [] => Ok a
  | i :: idx', v :: vals' =>
      if decide (i < length a)
      then put_rows (<[i := v]> a) idx' vals'
      else Raise IndexError
  | _, _ => Raise ValueError
  end.

(** [mask.nonzero()] for a one-dimensional array, as positions. *)
Fixpoint nonzero_from {A} (p : A -> bool) (i : nat) (l : list A) : list nat :=
  match l with
  | [] => []
  | x :: l' => if p x then i :: nonzero_from p (S i) l'
               else nonzero_from p (S i) l'
  end.

Definition nonzero {A} (p : A -> bool) (l : list A) : list nat :=
  nonzero_from p 0 l.

(** Indexing a Python list with an integer that may be negative. *)
Definition py_index (len : nat) (j : Z) : res nat :=
  if decide (0 <= j < Z.of_nat len)%Z then Ok (Z.to_nat j)
  else if decide (- Z.of_nat len <= j < 0)%Z then Ok (Z.to_nat (Z.of_nat len + j))
  else Raise IndexError.

(** ** Arithmetic *)

Class Arith (F : Type) : Type := {
  zero : F;
  one : F;
  two : F;
  nan : F;
  add : F -> F -> F;
  sub : F -> F -> F;
  mul : F -> F -> F;
  div : F -> F -> F;
  cube : F -> F;
  sqrt : F -> F;
  nan_to_num : F -> F;
}.

(** A Python dictionary with string keys, in insertion order. *)
Abbreviation dict V := (list (string * V)).

Section Model.

Context {F : Type} `{Arith F}.

#[local] Abbreviation point := (list F).
#[local] Abbreviation array := (list (list F)).


(** [np.sum] along one axis of floats. *)
Definition fsum (l : list F) : F :=
  match l with
  | [] => zero
  | x :: l' => foldl add x l'
  end.

Definition vadd (u v : point) : point := zip_with add u v.
Definition vsub (u v : point) : point := zip_with sub u v.
Definition vmul (u v : point) : point := zip_with mul u v.
Definition scale (c : F) (v : point) : point := (mul c) <$> v.

(** [np.sum(rows, axis=0)] for rows of [d] columns. *)
Definition vsum (d : nat) (rows : list point) : point :=
  match rows with
  | [] => replicate d zero
  | r :: rows' => foldl vadd r rows'
  end.

(** [np.sum(u*v)] *)
Definition dot (u v : point) : F := fsum (vmul u v).

(** [np.linalg.norm] of one row. *)
Definition norm (v : point) : F := sqrt (fsum (vmul v v)).

(** [np.full_like(a, np.nan)] *)
Definition full_like_nan (a : array) : array :=
  (fun r : point => replicate (length r) nan) <$> a.

(** [assert_shape(a, (None, d), ...)].
    Modelled from the spec: [rbf.utils.assert_shape] is not part of the
    sources; a wrong column count fails immediately. *)
Definition assert_shape (a : array) (d : nat) : res unit :=
  if forallb (fun r : point => Nat.eqb (length r) d) a then Ok tt
  else Raise ValueError.

(** ** The collaborators *)

(** The boundary geometry. The segment queries are vectorised over
    segments: [intersection_count1] and [intersection_point1] give the
    answer for one segment and the array versions below map them. *)
Record Domain : Type := {
  dim : nat;
  vertices : array;
  simplices : list (list nat);
  normals : array;
  intersection_count1 : point -> point -> nat;
  intersection_point1 : point -> point -> res (point * nat);
  snap : array -> F -> array * list Z;
}.

Definition intersection_count (dom : Domain) (a b : array) : list nat :=
  zip_with (intersection_count1 dom) a b.

Definition intersection_point (dom : Domain) (a b : array)
  : res (array * list nat) :=
  r ← traverse (fun ab : point * point => intersection_point1 dom ab.1 ab.2)
               (zip a b);
  Ok (r.*1, r.*2).

(** [KDTree(pool).query(x, k)]: distances and pool indices, one row per
    query point. *)
Definition KDTree : Type :=
  array -> array -> Z -> res (list (list F) * list (list nat)).

(** A density function, evaluated on a batch of positions. *)
Definition density : Type := array -> list F.

Variable kdtree : KDTree.

(** ** Dispersion engine *)

(** The force exerted on [x] by the neighbour [y] at distance [r]:
    [c*(x - y)/r**3] with [c = 1.0/(rho(y)*rho(x))]. *)
Definition pair_force (rho_x rho_y : F) (x y : point) (r : F) : point :=
  let c := div one (mul rho_y rho_x) in
  (fun t => div (mul c t) (cube r)) <$> vsub x y.

(** Normalisation of the net force under [np.errstate(invalid='ignore')]
    followed by [np.nan_to_num]. *)
Definition unit_direction (direction : point) : point :=
  (fun t => nan_to_num (div t (norm direction))) <$> direction.

(** One row of [_disperse_step]: the new position of the free node [x],
    from its density, its row of neighbour distances and indices (the
    node itself already dropped), and the merged pool. *)
Definition disperse_row (all_nodes : array) (rho_all : list F) (delta : F)
    (x : point) (rho_x : F) (dist : list F) (idx : list nat) : res point :=
  forces ← traverse (fun ri : F * nat =>
                       y ← get all_nodes ri.2;
                       rho_y ← get rho_all ri.2;
                       Ok (pair_force rho_x rho_y x y ri.1))
                    (zip dist idx);
  let direction := unit_direction (vsum (length x) forces) in
  d0 ← get dist 0;
  let step := scale (mul delta d0) direction in
  Ok (vadd x step).

Definition _disperse_step (nodes : array) (rho : density)
    (fixed_nodes : array) (neighbors : Z) (delta : F) : res array :=
  if decide (length nodes = 0) then Ok nodes
  else
    let all_nodes := nodes ++ fixed_nodes in
    '(dist, idx) ← kdtree all_nodes nodes (neighbors + 1)%Z;
    let dist := drop 1 <$> dist in
    let idx := drop 1 <$> idx in
    let rho_all := rho all_nodes in
    let rho_nodes := rho nodes in
    traverse (fun i : nat =>
                x ← get nodes i;
                rho_x ← get rho_nodes i;
                dist_i ← get dist i;
                idx_i ← get idx i;
                disperse_row all_nodes rho_all delta x rho_x dist_i idx_i)
             (seq 0 (length nodes)).

(** The bounce of the crossed nodes: [new_nodes[crossed] -=
    2*intr_norms*res_perp[:, None]], as the rows written back. *)
Definition bounce_row (new_pos intr_pnt normal : point) : point :=
  let residual := vsub new_pos intr_pnt in
  let res_perp := dot residual normal in
  vsub new_pos ((fun n => mul (mul two n) res_perp) <$> normal).

Definition is_nonzero (c : nat) : bool := negb (Nat.eqb c 0).

(** The nodes whose segment from old to new position meets the boundary. *)
Definition crossing (dom : Domain) (old_pos new_pos : array) : list nat :=
  nonzero is_nonzero (intersection_count dom old_pos new_pos).

(** The first write of the boundary handling: the crossed rows of
    [new_nodes] after [new_nodes[crossed] -= ...]. *)
Definition bounce_crossed (dom : Domain) (nodes new_nodes : array)
    (crossed : list nat) : res array :=
  old_c ← take_rows nodes crossed;
  new_c ← take_rows new_nodes crossed;
  '(intr_pnt, intr_idx) ← intersection_point dom old_c new_c;
  intr_norms ← take_rows (normals dom) intr_idx;
  let bounced :=
    zip_with (fun pn nrm => bounce_row pn.1 pn.2 nrm)
             (zip new_c intr_pnt) intr_norms in
  put_rows new_nodes crossed bounced.

(** The second write: the nodes that still cross after the bounce are
    set back, [new_nodes[crossed[still_crossed]] =
    nodes[crossed[still_crossed]]]. *)
Definition revert_still_crossed (dom : Domain) (nodes new_nodes : array)
    (crossed : list nat) : res array :=
  old_c ← take_rows nodes crossed;
  new_c ← take_rows new_nodes crossed;
  let still_crossed := crossing dom old_c new_c in
  back ← take_rows crossed still_crossed;
  old_back ← take_rows nodes back;
  put_rows new_nodes back old_back.

(** The boundary handling of one iteration, given the positions before
    the step and the positions proposed by the step. *)
Definition bounce (dom : Domain) (nodes new_nodes : array) : res array :=
  let crossed := crossing dom nodes new_nodes in
  new_nodes ← bounce_crossed dom nodes new_nodes crossed;
  revert_still_crossed dom nodes new_nodes crossed.

Definition disperse_iteration (dom : Domain) (rho : density)
    (fixed_nodes : array) (neighbors : Z) (delta : F) (nodes : array)
  : res array :=
  new_nodes ← _disperse_step nodes rho fixed_nodes neighbors delta;
  bounce dom nodes new_nodes.

Fixpoint disperse_loop (iterations : nat) (dom : Domain) (rho : density)
    (fixed_nodes : array) (neighbors : Z) (delta : F) (nodes : array)
  : res array :=
  match iterations with
  | O => Ok nodes
  | S n =>
      nodes ← disperse_iteration dom rho fixed_nodes neighbors delta nodes;
      disperse_loop n dom rho fixed_nodes neighbors delta nodes
  end.

(** [rho is None]: the constant density one. *)
Definition default_rho : density := fun x => replicate (length x) one.

(** The default neighbour count: 3 in two dimensions, 4 in three. *)
Definition default_neighbors (d : nat) : option Z :=
  if Nat.eqb d 2 then Some 3%Z
  else if Nat.eqb d 3 then Some 4%Z
  else None.

(** The neighbour count in force: the default when none is given, then
    [min(neighbors, n + k - 1)]; [min] of [None] and an integer is a
    [TypeError]. *)
Definition clamp_neighbors (d : nat) (neighbors : option Z) (n k : nat)
  : res Z :=
  let neighbors :=
    match neighbors with
    | Some m => Some m
    | None => default_neighbors d
    end in
  match neighbors with
  | Some m => Ok (Z.min m (Z.of_nat n + Z.of_nat k - 1))
  | None => Raise TypeError
  end.

Definition disperse (nodes : array) (dom : Domain) (iterations : nat)
    (rho : option density) (fixed_nodes : option array)
    (neighbors : option Z) (delta : F) : res array :=
  _ ← assert_shape nodes (dim dom);
  let rho := default default_rho rho in
  fixed_nodes ←
    match fixed_nodes with
    | None => Ok []
    | Some fx => _ ← assert_shape fx (dim dom); Ok fx
    end;
  neighbors ← clamp_neighbors (dim dom) neighbors
                              (length nodes) (length fixed_nodes);
  disperse_loop iterations dom rho fixed_nodes neighbors delta nodes.

(** ** Locality reorderer *)

(** [reverse_cuthill_mckee], applied to the adjacency matrix given by
    its (row, column) entries. *)
Variable reverse_cuthill_mckee : list (nat * nat) -> list nat.

(** [nodes.shape[1]] *)
Definition shape1 (a : array) : nat :=
  match a with
  | [] => 0
  | r :: _ => length r
  end.

Definition neighbor_argsort (nodes : array) (m : option Z) : res (list nat) :=
  let m := default (5 ^ Z.of_nat (shape1 nodes))%Z m in
  let m := Z.min m (Z.of_nat (length nodes)) in
  '(_, idx) ← kdtree nodes nodes m;
  let col := concat idx in
  let row := flat_map (fun i => replicate (Z.to_nat m) i) (seq 0 (length nodes)) in
  Ok (reverse_cuthill_mckee (zip row col)).

(** [np.argsort]: the positions of the keys in ascending order of key. *)
Definition key_le (a b : nat * nat) : Prop := a.1 <= b.1.

#[global] Instance key_le_dec (a b : nat * nat) : Decision (key_le a b) :=
  decide (a.1 <= b.1).

Definition argsort (keys : list nat) : list nat :=
  (merge_sort key_le (zip keys (seq 0 (length keys)))).*2.

(** ** Node preparation pipeline *)

Fixpoint dict_get {V} (d : dict V) (k : string) : option V :=
  match d with
  | [] => None
  | kv :: d' => if decide (kv.1 = k) then Some kv.2 else dict_get d' k
  end.

Fixpoint dict_set {V} (d : dict V) (k : string) (v : V) : dict V :=
  match d with
  | [] => [(k, v)]
  | kv :: d' =>
      if decide (kv.1 = k) then (k, v) :: d' else kv :: dict_set d' k v
  end.

Inductive warning : Type :=
  | SimplexSpecified (idx : nat) (times : nat)
  | SpacingWarning (idx : nat).

(** The spacing diagnostics of the final node set: they log and return
    nothing. *)
Variable _check_spacing : array -> option density -> res (list warning).

(** [orient_simplices()] of the domain. *)
Variable orient : Domain -> Domain.

(** The keyword arguments of [prepare_nodes]. *)
Record Options : Type := {
  o_rho : option density;
  o_iterations : nat;
  o_neighbors : option Z;
  o_dispersion_delta : F;
  o_pinned_nodes : option array;
  o_snap_delta : F;
  o_boundary_groups : option (dict (list Z));
  o_boundary_groups_with_ghosts : option (list string);
  o_ghost_delta : F;
  o_include_vertices : bool;
  o_orient_simplices : bool;
}.

(** The node arrays and the group dictionary as they grow. *)
Record Store : Type := {
  st_nodes : array;
  st_normals : array;
  st_groups : dict (list nat);
}.

Definition oriented (dom : Domain) (o : Options) : Domain :=
  if o_orient_simplices o then orient dom else dom.

(** The fixed nodes of the dispersion: pinned nodes, then vertices. *)
Definition fixed_pool (dom : Domain) (o : Options) : res array :=
  fixed_nodes ←
    match o_pinned_nodes o with
    | None => Ok []
    | Some pinned => _ ← assert_shape pinned (dim dom); Ok ([] ++ pinned)
    end;
  Ok (if o_include_vertices o then fixed_nodes ++ vertices dom
      else fixed_nodes).

(** Dispersion, optional vertices, snapping: the snapped nodes and, per
    node, the simplex it was snapped to or -1. *)
Definition snap_nodes (nodes : array) (dom : Domain) (o : Options)
  : res (array * list Z) :=
  _ ← assert_shape nodes (dim dom);
  fixed_nodes ← fixed_pool dom o;
  nodes ← disperse nodes dom (o_iterations o) (o_rho o) (Some fixed_nodes)
                   (o_neighbors o) (o_dispersion_delta o);
  let nodes := if o_include_vertices o then nodes ++ vertices dom else nodes in
  Ok (snap dom nodes (o_snap_delta o)).

(** [normals = np.full_like(nodes, np.nan)] then
    [normals[smpid >= 0] = domain.normals[smpid[smpid >= 0]]]. *)
Definition node_normal (dom : Domain) (x : point) (j : Z) : res point :=
  if decide (0 <= j)%Z then get (normals dom) (Z.to_nat j)
  else Ok (replicate (length x) nan).

Definition node_normals (dom : Domain) (nodes : array) (smpid : list Z)
  : res array :=
  if decide (length smpid = length nodes)
  then traverse (fun xj : point * Z => node_normal dom xj.1 xj.2)
                (zip nodes smpid)
  else Raise IndexError.

Definition is_interior (j : Z) : bool := Z.eqb j (-1).

(** The store after snapping: normals and the group 'interior', then the
    pinned nodes with their group. *)
Definition base_store (dom : Domain) (o : Options) (nodes : array)
    (smpid : list Z) : res Store :=
  normals ← node_normals dom nodes smpid;
  let groups := dict_set [] "interior" (nonzero is_interior smpid) in
  match o_pinned_nodes o with
  | None => Ok {| st_nodes := nodes; st_normals := normals;
                  st_groups := groups |}
  | Some pinned =>
      let pinned_idx := seq (length nodes) (length pinned) in
      Ok {| st_nodes := nodes ++ pinned;
            st_normals := normals ++ full_like_nan pinned;
            st_groups := dict_set groups "pinned" pinned_idx |}
  end.

(** [Counter(chain( *boundary_groups.values()))[idx]] *)
Definition simplex_count (bg : dict (list Z)) (idx : Z) : nat :=
  length (filter (fun j => j = idx) (concat bg.*2)).

Definition in_range (n : nat) (j : Z) : bool :=
  bool_decide (0 <= j < Z.of_nat n)%Z.

(** The boundary groups in force, with the warnings logged by the
    validation of caller-supplied groups. *)
Definition resolve_boundary_groups (nsmp : nat) (bg : option (dict (list Z)))
  : list warning * res (dict (list Z)) :=
  match bg with
  | None => ([], Ok [("all", Z.of_nat <$> seq 0 nsmp)])
  | Some bg =>
      let log :=
        omap (fun idx =>
                let c := simplex_count bg (Z.of_nat idx) in
                if decide (c = 1) then None else Some (SimplexSpecified idx c))
             (seq 0 nsmp) in
      let extra := filter (fun j => in_range nsmp j = false) (concat bg.*2) in
      (log, match extra with
            | [] => Ok bg
            | _ :: _ => Raise ValueError
            end)
  end.

(** [smp_to_nodes]: for each simplex, the nodes snapped to it, in
    ascending order. *)
Fixpoint smp_to_nodes_from (i : nat) (smpid : list Z) (acc : list (list nat))
  : res (list (list nat)) :=
  match smpid with
  | [] => Ok acc
  | j :: smpid' =>
      if decide (j = (-1)%Z) then smp_to_nodes_from (S i) smpid' acc
      else
        s ← py_index (length acc) j;
        smp_to_nodes_from (S i) smpid' (alter (fun l => l ++ [i]) s acc)
  end.

Definition smp_to_nodes (nsmp : nat) (smpid : list Z) : res (list (list nat)) :=
  smp_to_nodes_from 0 smpid (replicate nsmp []).

(** The nodes of one boundary group. *)
Definition boundary_nodes (s2n : list (list nat)) (bnd_smp : list Z)
  : res (list nat) :=
  ls ← traverse (fun j => s ← py_index (length s2n) j; get s2n s) bnd_smp;
  Ok (concat ls).

Fixpoint group_boundary (s2n : list (list nat)) (bg : dict (list Z))
    (groups : dict (list nat)) : res (dict (list nat)) :=
  match bg with
  | [] => Ok groups
  | (bnd_name, bnd_smp) :: bg' =>
      bnd_idx ← boundary_nodes s2n bnd_smp;
      group_boundary s2n bg' (dict_set groups ("boundary:" +:+ bnd_name) bnd_idx)
  end.

(** The ghost nodes of one flagged boundary group; [tree_nodes] is the
    node set the tree was built from, before any ghost node. *)
Definition ghost_row (ghost_delta : F) (x : point) (dist : list F)
    (normal : point) : res point :=
  d ← get dist 1;
  Ok (vadd x (scale (mul ghost_delta d) normal)).

Definition add_ghosts (tree_nodes : array) (ghost_delta : F)
    (st : Store) (bnd_name : string) : res Store :=
  bnd_idx ← match dict_get (st_groups st) ("boundary:" +:+ bnd_name) with
             | Some v => Ok v
             | None => Raise KeyError
             end;
  xs ← take_rows (st_nodes st) bnd_idx;
  '(dist, _) ← kdtree tree_nodes xs 2%Z;
  ns ← take_rows (st_normals st) bnd_idx;
  ghost_nodes ← traverse (fun i : nat =>
                             x ← get xs i; d ← get dist i; n ← get ns i;
                             ghost_row ghost_delta x d n)
                          (seq 0 (length bnd_idx));
  let ghost_idx := seq (length (st_nodes st)) (length bnd_idx) in
  Ok {| st_nodes := st_nodes st ++ ghost_nodes;
        st_normals := st_normals st ++ full_like_nan ghost_nodes;
        st_groups := dict_set (st_groups st) ("ghosts:" +:+ bnd_name) ghost_idx |}.

Fixpoint ghost_loop (tree_nodes : array) (ghost_delta : F) (st : Store)
    (names : list string) : res Store :=
  match names with
  | [] => Ok st
  | bnd_name :: names' =>
      st ← add_ghosts tree_nodes ghost_delta st bnd_name;
      ghost_loop tree_nodes ghost_delta st names'
  end.

(** Sorting: the permutation applied to nodes and normals, the groups
    remapped through its inverse. *)
Definition reorder (sort_idx : list nat) (st : Store) : res Store :=
  nodes ← take_rows (st_nodes st) sort_idx;
  normals ← take_rows (st_normals st) sort_idx;
  let reverse_sort_idx := argsort sort_idx in
  groups ← traverse (fun kv : string * list nat =>
                       v ← take_rows reverse_sort_idx kv.2; Ok (kv.1, v))
                    (st_groups st);
  Ok {| st_nodes := nodes; st_normals := normals; st_groups := groups |}.

(** The store before sorting, from the snapped nodes and the boundary
    groups in force. *)
Definition grouped_store (dom : Domain) (o : Options) (st : Store)
    (smpid : list Z) (bg : dict (list Z)) : res Store :=
  s2n ← smp_to_nodes (length (simplices dom)) smpid;
  groups ← group_boundary s2n bg (st_groups st);
  let st := {| st_nodes := st_nodes st; st_normals := st_normals st;
               st_groups := groups |} in
  ghost_loop (st_nodes st) (o_ghost_delta o) st
             (default [] (o_boundary_groups_with_ghosts o)).

Definition sorted_store (st : Store) : res Store :=
  sort_idx ← neighbor_argsort (st_nodes st) None;
  reorder sort_idx st.

(** The store before sorting, with the warnings logged so far. *)
Definition pre_sort_store (nodes : array) (dom : Domain) (o : Options)
  : list warning * res Store :=
  match snap_nodes nodes dom o with
  | Raise e => ([], Raise e)
  | Ok (nodes, smpid) =>
      match base_store dom o nodes smpid with
      | Raise e => ([], Raise e)
      | Ok st =>
          let '(log, bg) :=
            resolve_boundary_groups (length (simplices dom))
                                    (o_boundary_groups o) in
          (log, bg ← bg; grouped_store dom o st smpid bg)
      end
  end.

Definition prepare_nodes (nodes : array) (dom : Domain) (o : Options)
  : list warning * res (array * dict (list nat) * array) :=
  let dom := oriented dom o in
  let '(log, st) := pre_sort_store nodes dom o in
  match st ≫= sorted_store with
  | Raise e => (log, Raise e)
  | Ok st =>
      match _check_spacing (st_nodes st) (o_rho o) with
      | Raise e => (log, Raise e)
      | Ok ws => (log ++ ws, Ok (st_nodes st, st_groups st, st_normals st))
      end
  end.

End Model.

(** ** The dispersion with its arrays in memory

    [disperse] writes into arrays in place. Here the arrays live in a
    heap, a variable holds an address, and the three kinds of array
    operation of the source are kept apart: an expression that builds a
    new array ([nodes.copy()], [nodes + step], [np.zeros]) allocates, a
    subscripted assignment stores into the array it names, and an
    assignment to a variable only rebinds the address. The heap survives
    an exception. *)
Module Mem.
Section Heap.

Context {F : Type} `{Arith F}.

#[local] Abbreviation point := (list F).
#[local] Abbreviation array := (list (list F)).
Variable kdtree : KDTree (F := F).

Definition heap : Type := list (list (list F)).
Definition M (A : Type) : Type := heap -> heap * res A.

Definition ret {A} (a : A) : M A := fun h => (h, Ok a).

Definition bind {A B} (m : M A) (k : A -> M B) : M B := fun h =>
  match m h with
  | (h', Ok a) => k a h'
  | (h', Raise e) => (h', Raise e)
  end.

Definition lift {A} (r : res A) : M A := fun h => (h, r).

Definition alloc (a : array) : M nat := fun h => (h ++ [a], Ok (length h)).

Definition load (l : nat) : M array := fun h => (h, get h l).

Definition store (l : nat) (a : array) : M unit := fun h =>
  if decide (l < length h) then (<[l := a]> h, Ok tt)
  else (h, Raise IndexError).

(** The result of a step is always a new array: [nodes.copy()] for no
    nodes, [nodes + step] otherwise. *)
Definition _disperse_step (nodes : nat) (rho : density)
    (fixed_nodes : nat) (neighbors : Z) (delta : F) : M nat :=
  bind (load nodes) (fun a =>
  bind (load fixed_nodes) (fun fx =>
  bind (lift (_disperse_step kdtree a rho fx neighbors delta)) (fun out =>
  alloc out))).

(** The two writes of the boundary handling go to [new_nodes]. *)
Definition bounce (dom : Domain) (nodes new_nodes : nat) : M unit :=
  bind (load nodes) (fun a =>
  bind (load new_nodes) (fun b =>
  let crossed := crossing dom a b in
  bind (lift (bounce_crossed dom a b crossed)) (fun b1 =>
  bind (store new_nodes b1) (fun _ =>
  bind (load nodes) (fun a =>
  bind (load new_nodes) (fun b =>
  bind (lift (revert_still_crossed dom a b crossed)) (fun b2 =>
  store new_nodes b2))))))).

Fixpoint disperse_loop (iterations : nat) (dom : Domain) (rho : density)
    (fixed_nodes : nat) (neighbors : Z) (delta : F) (nodes : nat) : M nat :=
  match iterations with
  | O => ret nodes
  | S n =>
      bind (_disperse_step nodes rho fixed_nodes neighbors delta)
        (fun new_nodes =>
      bind (bounce dom nodes new_nodes) (fun _ =>
      disperse_loop n dom rho fixed_nodes neighbors delta new_nodes))
  end.

(** [nodes] and [fixed_nodes] are the addresses of the caller's arrays:
    [np.asarray] does not copy an array of floats. *)
Definition disperse (nodes : nat) (dom : Domain) (iterations : nat)
    (rho : option density) (fixed_nodes : option nat)
    (neighbors : option Z) (delta : F) : M nat :=
  bind (load nodes) (fun a =>
  bind (lift (assert_shape a (dim dom))) (fun _ =>
  let rho := default default_rho rho in
  bind (match fixed_nodes with
        | None => alloc []
        | Some l =>
            bind (load l) (fun fx =>
            bind (lift (assert_shape fx (dim dom))) (fun _ => ret l))
        end) (fun fixed_nodes =>
  bind (load fixed_nodes) (fun fx =>
  bind (lift (clamp_neighbors (dim dom) neighbors (length a) (length fx)))
    (fun neighbors =>
  disperse_loop iterations dom rho fixed_nodes neighbors delta nodes))))).

End Heap.
End Mem.

(** ** Vocabulary of the statements *)

Section Vocabulary.

Context {F : Type} `{Arith F}.

#[local] Abbreviation point := (list F).
#[local] Abbreviation array := (list (list F)).


(** The facts of the arithmetic behind a vanishing net force: [Z] holds
    of the zeros, whose squares and sums are zero, and zero over zero is
    not a number, which [nan_to_num] turns into zero. *)
Definition zero_arith (Z : F -> Prop) : Prop :=
  (forall a, Z a -> mul a a = zero) /\
  add zero zero = zero /\
  sqrt zero = zero /\
  (forall a, Z a -> div a zero = nan) /\
  nan_to_num nan = zero.


(** The domain answers for a segment that crosses its boundary: the
    intersection point and a simplex that has a normal. *)
Definition crossing_ok (dom : Domain (F := F)) (x x' : list F)
  : Prop :=
  intersection_count1 dom x x' <> 0 ->
  exists p s n,
    intersection_point1 dom x x' = Ok (p, s) /\ normals dom !! s = Some n.

(** The bounce in the words of the specification: the intersection
    point minus twice the normal times the normal component of the
    residual. *)
Definition spec_bounce_row (new_pos intr_pnt normal : point) : point :=
  let residual := vsub new_pos intr_pnt in
  vsub intr_pnt ((fun n => mul (mul two n) (dot residual normal)) <$> normal).

(** The position [y] of a node after the boundary handling of one
    iteration, from its position [x] before the step and the position
    [x'] proposed by the step: the proposed position when the move does
    not cross the boundary, else the bounced position when the move to
    it does not cross, else the position before the step. *)
Definition bounced_to (dom : Domain (F := F)) (x x' y : list F)
  : Prop :=
  (intersection_count1 dom x x' = 0 /\ y = x') \/
  (intersection_count1 dom x x' <> 0 /\
   exists p s n,
     intersection_point1 dom x x' = Ok (p, s) /\
     normals dom !! s = Some n /\
     ((intersection_count1 dom x (bounce_row x' p n) = 0 /\
       y = bounce_row x' p n) \/
      (intersection_count1 dom x (bounce_row x' p n) <> 0 /\ y = x))).

(** The contract of snapping for [nsmp] simplices: per node, -1 or the
    index of a simplex. *)
Definition snap_ok (nsmp : nat) (nodes : list (list F)) (smpid : list Z)
  : Prop :=
  length smpid = length nodes /\
  Forall (fun j => j = (-1)%Z \/ (0 <= j < Z.of_nat nsmp)%Z) smpid.

End Vocabulary.

(** The nodes snapped to the simplex [j], or left in the interior for
    [j = -1], in ascending order. *)
Definition snapped_to (smpid : list Z) (j : Z) : list nat :=
  nonzero (fun j' => Z.eqb j' j) smpid.

(** The nodes of a boundary group made of the simplices [bnd_smp]. *)
Definition group_nodes (smpid : list Z) (bnd_smp : list Z) : list nat :=
  concat (snapped_to smpid <$> bnd_smp).

(** The groups that classify the nodes of the sample: 'interior' and
    the 'boundary:' groups. *)
Definition is_partition_key (k : string) : bool :=
  String.eqb k "interior" || String.prefix "boundary:" k.

(** How many times the node [x] occurs in the 'interior' and
    'boundary:' groups together. *)
Definition memberships (x : nat) (groups : dict (list nat)) : nat :=
  length (filter (fun i => i = x)
            (concat (filter (fun kv : string * list nat =>
                               is_partition_key kv.1 = true) groups).*2)).

(** The dictionary [groups] after the boundary groups [bg] have been
    entered, each with the nodes snapped to its simplices. *)
Definition boundary_dict (smpid : list Z) (groups : dict (list nat))
    (bg : dict (list Z)) : dict (list nat) :=
  foldl (fun g (kv : string * list Z) =>
           dict_set g ("boundary:" +:+ kv.1) (group_nodes smpid kv.2))
        groups bg.

(** How many times the integer [j] occurs in [l]. *)
Definition occurrences (j : Z) (l : list Z) : nat :=
  length (filter (fun j' => j' = j) l).

(** The boundary groups claim every simplex exactly once: the default
    group does, and caller-supplied groups do when each simplex occurs
    once in them. *)
Definition exact_partition (nsmp : nat) (bg : option (dict (list Z))) : Prop :=
  match bg with
  | None => True
  | Some bg =>
      NoDup bg.*1 /\
      forall s, s < nsmp -> occurrences (Z.of_nat s) (concat bg.*2) = 1
  end.

(** [p] lists each of [0 .. n-1] once. *)
Definition is_permutation (n : nat) (p : list nat) : Prop :=
  NoDup p /\ length p = n /\ Forall (fun i => i < n) p.

Section Contracts.

Context {F : Type} `{Arith F}.

#[local] Abbreviation point := (list F).
#[local] Abbreviation array := (list (list F)).
Variable kdtree : KDTree (F := F).
Variable reverse_cuthill_mckee : list (nat * nat) -> list nat.

(** The permutation that sorts the prepared nodes. *)
Definition sort_permutation (nodes : array) (dom : Domain) (o : Options)
  : res (list nat) :=
  st ← (pre_sort_store kdtree nodes dom o).2;
  neighbor_argsort kdtree reverse_cuthill_mckee (st_nodes st) None.

(** What [prepare_nodes] expects of its collaborators on the given
    input: snapping keeps its contract and the reordering returns a
    permutation of the node indices. *)
Definition collaborators_ok (nodes : array) (dom : Domain) (o : Options)
  : Prop :=
  (forall nodes0 smpid,
     snap_nodes kdtree nodes dom o = Ok (nodes0, smpid) ->
     snap_ok (length (simplices dom)) nodes0 smpid) /\
  (forall log st sort_idx,
     pre_sort_store kdtree nodes dom o = (log, Ok st) ->
     neighbor_argsort kdtree reverse_cuthill_mckee (st_nodes st) None
     = Ok sort_idx ->
     is_permutation (length (st_nodes st)) sort_idx).

(** The ghost nodes [vg] of the boundary nodes [vb]: as many, all
    different, the [k]-th at the position of the [k]-th boundary node
    plus [ghost_delta] times its distance [d] to its nearest neighbour
    among [tree_nodes] times its normal, with a normal of NaN. *)
Definition ghosts_ok (tree_nodes : array) (ghost_delta : F)
    (nodes normals : array) (vb vg : list nat) : Prop :=
  exists xs dist idx,
    take_rows nodes vb = Ok xs /\
    kdtree tree_nodes xs 2%Z = Ok (dist, idx) /\
    length vg = length vb /\ NoDup vg /\
    forall k b, vb !! k = Some b ->
      exists g x n row d,
        vg !! k = Some g /\ nodes !! b = Some x /\ normals !! b = Some n /\
        dist !! k = Some row /\ row !! 1 = Some d /\
        let ghost := vadd x (scale (mul ghost_delta d) n) in
        nodes !! g = Some ghost /\
        normals !! g = Some (replicate (length ghost) nan).

(** A store whose arrays have one normal per node and whose groups
    index into them. *)
Definition store_ok (st : Store (F := F)) : Prop :=
  length (st_normals st) = length (st_nodes st) /\
  Forall (fun kv : string * list nat =>
            Forall (fun i => i < length (st_nodes st)) kv.2) (st_groups st).

(** The store holds the ghost nodes of the boundary group [name]. *)
Definition ghost_group_ok (tree_nodes : array) (ghost_delta : F)
    (st : Store) (name : string) : Prop :=
  exists vb vg,
    dict_get (st_groups st) ("boundary:" +:+ name) = Some vb /\
    dict_get (st_groups st) ("ghosts:" +:+ name) = Some vg /\
    ghosts_ok tree_nodes ghost_delta (st_nodes st) (st_normals st) vb vg.

End Contracts.

(** ** An executable instance: binary64 floats on the unit square

    The interface instantiated with the IEEE binary64 floats of the
    kernel, an exhaustive nearest-neighbour search in place of the k-d
    tree, and the unit square as the domain. It is used to run the model
    on concrete nodes. *)
Module Float64.

Local Open Scope float_scope.

Definition max_float : float := 0x1.fffffffffffffp+1023.

Definition float_nan_to_num (x : float) : float :=
  if PrimFloat.is_nan x then 0
  else if PrimFloat.eqb x infinity then max_float
  else if PrimFloat.eqb x neg_infinity then - max_float
  else x.

#[export] Instance float_arith : Arith float := {|
  zero := 0;
  one := 1;
  two := 2;
  nan := PrimFloat.nan;
  add := PrimFloat.add;
  sub := PrimFloat.sub;
  mul := PrimFloat.mul;
  div := PrimFloat.div;
  cube := fun x => x * x * x;
  sqrt := PrimFloat.sqrt;
  nan_to_num := float_nan_to_num;
|}.

(** Exhaustive search: the pool sorted by distance to the query point. *)
Definition distance (x y : list float) : float := norm (vsub x y).

Definition nearer (a b : float * nat) : Prop := PrimFloat.leb a.1 b.1 = true.

#[export] Instance nearer_dec (a b : float * nat) : Decision (nearer a b) :=
  decide (PrimFloat.leb a.1 b.1 = true).

Definition nearest (pool : list (list float)) (k : Z) (x : list float)
  : list (float * nat) :=
  take (Z.to_nat k) (merge_sort nearer (imap (fun i y => (distance x y, i)) pool)).

Definition kdtree : KDTree := fun pool xs k =>
  if decide (Z.of_nat (length pool) < k)%Z then Raise ValueError
  else Ok ((fun x => (nearest pool k x).*1) <$> xs,
           (fun x => (nearest pool k x).*2) <$> xs).

(** The unit square, counter-clockwise. *)
Definition square_vertices : list (list float) :=
  [[0; 0]; [1; 0]; [1; 1]; [0; 1]].

Definition square_simplices : list (list nat) :=
  [[0; 1]; [1; 2]; [2; 3]; [3; 0]]%nat.

Definition square_normals : list (list float) :=
  [[0; -1]; [1; 0]; [0; 1]; [-1; 0]].

Definition square_edges : list (list float * list float) :=
  [([0; 0], [1; 0]); ([1; 0], [1; 1]); ([1; 1], [0; 1]); ([0; 1], [0; 0])].

Definition cross2 (u v : list float) : float :=
  match u, v with
  | [ux; uy], [vx; vy] => ux * vy - uy * vx
  | _, _ => PrimFloat.nan
  end.

(** The segment from [p] to [q] passes through the edge from [a] to [b]. *)
Definition crosses (p q : list float) (e : list float * list float) : bool :=
  let '(a, b) := e in
  let d1 := cross2 (vsub b a) (vsub p a) in
  let d2 := cross2 (vsub b a) (vsub q a) in
  let d3 := cross2 (vsub q p) (vsub a p) in
  let d4 := cross2 (vsub q p) (vsub b p) in
  PrimFloat.ltb (d1 * d2) 0 && PrimFloat.ltb (d3 * d4) 0.

Definition meet (p q : list float) (e : list float * list float) : list float :=
  let '(a, b) := e in
  let d1 := cross2 (vsub b a) (vsub p a) in
  let d2 := cross2 (vsub b a) (vsub q a) in
  vadd p (scale (d1 / (d1 - d2)) (vsub q p)).

Fixpoint first_crossed (p q : list float) (i : nat)
    (es : list (list float * list float)) : res (list float * nat) :=
  match es with
  | [] => Raise ValueError
  | e :: es' => if crosses p q e then Ok (meet p q e, i)
                else first_crossed p q (S i) es'
  end.

(** Snapping to the first edge closer than a quarter of [delta]. *)
Definition snap1 (delta : float) (x : list float) : list float * Z :=
  match x with
  | [a; b] =>
      let thr := delta * 0.25 in
      if PrimFloat.ltb b thr then ([a; 0], 0%Z)
      else if PrimFloat.ltb (1 - a) thr then ([1; b], 1%Z)
      else if PrimFloat.ltb (1 - b) thr then ([a; 1], 2%Z)
      else if PrimFloat.ltb a thr then ([0; b], 3%Z)
      else (x, (-1)%Z)
  | _ => (x, (-1)%Z)
  end.

Definition square : Domain := {|
  dim := 2;
  vertices := square_vertices;
  simplices := square_simplices;
  normals := square_normals;
  intersection_count1 := fun p q => length (filter (fun e => crosses p q e = true) square_edges);
  intersection_point1 := fun p q => first_crossed p q 0 square_edges;
  snap := fun xs delta => ((snap1 delta <$> xs).*1, (snap1 delta <$> xs).*2);
|}.

(** A reordering that reverses the node order. *)
Definition reversal (adjacency : list (nat * nat)) : list nat :=
  reverse (seq 0 (foldr (fun rc n => Nat.max (S rc.1) n) 0%nat adjacency)).

Definition no_spacing_warnings : list (list float)
    -> option (density (F := float)) -> res (list warning) :=
  fun _ _ => Ok [].

Definition oriented_already : Domain (F := float) -> Domain := fun dom => dom.

Definition options : Options := {|
  o_rho := None;
  o_iterations := 2;
  o_neighbors := None;
  o_dispersion_delta := 0.5;
  o_pinned_nodes := Some [[0.5; 0.5]];
  o_snap_delta := 0.5;
  o_boundary_groups := None;
  o_boundary_groups_with_ghosts := Some ["all"];
  o_ghost_delta := 0.5;
  o_include_vertices := true;
  o_orient_simplices := true;
|}.

Definition sample : list (list float) :=
  [[0.25; 0.25]; [0.75; 0.25]; [0.75; 0.75]; [0.25; 0.5]; [0.5; 0.0625]].

(** The sample prepared with [options]. *)
Definition prepared
  : list warning * res (list (list float) * dict (list nat) * list (list float)) :=
  prepare_nodes kdtree reversal no_spacing_warnings oriented_already
                sample square options.

Definition out_nodes : list (list float) :=
  match prepared.2 with Ok (nodes, _, _) => nodes | Raise _ => [] end.

Definition out_groups : dict (list nat) :=
  match prepared.2 with Ok (_, groups, _) => groups | Raise _ => [] end.

Definition out_normals : list (list float) :=
  match prepared.2 with Ok (_, _, normals) => normals | Raise _ => [] end.

(** Boundary groups that claim the simplex 1 twice and the simplex 3
    not at all. *)
Definition overlapping : Options := {|
  o_rho := None;
  o_iterations := 1;
  o_neighbors := None;
  o_dispersion_delta := 0.5;
  o_pinned_nodes := None;
  o_snap_delta := 0.5;
  o_boundary_groups := Some [("south", [0; 1]%Z); ("north", [1; 2]%Z)];
  o_boundary_groups_with_ghosts := None;
  o_ghost_delta := 0.5;
  o_include_vertices := false;
  o_orient_simplices := true;
|}.

(** Ghost nodes asked for a boundary group that does not exist. *)
Definition stray_ghosts : Options := {|
  o_rho := None;
  o_iterations := 1;
  o_neighbors := None;
  o_dispersion_delta := 0.5;
  o_pinned_nodes := None;
  o_snap_delta := 0.5;
  o_boundary_groups := None;
  o_boundary_groups_with_ghosts := Some ["top"];
  o_ghost_delta := 0.5;
  o_include_vertices := false;
  o_orient_simplices := true;
|}.


(** A node at the centre of four fixed nodes, which pull it equally. *)
Definition centre : list (list float) := [[0.5; 0.5]].

Definition ring : list (list float) :=
  [[0.25; 0.5]; [0.75; 0.5]; [0.5; 0.25]; [0.5; 0.75]].

(** Two nodes that a step of 1.5 times their distance sends across the
    left and the right edge of the square. *)
Definition two_nodes : list (list float) := [[0.5; 0.5]; [0.875; 0.5]].

Definition two_nodes_proposed : list (list float) :=
  [[-0.0625; 0.5]; [1.4375; 0.5]].

(** A node near the upper right corner of the square and a fixed node
    below it, to its left. *)
Definition corner : list (list float) := [[0.875; 0.875]].

Definition pusher : list (list float) := [[0.8125; 0.6875]].

(** A store of three nodes, one of them in the interior. *)
Definition triangle : Store := {|
  st_nodes := [[0; 0]; [1; 0]; [0; 1]];
  st_normals := [[0; -1]; [1; 0]; [PrimFloat.nan; PrimFloat.nan]];
  st_groups := [("interior", [2]%nat); ("boundary:all", [0; 1]%nat)];
|}.

End Float64.

Import Float64.

(** * Properties *)

(** ** The error monad and the index operations *)

Lemma bind_Ok {A B} (m : res A) (f : A -> res B) (b : B) :
  m ≫= f = Ok b <-> exists a, m = Ok a /\ f a = Ok b.
Proof.
  destruct m as [a|e]; simpl; split.
  - intros Hf. by exists a.
  - by intros (a' & [= ->] & Hf).
  - discriminate.
  - by intros (a' & ? & _).
Qed.

(** Splits a successful sequence of binds into its steps. *)
Ltac inv_Ok H :=
  repeat match type of H with
  | mbind _ ?m = Ok _ =>
      let a := fresh "a" in
      let Ha := fresh "E" in
      apply bind_Ok in H as (a & Ha & H)
  | Ok _ = Ok _ => injection H as H
  end.

Lemma traverse_Ok {A B} (f : A -> res B) (l : list A) (r : list B) :
  traverse f l = Ok r <-> Forall2 (fun x y => f x = Ok y) l r.
Proof.
  revert r. induction l as [|x l IH]; intros r; simpl.
  - split.
    + intros [= <-]. constructor.
    + intros Hr. by inversion Hr.
  - split.
    + intros Hr. inv_Ok Hr. subst r. constructor; [done|]. by apply IH.
    + intros Hr. inversion Hr as [|? y ? r' Hy Hr']; subst.
      apply bind_Ok. exists y. split; [done|].
      apply bind_Ok. exists r'. split; [|done]. by apply IH.
Qed.

Lemma traverse_length {A B} (f : A -> res B) (l : list A) (r : list B) :
  traverse f l = Ok r -> length r = length l.
Proof. intros Hr%traverse_Ok. symmetry. by eapply Forall2_length. Qed.

Lemma traverse_lookup {A B} (f : A -> res B) l r k x :
  traverse f l = Ok r -> l !! k = Some x ->
  exists y, r !! k = Some y /\ f x = Ok y.
Proof.
  intros Hr%traverse_Ok Hx.
  destruct (Forall2_lookup_l _ _ _ _ _ Hr Hx) as (y & Hy & Hf). eauto.
Qed.

Lemma traverse_total {A B} (f : A -> res B) (l : list A) :
  Forall (fun x => exists y, f x = Ok y) l -> exists r, traverse f l = Ok r.
Proof.
  induction 1 as [|x l [y Hy] _ [r Hr]]; [by exists []|].
  exists (y :: r). simpl. by rewrite Hy, Hr.
Qed.

Lemma lookup_agree {A} (l : list A) i x y :
  l !! i = Some x -> l !! i = Some y -> x = y.
Proof. congruence. Qed.

Lemma get_Ok {A} (a : list A) i x : get a i = Ok x <-> a !! i = Some x.
Proof. unfold get. destruct (a !! i); split; congruence. Qed.

Lemma take_rows_length {A} (a : list A) idx r :
  take_rows a idx = Ok r -> length r = length idx.
Proof. apply traverse_length. Qed.

Lemma take_rows_lookup {A} (a : list A) idx r k i :
  take_rows a idx = Ok r -> idx !! k = Some i ->
  exists x, r !! k = Some x /\ a !! i = Some x.
Proof.
  intros Hr Hi. destruct (traverse_lookup _ _ _ _ _ Hr Hi) as (x & ? & ?%get_Ok).
  eauto.
Qed.

Lemma take_rows_total {A} (a : list A) idx :
  Forall (fun i => i < length a) idx -> exists r, take_rows a idx = Ok r.
Proof.
  intros Hidx. apply traverse_total. eapply Forall_impl; [done|].
  intros i [x Hx]%lookup_lt_is_Some. exists x. by apply get_Ok.
Qed.

Lemma take_rows_bound {A} (a : list A) idx r :
  take_rows a idx = Ok r -> Forall (fun i => i < length a) idx.
Proof.
  intros Hr. apply Forall_lookup. intros k i Hi.
  destruct (take_rows_lookup _ _ _ _ _ Hr Hi) as (x & _ & Hx).
  by eapply lookup_lt_Some.
Qed.

Lemma put_rows_length {A} (a : list A) idx vals a' :
  put_rows a idx vals = Ok a' -> length a' = length a.
Proof.
  revert a vals. induction idx as [|i idx IH]; intros a [|v vals]; simpl;
    try discriminate.
  - by intros [= <-].
  - case_decide; [|discriminate]. intros Ha'%IH.
    by rewrite length_insert in Ha'.
Qed.

Lemma put_rows_total {A} (a : list A) idx vals :
  length idx = length vals -> Forall (fun i => i < length a) idx ->
  exists a', put_rows a idx vals = Ok a'.
Proof.
  revert a vals. induction idx as [|i idx IH]; intros a [|v vals]; simpl;
    try discriminate.
  - by exists a.
  - intros [= Hlen] Hidx. inversion Hidx as [|? ? Hi Hidx']; subst.
    rewrite decide_True by done. apply IH; [done|].
    eapply Forall_impl; [done|]. intros j. by rewrite length_insert.
Qed.

(** Rows outside the index array are not written. *)
Lemma put_rows_other {A} (a : list A) idx vals a' j :
  put_rows a idx vals = Ok a' -> j ∉ idx -> a' !! j = a !! j.
Proof.
  revert a vals. induction idx as [|i idx IH]; intros a [|v vals]; simpl;
    try discriminate.
  - by intros [= <-].
  - case_decide; [|discriminate]. intros Ha' Hj.
    apply not_elem_of_cons in Hj as [Hne Hj].
    rewrite (IH _ _ Ha') by done.
    by apply list_lookup_insert_ne.
Qed.

(** With distinct indices, each row written is the row read back. *)
Lemma put_rows_lookup {A} (a : list A) idx vals a' k i :
  put_rows a idx vals = Ok a' -> NoDup idx -> idx !! k = Some i ->
  a' !! i = vals !! k /\ is_Some (vals !! k).
Proof.
  revert a vals k. induction idx as [|i0 idx IH]; intros a [|v vals] k; simpl;
    try discriminate.
  case_decide; [|discriminate]. intros Ha' Hnd Hk.
  apply NoDup_cons in Hnd as [Hi0 Hnd].
  destruct k as [|k]; simpl in *.
  - injection Hk as ->. split; [|by eexists].
    rewrite (put_rows_other _ _ _ _ _ Ha' Hi0).
    by apply list_lookup_insert_eq.
  - eapply IH; eauto.
Qed.

Lemma nonzero_from_spec {A} (p : A -> bool) (l : list A) s i :
  i ∈ nonzero_from p s l <->
  exists k x, i = s + k /\ l !! k = Some x /\ p x = true.
Proof.
  revert s. induction l as [|y l IH]; intros s; simpl.
  - split; [by intros ?%elem_of_nil|by intros (? & ? & ? & ? & ?)].
  - destruct (p y) eqn:Hy.
    + rewrite elem_of_cons, IH. split.
      * intros [->|(k & x & -> & Hx & Hp)].
        -- exists 0, y. split; [lia|done].
        -- exists (S k), x. split; [lia|done].
      * intros ([|k] & x & -> & Hx & Hp); simpl in *.
        -- left. lia.
        -- right. exists k, x. split; [lia|done].
    + rewrite IH. split.
      * intros (k & x & -> & Hx & Hp). exists (S k), x. split; [lia|done].
      * intros ([|k] & x & -> & Hx & Hp); simpl in *; [congruence|].
        exists k, x. split; [lia|done].
Qed.

Lemma nonzero_spec {A} (p : A -> bool) (l : list A) i :
  i ∈ nonzero p l <-> exists x, l !! i = Some x /\ p x = true.
Proof.
  unfold nonzero. rewrite nonzero_from_spec. split.
  - intros (k & x & -> & ? & ?). eauto.
  - intros (x & ? & ?). exists i, x. eauto.
Qed.

Lemma nonzero_from_NoDup {A} (p : A -> bool) (l : list A) s :
  NoDup (nonzero_from p s l).
Proof.
  revert s. induction l as [|y l IH]; intros s; simpl; [constructor|].
  destruct (p y); [|done]. constructor; [|done].
  rewrite nonzero_from_spec. intros (k & x & ? & _). lia.
Qed.

Lemma nonzero_NoDup {A} (p : A -> bool) (l : list A) : NoDup (nonzero p l).
Proof. apply nonzero_from_NoDup. Qed.

Lemma nonzero_bound {A} (p : A -> bool) (l : list A) :
  Forall (fun i => i < length l) (nonzero p l).
Proof.
  apply Forall_forall. intros i (x & Hx & _)%nonzero_spec.
  by eapply lookup_lt_Some.
Qed.

Lemma take_rows_elem {A} (a : list A) idx r x :
  take_rows a idx = Ok r ->
  x ∈ r <-> exists i, i ∈ idx /\ a !! i = Some x.
Proof.
  intros Hr. split.
  - intros [k Hk]%list_elem_of_lookup_1.
    destruct (lookup_lt_is_Some_2 idx k) as [i Hi].
    { rewrite <- (take_rows_length _ _ _ Hr). by eapply lookup_lt_Some. }
    destruct (take_rows_lookup _ _ _ _ _ Hr Hi) as (y & Hy & Hx).
    exists i. split; [by eapply list_elem_of_lookup_2|]. congruence.
  - intros (i & [k Hk]%list_elem_of_lookup_1 & Hx).
    destruct (take_rows_lookup _ _ _ _ _ Hr Hk) as (y & Hy & Hx').
    eapply list_elem_of_lookup_2. rewrite Hy. congruence.
Qed.

Lemma take_rows_NoDup {A} (a : list A) idx r :
  NoDup a -> NoDup idx -> take_rows a idx = Ok r -> NoDup r.
Proof.
  intros Ha Hidx Hr. apply NoDup_alt. intros k1 k2 x Hk1 Hk2.
  destruct (lookup_lt_is_Some_2 idx k1) as [i1 Hi1].
  { rewrite <- (take_rows_length _ _ _ Hr). by eapply lookup_lt_Some. }
  destruct (lookup_lt_is_Some_2 idx k2) as [i2 Hi2].
  { rewrite <- (take_rows_length _ _ _ Hr). by eapply lookup_lt_Some. }
  destruct (take_rows_lookup _ _ _ _ _ Hr Hi1) as (y1 & Hy1 & Hx1).
  destruct (take_rows_lookup _ _ _ _ _ Hr Hi2) as (y2 & Hy2 & Hx2).
  assert (i1 = i2) as <-.
  { eapply (proj1 (NoDup_alt a) Ha); [done|]. congruence. }
  by eapply (proj1 (NoDup_alt idx) Hidx).
Qed.

(** ** The dispersion step *)

Section Dispersion.

Context {F : Type} `{Arith F}.

#[local] Abbreviation point := (list F).
#[local] Abbreviation array := (list (list F)).
Variable kdtree : KDTree (F := F).

Implicit Types (dom : Domain (F := F)) (rho : density (F := F)).
Implicit Types (nodes new_nodes fixed_nodes a b : list (list F)).
Implicit Types (x y : list F).






(** A step on no nodes returns no nodes, whatever the neighbour search
    would do. *)
Lemma disperse_step_empty rho fixed_nodes neighbors delta :
  _disperse_step kdtree [] rho fixed_nodes neighbors delta = Ok [].
Proof. done. Qed.

Lemma bounce_empty dom : bounce dom [] [] = Ok [].
Proof. done. Qed.

Lemma disperse_loop_empty iterations dom rho fixed_nodes neighbors delta :
  disperse_loop kdtree iterations dom rho fixed_nodes neighbors delta []
  = Ok [].
Proof.
  induction iterations as [|n IH]; [done|].
  change (disperse_loop kdtree (S n) dom rho fixed_nodes neighbors delta [])
    with (nodes ← disperse_iteration kdtree dom rho fixed_nodes neighbors
                                     delta [];
          disperse_loop kdtree n dom rho fixed_nodes neighbors delta nodes).
  unfold disperse_iteration. rewrite disperse_step_empty.
  change (bounce dom [] [] ≫= _) with
    (disperse_loop kdtree n dom rho fixed_nodes neighbors delta []).
  exact IH.
Qed.

(** C9: on an empty set of free nodes [disperse] returns the empty set,
    for every number of iterations and every neighbour search, provided
    the fixed nodes have the columns of the domain and a neighbour count
    is given or has a default. *)
Theorem disperse_empty_noop dom iterations (rho : option density)
    (fixed_nodes : option array) neighbors delta :
  match fixed_nodes with
  | Some fx => assert_shape fx (dim dom) = Ok tt
  | None => True
  end ->
  is_Some neighbors \/ dim dom = 2 \/ dim dom = 3 ->
  disperse kdtree [] dom iterations rho fixed_nodes neighbors delta = Ok [].
Proof.
  intros Hfx Hnb. unfold disperse. simpl.
  assert (exists m, clamp_neighbors (dim dom) neighbors 0
                      (length (default [] fixed_nodes)) = Ok m) as [m Hm].
  { unfold clamp_neighbors.
    destruct Hnb as [[k ->]|Hdim]; [by eexists|].
    destruct neighbors as [k|]; [by eexists|].
    unfold default_neighbors. destruct Hdim as [-> | ->]; by eexists. }
  destruct fixed_nodes as [fx|]; simpl in *.
  - rewrite Hfx. simpl. rewrite Hm. simpl. apply disperse_loop_empty.
  - rewrite Hm. simpl. apply disperse_loop_empty.
Qed.

(** *** The boundary handling *)

Lemma crossing_spec dom a b i :
  i ∈ crossing dom a b <->
  exists x y, a !! i = Some x /\ b !! i = Some y /\
              intersection_count1 dom x y <> 0.
Proof.
  unfold crossing, intersection_count. rewrite nonzero_spec. split.
  - intros (c & (x & y & -> & Hx & Hy)%lookup_zip_with_Some & Hnz).
    exists x, y. repeat split; try done.
    unfold is_nonzero in Hnz. by destruct (Nat.eqb_spec (intersection_count1 dom x y) 0).
  - intros (x & y & Hx & Hy & Hc). exists (intersection_count1 dom x y). split.
    + apply lookup_zip_with_Some. eauto.
    + unfold is_nonzero. by destruct (Nat.eqb_spec (intersection_count1 dom x y) 0).
Qed.

Lemma crossing_NoDup dom a b : NoDup (crossing dom a b).
Proof. apply nonzero_NoDup. Qed.

Lemma bounce_crossed_inv dom nodes new_nodes crossed b :
  NoDup crossed ->
  bounce_crossed dom nodes new_nodes crossed = Ok b ->
  length b = length new_nodes /\
  (forall j, j ∉ crossed -> b !! j = new_nodes !! j) /\
  (forall i, i ∈ crossed ->
     exists x x' p s n,
       nodes !! i = Some x /\ new_nodes !! i = Some x' /\
       intersection_point1 dom x x' = Ok (p, s) /\
       normals dom !! s = Some n /\
       b !! i = Some (bounce_row x' p n)).
Proof.
  intros Hnd Hb. unfold bounce_crossed in Hb.
  apply bind_Ok in Hb as (old_c & Hold & Hb).
  apply bind_Ok in Hb as (new_c & Hnew & Hb).
  apply bind_Ok in Hb as ([intr_pnt intr_idx] & Hip & Hb).
  apply bind_Ok in Hb as (intr_norms & Hnorms & Hb).
  unfold intersection_point in Hip.
  apply bind_Ok in Hip as (r & Hr & [= <- <-]).
  split; [by eapply put_rows_length|].
  split; [intros; by eapply put_rows_other|].
  intros i [k Hk]%list_elem_of_lookup_1.
  destruct (take_rows_lookup _ _ _ _ _ Hold Hk) as (x & Hxk & Hx).
  destruct (take_rows_lookup _ _ _ _ _ Hnew Hk) as (x' & Hx'k & Hx').
  assert (zip old_c new_c !! k = Some (x, x')) as Hz.
  { apply lookup_zip_with_Some. eauto. }
  destruct (traverse_lookup _ _ _ _ _ Hr Hz) as ([p s] & Hrk & Hps).
  simpl in Hps.
  assert (r.*2 !! k = Some s) as Hs by by rewrite list_lookup_fmap, Hrk.
  destruct (take_rows_lookup _ _ _ _ _ Hnorms Hs) as (n & Hnk & Hn).
  exists x, x', p, s, n. repeat split; try done.
  destruct (put_rows_lookup _ _ _ _ _ _ Hb Hnd Hk) as [Hbi _].
  etrans; [exact Hbi|].
  apply lookup_zip_with_Some. exists (x', p), n. repeat split; try done.
  apply lookup_zip_with_Some. exists x', p. repeat split; try done.
  by rewrite list_lookup_fmap, Hrk.
Qed.

Lemma bounce_crossed_total dom nodes new_nodes :
  Forall2 (crossing_ok dom) nodes new_nodes ->
  exists b,
    bounce_crossed dom nodes new_nodes (crossing dom nodes new_nodes) = Ok b.
Proof.
  intros Hok. set (crossed := crossing dom nodes new_nodes).
  assert (forall i, i ∈ crossed ->
            exists x x' p s n, nodes !! i = Some x /\ new_nodes !! i = Some x' /\
              intersection_point1 dom x x' = Ok (p, s) /\
              normals dom !! s = Some n) as Hc.
  { intros i (x & x' & Hx & Hx' & Hne)%crossing_spec.
    destruct (Forall2_lookup_lr _ _ _ _ _ _ Hok Hx Hx' Hne) as (p & s & n & ? & ?).
    by exists x, x', p, s, n. }
  destruct (take_rows_total nodes crossed) as [old_c Hold].
  { apply Forall_forall. intros i (x & ? & ? & ? & ? & Hx & _)%Hc.
    by eapply lookup_lt_Some. }
  destruct (take_rows_total new_nodes crossed) as [new_c Hnew].
  { apply Forall_forall. intros i (? & x & ? & ? & ? & _ & Hx & _)%Hc.
    by eapply lookup_lt_Some. }
  assert (forall k x x', zip old_c new_c !! k = Some (x, x') ->
            exists p s n, intersection_point1 dom x x' = Ok (p, s) /\
                          normals dom !! s = Some n) as Hz.
  { intros k x x' (x0 & x0' & [= <- <-] & Hxk & Hx'k)%lookup_zip_with_Some.
    destruct (lookup_lt_is_Some_2 crossed k) as [i Hi].
    { rewrite <- (take_rows_length _ _ _ Hold). by eapply lookup_lt_Some. }
    destruct (take_rows_lookup _ _ _ _ _ Hold Hi) as (y & Hyk & Hy).
    destruct (take_rows_lookup _ _ _ _ _ Hnew Hi) as (y' & Hy'k & Hy').
    destruct (Hc i) as (z & z' & p & s & n & Hz & Hz' & Hp & Hn).
    { by eapply list_elem_of_lookup_2. }
    simplify_eq. by exists p, s, n. }
  destruct (traverse_total
              (fun ab : point * point => intersection_point1 dom ab.1 ab.2)
              (zip old_c new_c)) as [r Hr].
  { apply Forall_forall. intros [x x'] [k Hk]%list_elem_of_lookup_1.
    destruct (Hz k x x' Hk) as (p & s & n & Hp & _). by exists (p, s). }
  destruct (take_rows_total (normals dom) r.*2) as [intr_norms Hnorms].
  { apply Forall_forall. intros s [k Hk]%list_elem_of_lookup_1.
    rewrite list_lookup_fmap in Hk.
    destruct (r !! k) as [[p s']|] eqn:Hrk; simplify_eq/=.
    pose proof (proj1 (traverse_Ok _ _ _) Hr) as HF.
    destruct (Forall2_lookup_r _ _ _ _ _ HF Hrk) as ([x x'] & Hxx & Hps).
    destruct (Hz k x x' Hxx) as (p' & s'' & n & Hp' & Hn). simpl in Hps.
    rewrite Hp' in Hps. injection Hps as <- <-. by eapply lookup_lt_Some. }
  assert (length r = length crossed) as Hlen.
  { rewrite (traverse_length _ _ _ Hr), length_zip_with.
    rewrite (take_rows_length _ _ _ Hold), (take_rows_length _ _ _ Hnew). lia. }
  destruct (put_rows_total new_nodes crossed
              (zip_with (fun (pn : point * point) nrm => bounce_row pn.1 pn.2 nrm)
                        (zip new_c r.*1) intr_norms)) as [b Hb].
  { rewrite !length_zip_with, length_fmap, (take_rows_length _ _ _ Hnorms),
      length_fmap, (take_rows_length _ _ _ Hnew). lia. }
  { apply Forall_forall. intros i (? & x & ? & ? & ? & _ & Hx & _)%Hc.
    by eapply lookup_lt_Some. }
  exists b. unfold bounce_crossed. fold crossed.
  rewrite Hold; simpl. rewrite Hnew; simpl.
  unfold intersection_point. rewrite Hr; simpl. rewrite Hnorms; simpl.
  exact Hb.
Qed.

Lemma crossing_bound dom a b :
  Forall (fun i => i < length a /\ i < length b) (crossing dom a b).
Proof.
  apply Forall_forall. intros i (x & y & Hx & Hy & _)%crossing_spec.
  split; by eapply lookup_lt_Some.
Qed.

Lemma revert_still_crossed_inv dom nodes b crossed out :
  NoDup crossed ->
  revert_still_crossed dom nodes b crossed = Ok out ->
  length out = length b /\
  (forall i, i ∉ crossed -> out !! i = b !! i) /\
  (forall i x y, i ∈ crossed -> nodes !! i = Some x -> b !! i = Some y ->
     out !! i = Some (if decide (intersection_count1 dom x y = 0)
                      then y else x)).
Proof.
  intros Hnd Hout. unfold revert_still_crossed in Hout.
  apply bind_Ok in Hout as (old_c & Hold & Hout).
  apply bind_Ok in Hout as (new_c & Hnew & Hout).
  apply bind_Ok in Hout as (back & Hback & Hout).
  apply bind_Ok in Hout as (old_back & Hob & Hout).
  assert (forall i, i ∈ back <->
            exists k, k ∈ crossing dom old_c new_c /\ crossed !! k = Some i)
    as Hback_spec by (intros i; by apply take_rows_elem).
  split; [by eapply put_rows_length|]. split.
  - intros i Hi. eapply put_rows_other; [done|].
    intros (k & _ & Hk)%Hback_spec. apply Hi. by eapply list_elem_of_lookup_2.
  - intros i x y [k Hk]%list_elem_of_lookup_1 Hx Hy.
    destruct (take_rows_lookup _ _ _ _ _ Hold Hk) as (x0 & Hxk & Hx0).
    destruct (take_rows_lookup _ _ _ _ _ Hnew Hk) as (y0 & Hyk & Hy0).
    rewrite <- (lookup_agree _ _ _ _ Hx Hx0) in Hxk.
    rewrite <- (lookup_agree _ _ _ _ Hy Hy0) in Hyk. clear x0 y0 Hx0 Hy0.
    case_decide as Hc.
    + rewrite <- Hy. eapply put_rows_other; [done|].
      intros (k' & (x1 & y1 & Hx1 & Hy1 & Hne)%crossing_spec & Hk')%Hback_spec.
      assert (k' = k) as -> by by eapply (proj1 (NoDup_alt crossed) Hnd).
      rewrite (lookup_agree _ _ _ _ Hxk Hx1), (lookup_agree _ _ _ _ Hyk Hy1) in Hc.
      done.
    + assert (k ∈ crossing dom old_c new_c) as [t Ht]%list_elem_of_lookup_1.
      { apply crossing_spec. by exists x, y. }
      destruct (take_rows_lookup _ _ _ _ _ Hback Ht) as (i' & Hbt & Hi').
      assert (i' = i) as -> by congruence.
      destruct (take_rows_lookup _ _ _ _ _ Hob Hbt) as (x1 & Hobt & Hx1).
      assert (NoDup back) as Hndb.
      { eapply take_rows_NoDup; [exact Hnd| |exact Hback]. apply crossing_NoDup. }
      destruct (put_rows_lookup _ _ _ _ _ _ Hout Hndb Hbt) as [Ho _].
      etrans; [exact Ho|]. rewrite Hobt. f_equal.
      by eapply lookup_agree.
Qed.

Lemma revert_still_crossed_total dom nodes b crossed :
  Forall (fun i => i < length nodes /\ i < length b) crossed ->
  exists out, revert_still_crossed dom nodes b crossed = Ok out.
Proof.
  intros Hc.
  destruct (take_rows_total nodes crossed) as [old_c Hold].
  { eapply Forall_impl; [done|]. by intros i [? ?]. }
  destruct (take_rows_total b crossed) as [new_c Hnew].
  { eapply Forall_impl; [done|]. by intros i [? ?]. }
  destruct (take_rows_total crossed (crossing dom old_c new_c)) as [back Hback].
  { eapply Forall_impl; [apply crossing_bound|]. intros k [Hk _].
    by rewrite (take_rows_length _ _ _ Hold) in Hk. }
  assert (Forall (fun i => i < length nodes /\ i < length b) back) as Hb.
  { apply Forall_forall. intros i Hi.
    apply (take_rows_elem _ _ _ _ Hback) in Hi as (k & _ & Hk).
    eapply Forall_forall in Hc; [done|]. by eapply list_elem_of_lookup_2. }
  destruct (take_rows_total nodes back) as [old_back Hob].
  { eapply Forall_impl; [done|]. by intros i [? ?]. }
  destruct (put_rows_total b back old_back) as [out Hout].
  { by rewrite (take_rows_length _ _ _ Hob). }
  { eapply Forall_impl; [done|]. by intros i [? ?]. }
  exists out. unfold revert_still_crossed.
  rewrite Hold; simpl. rewrite Hnew; simpl. rewrite Hback; simpl.
  by rewrite Hob.
Qed.

Lemma bounced_to_no_cross dom x x' y :
  bounced_to dom x x' y -> y = x \/ intersection_count1 dom x y = 0.
Proof.
  intros [[Hc ->]|(_ & p & s & n & _ & _ & [[Hc ->]|[_ ->]])]; auto.
Qed.

Lemma bounce_inv dom nodes new_nodes out :
  bounce dom nodes new_nodes = Ok out ->
  length out = length new_nodes /\
  forall i x x', nodes !! i = Some x -> new_nodes !! i = Some x' ->
    exists y, out !! i = Some y /\ bounced_to dom x x' y.
Proof.
  intros Hout. unfold bounce in Hout.
  apply bind_Ok in Hout as (b & Hb & Hout).
  pose proof (crossing_NoDup dom nodes new_nodes) as Hnd.
  destruct (bounce_crossed_inv _ _ _ _ _ Hnd Hb) as (Hlb & Hbo & Hbc).
  destruct (revert_still_crossed_inv _ _ _ _ _ Hnd Hout) as (Hlo & Hoo & Hoc).
  split; [congruence|]. intros i x x' Hx Hx'.
  destruct (decide (i ∈ crossing dom nodes new_nodes)) as [Hi|Hi].
  - destruct (Hbc i Hi) as (x0 & x0' & p & s & n & Hx0 & Hx0' & Hp & Hn & Hbi).
    rewrite <- (lookup_agree _ _ _ _ Hx Hx0) in Hp.
    rewrite <- (lookup_agree _ _ _ _ Hx' Hx0') in Hp, Hbi. clear x0 x0' Hx0 Hx0'.
    pose proof Hi as (x1 & x1' & Hx1 & Hx1' & Hne)%crossing_spec.
    rewrite <- (lookup_agree _ _ _ _ Hx Hx1),
            <- (lookup_agree _ _ _ _ Hx' Hx1') in Hne. clear x1 x1' Hx1 Hx1'.
    eexists. split; [exact (Hoc i x _ Hi Hx Hbi)|].
    right. split; [done|]. exists p, s, n. repeat split; try done.
    case_decide; [left|right]; done.
  - exists x'. split.
    + by rewrite (Hoo i Hi), (Hbo i Hi).
    + left. split; [|done].
      destruct (decide (intersection_count1 dom x x' = 0)) as [|Hne]; [done|].
      exfalso. apply Hi, crossing_spec. by exists x, x'.
Qed.

Lemma bounce_total dom nodes new_nodes :
  Forall2 (crossing_ok dom) nodes new_nodes ->
  exists out, bounce dom nodes new_nodes = Ok out.
Proof.
  intros Hok. destruct (bounce_crossed_total _ _ _ Hok) as [b Hb].
  pose proof (crossing_NoDup dom nodes new_nodes) as Hnd.
  destruct (bounce_crossed_inv _ _ _ _ _ Hnd Hb) as (Hlb & _ & _).
  destruct (revert_still_crossed_total dom nodes b
              (crossing dom nodes new_nodes)) as [out Hout].
  { rewrite Hlb. apply crossing_bound. }
  exists out. unfold bounce. by rewrite Hb.
Qed.

(** C1, as the code has it: for every node whose proposed move crosses
    the boundary, the position written back by the bounce is the
    proposed position minus twice the normal times the normal component
    of the residual, the residual being the proposed position minus the
    intersection point; the other nodes keep the proposed position. *)
Theorem bounce_reflects_proposed_position dom nodes new_nodes :
  Forall2 (crossing_ok dom) nodes new_nodes ->
  exists b,
    bounce_crossed dom nodes new_nodes (crossing dom nodes new_nodes) = Ok b /\
    length b = length new_nodes /\
    forall i x x', nodes !! i = Some x -> new_nodes !! i = Some x' ->
      (intersection_count1 dom x x' = 0 -> b !! i = Some x') /\
      (intersection_count1 dom x x' <> 0 ->
       exists p s n,
         intersection_point1 dom x x' = Ok (p, s) /\
         normals dom !! s = Some n /\
         b !! i = Some (vsub x' ((fun c => mul (mul two c)
                                              (dot (vsub x' p) n)) <$> n))).
Proof.
  intros Hok. destruct (bounce_crossed_total _ _ _ Hok) as [b Hb].
  pose proof (crossing_NoDup dom nodes new_nodes) as Hnd.
  destruct (bounce_crossed_inv _ _ _ _ _ Hnd Hb) as (Hlb & Hbo & Hbc).
  exists b. repeat split; try done.
  - intros Hc. rewrite Hbo; [done|].
    intros (x1 & x1' & Hx1 & Hx1' & Hne)%crossing_spec.
    rewrite <- (lookup_agree _ _ _ _ H0 Hx1),
            <- (lookup_agree _ _ _ _ H1 Hx1') in Hne. done.
  - intros Hne.
    destruct (Hbc i) as (x0 & x0' & p & s & n & Hx0 & Hx0' & Hp & Hn & Hbi).
    { apply crossing_spec. by exists x, x'. }
    rewrite <- (lookup_agree _ _ _ _ H0 Hx0) in Hp.
    rewrite <- (lookup_agree _ _ _ _ H1 Hx0') in Hp, Hbi.
    by exists p, s, n.
Qed.

(** *** Iterations *)

Lemma disperse_step_length nodes rho fixed_nodes neighbors delta new_nodes :
  _disperse_step kdtree nodes rho fixed_nodes neighbors delta = Ok new_nodes ->
  length new_nodes = length nodes.
Proof.
  unfold _disperse_step. case_decide; [by intros [= <-]|].
  intros Hs. apply bind_Ok in Hs as ([dist idx] & _ & Hs).
  apply traverse_length in Hs. by rewrite length_seq in Hs.
Qed.

Lemma disperse_iteration_inv dom rho fixed_nodes neighbors delta a b :
  disperse_iteration kdtree dom rho fixed_nodes neighbors delta a = Ok b ->
  exists new_nodes,
    _disperse_step kdtree a rho fixed_nodes neighbors delta = Ok new_nodes /\
    length b = length a /\
    forall i x, a !! i = Some x ->
      exists x' y, new_nodes !! i = Some x' /\ b !! i = Some y /\
                   bounced_to dom x x' y.
Proof.
  intros Hb. unfold disperse_iteration in Hb.
  apply bind_Ok in Hb as (new_nodes & Hstep & Hb).
  pose proof (disperse_step_length _ _ _ _ _ _ Hstep) as Hlen.
  destruct (bounce_inv _ _ _ _ Hb) as (Hlb & Hrows).
  exists new_nodes. split; [done|]. split; [congruence|].
  intros i x Hx.
  destruct (lookup_lt_is_Some_2 new_nodes i) as [x' Hx'].
  { rewrite Hlen. by eapply lookup_lt_Some. }
  destruct (Hrows i x x' Hx Hx') as (y & Hy & Hxy). by exists x', y.
Qed.

(** The node sets before and after each iteration of the loop. *)
Lemma disperse_loop_trace iterations dom rho fixed_nodes neighbors delta
    nodes out :
  disperse_loop kdtree iterations dom rho fixed_nodes neighbors delta nodes
  = Ok out ->
  exists tr : list array,
    length tr = S iterations /\ tr !! 0 = Some nodes /\
    tr !! iterations = Some out /\
    forall t a b, tr !! t = Some a -> tr !! S t = Some b ->
      disperse_iteration kdtree dom rho fixed_nodes neighbors delta a = Ok b.
Proof.
  revert nodes. induction iterations as [|n IH]; intros nodes Hout.
  - injection Hout as <-. exists [nodes]. repeat split; done.
  - simpl in Hout. apply bind_Ok in Hout as (a1 & Hit & Hout).
    destruct (IH _ Hout) as (tr & Hlen & Hhd & Hlast & Hstep).
    exists (nodes :: tr). repeat split; simpl; try done; [by rewrite Hlen|].
    intros [|t] a b Ha Hb; simpl in *.
    + injection Ha as <-. rewrite Hhd in Hb. by injection Hb as <-.
    + by eapply Hstep.
Qed.

Lemma disperse_inv nodes dom iterations (rho : option density)
    (fixed_nodes : option array) neighbors delta out :
  disperse kdtree nodes dom iterations rho fixed_nodes neighbors delta = Ok out ->
  exists neighbors',
    clamp_neighbors (dim dom) neighbors (length nodes)
                    (length (default [] fixed_nodes)) = Ok neighbors' /\
    disperse_loop kdtree iterations dom (default default_rho rho)
                  (default [] fixed_nodes) neighbors' delta nodes = Ok out.
Proof.
  intros Hout. unfold disperse in Hout.
  apply bind_Ok in Hout as (_ & _ & Hout).
  apply bind_Ok in Hout as (fx & Hfx & Hout).
  apply bind_Ok in Hout as (nb & Hnb & Hout).
  assert (fx = default [] fixed_nodes) as ->.
  { destruct fixed_nodes as [fx'|]; simpl in *.
    - apply bind_Ok in Hfx as (_ & _ & [= ->]). done.
    - by injection Hfx as <-. }
  by exists nb.
Qed.

(** C5: a successful run of [disperse] is the sequence of node sets
    [tr], from the input to the output, in which each set is what one
    iteration makes of the one before: with [new_nodes] the positions
    proposed by [_disperse_step], each node ends the iteration at the
    proposed position [x'] if the move to it does not cross the
    boundary, else at the position bounced once if the move to that
    does not cross, else exactly at its position [x] before the
    iteration, with no further bounce. So after every iteration the
    segment from the position before to the position after does not
    cross the boundary. *)
Theorem disperse_no_boundary_crossing nodes dom iterations
    (rho : option density) (fixed_nodes : option array) neighbors delta out :
  disperse kdtree nodes dom iterations rho fixed_nodes neighbors delta = Ok out ->
  exists (nb : Z) (tr : list array),
    clamp_neighbors (dim dom) neighbors (length nodes)
                    (length (default [] fixed_nodes)) = Ok nb /\
    length tr = S iterations /\ tr !! 0 = Some nodes /\
    tr !! iterations = Some out /\
    forall t a b, tr !! t = Some a -> tr !! S t = Some b ->
      disperse_iteration kdtree dom (default default_rho rho)
                         (default [] fixed_nodes) nb delta a = Ok b /\
      exists new_nodes,
        _disperse_step kdtree a (default default_rho rho)
                       (default [] fixed_nodes) nb delta = Ok new_nodes /\
        length new_nodes = length a /\ length b = length a /\
        forall i x, a !! i = Some x ->
          exists x' y,
            new_nodes !! i = Some x' /\ b !! i = Some y /\
            ((intersection_count1 dom x x' = 0 /\ y = x') \/
             (intersection_count1 dom x x' <> 0 /\
              exists p s n,
                intersection_point1 dom x x' = Ok (p, s) /\
                normals dom !! s = Some n /\
                (let xb := vsub x' ((fun c => mul (mul two c)
                                                  (dot (vsub x' p) n)) <$> n) in
                 (intersection_count1 dom x xb = 0 /\ y = xb) \/
                 (intersection_count1 dom x xb <> 0 /\ y = x)))) /\
            (y = x \/ intersection_count1 dom x y = 0).
Proof.
  intros (nb & Hnb & Hloop)%disperse_inv.
  destruct (disperse_loop_trace _ _ _ _ _ _ _ _ Hloop)
    as (tr & Hlen & Hhd & Hlast & Hstep).
  exists nb, tr. split; [done|]. split; [done|]. split; [done|].
  split; [done|]. intros t a b Ha Hb.
  pose proof (Hstep t a b Ha Hb) as Hit. split; [done|].
  destruct (disperse_iteration_inv _ _ _ _ _ _ _ Hit)
    as (new_nodes & Hnew & Hl & Hrows).
  exists new_nodes. split; [done|].
  split; [by eapply disperse_step_length|]. split; [done|].
  intros i x Hx. destruct (Hrows i x Hx) as (x' & y & Hx' & Hy & Hxy).
  exists x', y. split; [done|]. split; [done|].
  split; [|by eapply bounced_to_no_cross].
  unfold bounced_to, bounce_row in Hxy. exact Hxy.
Qed.

End Dispersion.

(** ** The dispersion in memory *)

Section Memory.

Context {F : Type} `{Arith F}.

#[local] Abbreviation point := (list F).
#[local] Abbreviation array := (list (list F)).
Variable kdtree : KDTree (F := F).

Implicit Types (dom : Domain (F := F)) (rho : density (F := F)).
Implicit Types (h : Mem.heap (F := F)) (a b fx : list (list F)).

Lemma mem_store_frame l a h l' :
  l' <> l -> (Mem.store l a h).1 !! l' = h !! l'.
Proof.
  intros Hl. unfold Mem.store. case_decide; simpl; [|done].
  by apply list_lookup_insert_ne.
Qed.

Lemma mem_store_length l a h : length (Mem.store l a h).1 = length h.
Proof.
  unfold Mem.store. case_decide; [apply length_insert|done].
Qed.

(** A step allocates its result and leaves every existing array alone. *)
Lemma mem_step_alloc nodes rho fixed_nodes neighbors delta h :
  (exists out,
     Mem._disperse_step kdtree nodes rho fixed_nodes neighbors delta h
     = (h ++ [out], Ok (length h))) \/
  (exists e,
     Mem._disperse_step kdtree nodes rho fixed_nodes neighbors delta h
     = (h, Raise e)).
Proof.
  unfold Mem._disperse_step, Mem.bind, Mem.load, Mem.lift, Mem.alloc.
  destruct (get h nodes) as [a|e]; [|right; by exists e].
  destruct (get h fixed_nodes) as [fx|e]; [|right; by exists e].
  destruct (_disperse_step kdtree a rho fx neighbors delta) as [out|e];
    [left; by exists out|right; by exists e].
Qed.

(** The boundary handling writes to the array at [new_nodes] only. *)
Lemma mem_bounce_frame dom nodes new_nodes h l :
  l <> new_nodes ->
  (Mem.bounce dom nodes new_nodes h).1 !! l = h !! l.
Proof.
  intros Hl. unfold Mem.bounce, Mem.bind, Mem.load, Mem.lift.
  destruct (get h nodes) as [a|e]; [|done].
  destruct (get h new_nodes) as [b|e]; [|done].
  destruct (bounce_crossed dom a b (crossing dom a b)) as [b1|e]; [|done].
  pose proof (mem_store_frame new_nodes b1 h l Hl) as Hs.
  destruct (Mem.store new_nodes b1 h) as [h1 [[]|e]]; simpl in *; [|done].
  destruct (get h1 nodes) as [a'|e]; [|done].
  destruct (get h1 new_nodes) as [b'|e]; [|done].
  destruct (revert_still_crossed dom a' b' (crossing dom a b)) as [b2|e];
    [|done].
  by rewrite mem_store_frame.
Qed.

Lemma mem_bounce_length dom nodes new_nodes h :
  length (Mem.bounce dom nodes new_nodes h).1 = length h.
Proof.
  unfold Mem.bounce, Mem.bind, Mem.load, Mem.lift.
  destruct (get h nodes) as [a|e]; [|done].
  destruct (get h new_nodes) as [b|e]; [|done].
  destruct (bounce_crossed dom a b (crossing dom a b)) as [b1|e]; [|done].
  pose proof (mem_store_length new_nodes b1 h) as Hs.
  destruct (Mem.store new_nodes b1 h) as [h1 [[]|e]]; simpl in *; [|done].
  destruct (get h1 nodes) as [a'|e]; [|done].
  destruct (get h1 new_nodes) as [b'|e]; [|done].
  destruct (revert_still_crossed dom a' b' (crossing dom a b)) as [b2|e];
    [|done].
  by rewrite mem_store_length.
Qed.

(** One iteration keeps every array that existed before it. *)
Lemma mem_loop_frame iterations dom rho fixed_nodes neighbors delta nodes h :
  take (length h)
       (Mem.disperse_loop kdtree iterations dom rho fixed_nodes neighbors
                          delta nodes h).1 = h.
Proof.
  revert nodes h. induction iterations as [|n IH]; intros nodes h; simpl.
  { by rewrite firstn_all. }
  unfold Mem.bind at 1.
  destruct (mem_step_alloc nodes rho fixed_nodes neighbors delta h)
    as [[out ->]|[e ->]]; [|by rewrite firstn_all].
  unfold Mem.bind at 1.
  pose proof (mem_bounce_frame dom nodes (length h) (h ++ [out])) as Hfr.
  pose proof (mem_bounce_length dom nodes (length h) (h ++ [out])) as Hlen.
  destruct (Mem.bounce dom nodes (length h) (h ++ [out])) as [h2 r].
  simpl in Hfr, Hlen. rewrite length_app in Hlen. simpl in Hlen.
  assert (take (length h) h2 = h) as Hh2.
  { apply list_eq. intros l. destruct (decide (l < length h)) as [Hl|Hl].
    - rewrite lookup_take_lt by done. rewrite Hfr by lia.
      by apply lookup_app_l.
    - rewrite lookup_take_ge by lia. symmetry. apply lookup_ge_None. lia. }
  destruct r as [[]|e]; [|done].
  specialize (IH (length h) h2).
  set (X := Mem.disperse_loop _ _ _ _ _ _ _ _ _) in *.
  trans (take (length h) (take (length h2) X.1)).
  - rewrite take_take. f_equal. lia.
  - by rewrite IH.
Qed.

(** C10: whatever [disperse] returns or raises, every array that was in
    memory before the call, the caller's free and fixed nodes among
    them, holds the same values after it: the heap before the call is
    the initial segment of the heap after it, so that every write of
    the call went to an array allocated by the call. *)
Theorem disperse_keeps_caller_arrays nodes dom iterations
    (rho : option density) (fixed_nodes : option nat) neighbors delta h :
  take (length h)
       (Mem.disperse kdtree nodes dom iterations rho fixed_nodes neighbors
                     delta h).1 = h.
Proof.
  unfold Mem.disperse, Mem.bind, Mem.load, Mem.lift, Mem.alloc, Mem.ret.
  destruct (get h nodes) as [a|e]; simpl; [|by rewrite firstn_all].
  destruct (assert_shape a (dim dom)) as [[]|e]; simpl;
    [|by rewrite firstn_all].
  destruct fixed_nodes as [l|].
  - destruct (get h l) as [fx|e]; simpl; [|by rewrite firstn_all].
    destruct (assert_shape fx (dim dom)) as [[]|e]; simpl;
      [|by rewrite firstn_all].
    destruct (get h l) as [fx'|e]; simpl; [|by rewrite firstn_all].
    destruct (clamp_neighbors _ _ _ _) as [nb|e]; simpl;
      [|by rewrite firstn_all].
    apply mem_loop_frame.
  - destruct (get _ (length h)) as [fx'|e];
      [|exact (take_app_length h _)].
    destruct (clamp_neighbors _ _ _ _) as [nb|e];
      [|exact (take_app_length h _)].
    pose proof (mem_loop_frame iterations dom (default default_rho rho)
                  (length h) nb delta nodes (h ++ [[]])) as Hfr.
    set (X := Mem.disperse_loop _ _ _ _ _ _ _ _ _) in *.
    trans (take (length h) (take (length (h ++ [[]])) X.1)).
    + rewrite take_take, length_app. f_equal. lia.
    + rewrite Hfr. apply take_app_length.
Qed.

(** The arrays in memory hold what the functional model computes. *)
Lemma mem_bounce_refines dom nodes new_nodes h a b :
  h !! nodes = Some a -> h !! new_nodes = Some b -> nodes <> new_nodes ->
  match bounce dom a b with
  | Ok out => Mem.bounce dom nodes new_nodes h = (<[new_nodes := out]> h, Ok tt)
  | Raise e => (Mem.bounce dom nodes new_nodes h).2 = Raise e
  end.
Proof.
  intros Ha Hb Hne. pose proof (lookup_lt_Some _ _ _ Hb) as Hlt.
  assert (Mem.bounce dom nodes new_nodes h =
          match bounce_crossed dom a b (crossing dom a b) with
          | Ok b1 =>
              match revert_still_crossed dom a b1 (crossing dom a b) with
              | Ok b2 => (<[new_nodes := b2]> h, Ok tt)
              | Raise e => (<[new_nodes := b1]> h, Raise e)
              end
          | Raise e => (h, Raise e)
          end) as ->.
  { unfold Mem.bounce, Mem.bind, Mem.load, Mem.lift.
    rewrite (proj2 (get_Ok h nodes a) Ha), (proj2 (get_Ok h new_nodes b) Hb).
    destruct (bounce_crossed dom a b (crossing dom a b)) as [b1|e]; [|done].
    unfold Mem.store at 1. rewrite decide_True by done.
    rewrite (proj2 (get_Ok (<[new_nodes := b1]> h) nodes a)).
    2:{ rewrite <- Ha. by apply list_lookup_insert_ne. }
    rewrite (proj2 (get_Ok (<[new_nodes := b1]> h) new_nodes b1)).
    2:{ by apply list_lookup_insert_eq. }
    destruct (revert_still_crossed dom a b1 (crossing dom a b)) as [b2|e];
      [|done].
    unfold Mem.store. rewrite decide_True.
    2:{ unfold Mem.heap in *. by rewrite length_insert. }
    f_equal. apply list_insert_insert_eq. }
  unfold bounce.
  destruct (bounce_crossed dom a b (crossing dom a b)) as [b1|e]; simpl;
    [|done].
  by destruct (revert_still_crossed dom a b1 (crossing dom a b)).
Qed.

Lemma mem_loop_refines iterations dom rho fixed_nodes neighbors delta
    nodes h a fx :
  h !! nodes = Some a -> h !! fixed_nodes = Some fx ->
  match Mem.disperse_loop kdtree iterations dom rho fixed_nodes neighbors
                          delta nodes h with
  | (h', Ok l) =>
      exists out,
        disperse_loop kdtree iterations dom rho fx neighbors delta a = Ok out /\
        h' !! l = Some out
  | (_, Raise e) =>
      disperse_loop kdtree iterations dom rho fx neighbors delta a = Raise e
  end.
Proof.
  revert nodes h a. induction iterations as [|n IH]; intros nodes h a Ha Hfx.
  { simpl. by exists a. }
  simpl. unfold disperse_iteration, Mem.bind at 1.
  unfold Mem._disperse_step, Mem.bind, Mem.load, Mem.lift, Mem.alloc.
  rewrite (proj2 (get_Ok h nodes a) Ha), (proj2 (get_Ok h fixed_nodes fx) Hfx).
  destruct (_disperse_step kdtree a rho fx neighbors delta) as [new|e];
    simpl; [|done].
  assert ((h ++ [new]) !! nodes = Some a) as Ha1.
  { by apply lookup_app_l_Some. }
  assert ((h ++ [new]) !! length h = Some new) as Hn1.
  { by apply list_lookup_middle. }
  assert (nodes <> length h) as Hne.
  { apply lookup_lt_Some in Ha. lia. }
  pose proof (mem_bounce_refines dom nodes (length h) (h ++ [new]) a new
                Ha1 Hn1 Hne) as Hb.
  destruct (bounce dom a new) as [out|e]; simpl.
  - rewrite Hb. apply IH.
    + apply list_lookup_insert_eq. rewrite length_app. simpl. lia.
    + etrans; [apply list_lookup_insert_ne|by apply lookup_app_l_Some].
      apply lookup_lt_Some in Hfx. lia.
  - destruct (Mem.bounce dom nodes (length h) (h ++ [new])) as [h2 r].
    simpl in Hb. by subst r.
Qed.

Lemma mem_disperse_refines nodes dom iterations (rho : option density)
    (fixed_nodes : option nat) neighbors delta h a :
  h !! nodes = Some a ->
  (forall l, fixed_nodes = Some l -> is_Some (h !! l)) ->
  let fixed := l ← fixed_nodes; h !! l in
  match Mem.disperse kdtree nodes dom iterations rho fixed_nodes neighbors
                     delta h with
  | (h', Ok l) =>
      exists out,
        disperse kdtree a dom iterations rho fixed neighbors delta = Ok out /\
        h' !! l = Some out
  | (_, Raise e) =>
      disperse kdtree a dom iterations rho fixed neighbors delta = Raise e
  end.
Proof.
  intros Ha Hfixed. simpl.
  unfold disperse, Mem.disperse, Mem.bind, Mem.load, Mem.lift, Mem.alloc,
    Mem.ret.
  rewrite (proj2 (get_Ok h nodes a) Ha).
  destruct (assert_shape a (dim dom)) as [[]|e]; simpl; [|done].
  destruct fixed_nodes as [l|]; simpl.
  - destruct (Hfixed l eq_refl) as [fx Hfx]. rewrite Hfx.
    rewrite (proj2 (get_Ok h l fx) Hfx).
    destruct (assert_shape fx (dim dom)) as [[]|e]; simpl; [|done].
    rewrite (proj2 (get_Ok h l fx) Hfx).
    destruct (clamp_neighbors _ _ _ _) as [nb|e]; simpl; [|done].
    by apply mem_loop_refines.
  - rewrite (proj2 (get_Ok (h ++ [([] : array)]) (length h) [])).
    2:{ by apply list_lookup_middle. }
    destruct (clamp_neighbors _ _ _ _) as [nb|e]; simpl; [|done].
    apply mem_loop_refines.
    + by apply lookup_app_l_Some.
    + by apply list_lookup_middle.
Qed.

End Memory.

(** ** Dictionaries and group names *)

Lemma dict_get_set {V} (d : dict V) k v k' :
  dict_get (dict_set d k v) k' = if decide (k' = k) then Some v else dict_get d k'.
Proof.
  induction d as [|[k0 v0] d IH]; simpl.
  - repeat case_decide; congruence.
  - repeat (case_decide; simpl in *); try congruence.
Qed.

Lemma dict_get_elem {V} (d : dict V) k v :
  dict_get d k = Some v -> (k, v) ∈ d.
Proof.
  induction d as [|[k0 v0] d IH]; simpl; [done|].
  case_decide; simpl in *.
  - intros [= <-]. subst. apply list_elem_of_here.
  - intros Hd. apply list_elem_of_further. by apply IH.
Qed.

Lemma dict_elem_get {V} (d : dict V) k v :
  NoDup d.*1 -> (k, v) ∈ d -> dict_get d k = Some v.
Proof.
  induction d as [|[k0 v0] d IH]; simpl; [by intros _ ?%elem_of_nil|].
  intros [Hk0 Hnd]%NoDup_cons [[= -> ->]|Hin]%elem_of_cons.
  - by rewrite decide_True.
  - rewrite decide_False; [by apply IH|].
    intros ->. apply Hk0. apply list_elem_of_fmap. by exists (k, v).
Qed.

Lemma dict_set_elem {V} (d : dict V) k v k' v' :
  (k', v') ∈ dict_set d k v -> (k', v') = (k, v) \/ (k', v') ∈ d.
Proof.
  induction d as [|[k0 v0] d IH]; simpl.
  - intros ?%list_elem_of_singleton. by left.
  - case_decide; simpl in *.
    + intros [->|Hin]%elem_of_cons; [by left|].
      right. by apply list_elem_of_further.
    + intros [->|Hin]%elem_of_cons; [right; apply list_elem_of_here|].
      destruct (IH Hin) as [->|Hd]; [by left|].
      right. by apply list_elem_of_further.
Qed.

Lemma dict_set_keys_NoDup {V} (d : dict V) k v :
  NoDup d.*1 -> NoDup (dict_set d k v).*1.
Proof.
  induction d as [|[k0 v0] d IH]; simpl.
  - intros _. apply NoDup_singleton.
  - intros [Hk0 Hnd]%NoDup_cons. case_decide; simpl in *; subst.
    + by apply NoDup_cons.
    + apply NoDup_cons. split; [|by apply IH].
      intros ([k1 v1] & -> & Hin)%list_elem_of_fmap. simpl in *.
      destruct (dict_set_elem _ _ _ _ _ Hin) as [[= -> ->]|Hd]; [done|].
      apply Hk0. apply list_elem_of_fmap. by exists (k1, v1).
Qed.

(** Setting a key outside a class of keys leaves the entries of the
    class as they were. *)
Lemma dict_set_filter {V} (P : string -> bool) (d : dict V) k v :
  P k = false ->
  filter (fun kv : string * V => P kv.1 = true) (dict_set d k v)
  = filter (fun kv : string * V => P kv.1 = true) d.
Proof.
  intros Hk. induction d as [|[k0 v0] d IH]; cbn [dict_set].
  - rewrite filter_cons_False; [done|]. cbn [fst]. by rewrite Hk.
  - case_decide as Hk0; cbn [fst] in Hk0; subst.
    + rewrite !filter_cons_False; [done| |]; cbn [fst]; by rewrite Hk.
    + rewrite !filter_cons. cbn [fst]. by rewrite IH.
Qed.

Lemma dict_set_fresh {V} (d : dict V) k v :
  k ∉ d.*1 -> dict_set d k v = d ++ [(k, v)].
Proof.
  induction d as [|[k0 v0] d IH]; simpl; [done|].
  intros [Hne Hk]%not_elem_of_cons. rewrite decide_False by done.
  by rewrite IH.
Qed.

Lemma boundary_key_inj a b : "boundary:" +:+ a = "boundary:" +:+ b -> a = b.
Proof. cbv [String.append]. by intros [= ->]. Qed.

Lemma ghosts_key_inj a b : "ghosts:" +:+ a = "ghosts:" +:+ b -> a = b.
Proof. cbv [String.append]. by intros [= ->]. Qed.

(** ** Simplices, nodes and groups *)

Lemma elem_of_concat {A} (ls : list (list A)) x :
  x ∈ concat ls <-> exists l, x ∈ l /\ l ∈ ls.
Proof.
  induction ls as [|l ls IH]; simpl.
  - split; [by intros ?%elem_of_nil|by intros (? & _ & ?%elem_of_nil)].
  - rewrite elem_of_app, IH. split.
    + intros [Hx|(l' & Hx & Hl')].
      * exists l. split; [done|]. apply list_elem_of_here.
      * exists l'. split; [done|]. by apply list_elem_of_further.
    + intros (l' & Hx & [->|Hl']%elem_of_cons); [by left|].
      right. by exists l'.
Qed.

Lemma Forall2_concat {A B} (P : A -> B -> Prop) ls1 ls2 :
  Forall2 (Forall2 P) ls1 ls2 -> Forall2 P (concat ls1) (concat ls2).
Proof. induction 1; simpl; [constructor|]. by apply Forall2_app. Qed.

Lemma count_NoDup (l : list nat) x :
  NoDup l ->
  length (filter (fun i => i = x) l) = if decide (x ∈ l) then 1 else 0.
Proof.
  induction 1 as [|y l Hy Hnd IH]; [done|].
  rewrite filter_cons. destruct (decide (y = x)) as [->|Hne]; simpl.
  - rewrite decide_True by apply list_elem_of_here.
    rewrite IH, decide_False; done.
  - rewrite IH. destruct (decide (x ∈ l)) as [Hx|Hx].
    + rewrite decide_True; [done|]. by apply list_elem_of_further.
    + rewrite decide_False; [done|]. by intros [->|?]%elem_of_cons.
Qed.

Lemma snapped_to_spec smpid j i :
  i ∈ snapped_to smpid j <-> smpid !! i = Some j.
Proof.
  unfold snapped_to. rewrite nonzero_spec. split.
  - intros (j' & Hj' & ->%Z.eqb_eq). done.
  - intros Hi. exists j. split; [done|]. apply Z.eqb_refl.
Qed.

Lemma count_snapped_to smpid j i :
  length (filter (fun i' => i' = i) (snapped_to smpid j))
  = if decide (smpid !! i = Some j) then 1 else 0.
Proof.
  rewrite count_NoDup by apply nonzero_NoDup.
  destruct (decide (smpid !! i = Some j)) as [Hi|Hi].
  - rewrite decide_True; [done|]. by apply snapped_to_spec.
  - rewrite decide_False; [done|]. by rewrite snapped_to_spec.
Qed.

Lemma count_group_nodes smpid bnd_smp i j :
  smpid !! i = Some j ->
  length (filter (fun i' => i' = i) (group_nodes smpid bnd_smp))
  = occurrences j bnd_smp.
Proof.
  intros Hi. unfold group_nodes, occurrences.
  induction bnd_smp as [|s smp IH]; [done|].
  rewrite fmap_cons. simpl. rewrite filter_app, length_app, IH.
  rewrite count_snapped_to, filter_cons.
  destruct (decide (s = j)) as [->|Hne].
  - rewrite decide_True by done. done.
  - rewrite decide_False; [done|]. congruence.
Qed.

Lemma group_nodes_elem smpid bnd_smp i :
  i ∈ group_nodes smpid bnd_smp <-> exists j, j ∈ bnd_smp /\ smpid !! i = Some j.
Proof.
  unfold group_nodes. rewrite elem_of_concat. split.
  - intros (l & Hi & (j & -> & Hj)%list_elem_of_fmap).
    exists j. split; [done|]. by apply snapped_to_spec.
  - intros (j & Hj & Hi). exists (snapped_to smpid j). split.
    + by apply snapped_to_spec.
    + apply list_elem_of_fmap. by exists j.
Qed.

Lemma smp_to_nodes_from_spec smpid i0 (acc : list (list nat)) :
  Forall (fun j => j = (-1)%Z \/ (0 <= j < Z.of_nat (length acc))%Z) smpid ->
  exists acc',
    smp_to_nodes_from i0 smpid acc = Ok acc' /\
    length acc' = length acc /\
    forall s l, acc !! s = Some l ->
      acc' !! s = Some (l ++ nonzero_from (fun j' => Z.eqb j' (Z.of_nat s))
                                          i0 smpid).
Proof.
  revert i0 acc. induction smpid as [|j smpid IH]; intros i0 acc Hok.
  { exists acc. repeat split; try done. intros s l Hl. simpl.
    by rewrite app_nil_r. }
  apply Forall_cons in Hok as [Hj Hok]. simpl.
  destruct (decide (j = (-1)%Z)) as [->|Hne].
  - destruct (IH (S i0) acc Hok) as (acc' & Hacc' & Hlen & Hrows).
    exists acc'. repeat split; try done. intros s l Hl.
    rewrite (Hrows s l Hl). repeat f_equal.
    destruct (Z.eqb_spec (-1) (Z.of_nat s)); [lia|done].
  - destruct Hj as [?|Hj]; [done|].
    unfold py_index. rewrite decide_True by done. simpl.
    destruct (IH (S i0) (alter (fun l => l ++ [i0]) (Z.to_nat j) acc))
      as (acc' & Hacc' & Hlen & Hrows).
    { by rewrite length_alter. }
    exists acc'. split; [done|]. rewrite length_alter in Hlen.
    split; [done|]. intros s l Hl.
    destruct (decide (Z.to_nat j = s)) as [<-|Hs].
    + rewrite (Hrows (Z.to_nat j) (l ++ [i0])).
      2:{ by rewrite list_lookup_alter_eq, Hl. }
      rewrite Z2Nat.id by lia. rewrite Z.eqb_refl.
      by rewrite <- app_assoc.
    + rewrite (Hrows s l).
      2:{ by rewrite list_lookup_alter_ne. }
      destruct (Z.eqb_spec j (Z.of_nat s)); [lia|done].
Qed.

(** With a snapping result in contract, [smp_to_nodes] lists for each
    simplex the nodes snapped to it. *)
Lemma smp_to_nodes_spec nsmp smpid :
  Forall (fun j => j = (-1)%Z \/ (0 <= j < Z.of_nat nsmp)%Z) smpid ->
  exists s2n,
    smp_to_nodes nsmp smpid = Ok s2n /\ length s2n = nsmp /\
    forall s, s < nsmp -> s2n !! s = Some (snapped_to smpid (Z.of_nat s)).
Proof.
  intros Hok. unfold smp_to_nodes.
  destruct (smp_to_nodes_from_spec smpid 0 (replicate nsmp []))
    as (s2n & Hs2n & Hlen & Hrows).
  { by rewrite length_replicate. }
  exists s2n. rewrite length_replicate in Hlen. repeat split; try done.
  intros s Hs. rewrite (Hrows s []); [done|].
  by apply lookup_replicate_2.
Qed.

Lemma boundary_nodes_spec nsmp smpid s2n bnd_smp :
  length s2n = nsmp ->
  (forall s, s < nsmp -> s2n !! s = Some (snapped_to smpid (Z.of_nat s))) ->
  Forall (fun j => in_range nsmp j = true) bnd_smp ->
  boundary_nodes s2n bnd_smp = Ok (group_nodes smpid bnd_smp).
Proof.
  intros Hlen Hs2n Hr. unfold boundary_nodes, group_nodes.
  assert (traverse (fun j => s ← py_index (length s2n) j; get s2n s) bnd_smp
          = Ok (snapped_to smpid <$> bnd_smp)) as ->; [|done].
  apply traverse_Ok. apply Forall2_fmap_r, Forall_Forall2_diag.
  eapply Forall_impl; [exact Hr|]. intros j Hj.
  unfold in_range in Hj. apply bool_decide_eq_true in Hj.
  unfold py_index. rewrite Hlen, decide_True by done. simpl.
  apply get_Ok. rewrite Hs2n by lia. by rewrite Z2Nat.id by lia.
Qed.

(** The dictionary after the boundary groups have been entered. *)
Lemma group_boundary_spec nsmp smpid s2n (bg : dict (list Z)) groups :
  length s2n = nsmp ->
  (forall s, s < nsmp -> s2n !! s = Some (snapped_to smpid (Z.of_nat s))) ->
  Forall (fun j => in_range nsmp j = true) (concat bg.*2) ->
  group_boundary s2n bg groups = Ok (boundary_dict smpid groups bg).
Proof.
  intros Hlen Hs2n. unfold boundary_dict. revert groups.
  induction bg as [|[name smp] bg IH]; intros groups Hr; [done|].
  rewrite fmap_cons in Hr. simpl in Hr. apply Forall_app in Hr as [Hsmp Hr].
  simpl. rewrite (boundary_nodes_spec nsmp smpid) by done. simpl.
  by apply IH.
Qed.

Lemma boundary_key_partition name :
  is_partition_key ("boundary:" +:+ name) = true.
Proof. cbv [String.append]. simpl. by destruct name. Qed.

Lemma boundary_key_prefix name :
  String.prefix "boundary:" ("boundary:" +:+ name) = true.
Proof. cbv [String.append]. simpl. by destruct name. Qed.

Lemma boundary_dict_elem smpid groups (bg : dict (list Z)) k v :
  (k, v) ∈ boundary_dict smpid groups bg ->
  (k, v) ∈ groups \/
  exists name smp, (name, smp) ∈ bg /\ k = "boundary:" +:+ name /\
                   v = group_nodes smpid smp.
Proof.
  unfold boundary_dict. revert groups.
  induction bg as [|[name smp] bg IH]; intros groups; simpl; [by left|].
  intros [Hin|(name' & smp' & Hin & -> & ->)]%IH.
  - apply dict_set_elem in Hin as [[= -> ->]|Hin]; [|by left].
    right. exists name, smp. split; [apply list_elem_of_here|done].
  - right. exists name', smp'. split; [by apply list_elem_of_further|done].
Qed.

Lemma boundary_dict_get_other smpid groups (bg : dict (list Z)) k :
  String.prefix "boundary:" k = false ->
  dict_get (boundary_dict smpid groups bg) k = dict_get groups k.
Proof.
  intros Hk. unfold boundary_dict. revert groups.
  induction bg as [|[name smp] bg IH]; intros groups; simpl; [done|].
  rewrite IH, dict_get_set. rewrite decide_False; [done|].
  intros ->. by rewrite boundary_key_prefix in Hk.
Qed.

Lemma boundary_dict_fresh_gen smpid groups (bg : dict (list Z)) :
  NoDup bg.*1 ->
  (forall k, k ∈ groups.*1 ->
     String.prefix "boundary:" k = false \/
     exists n, k = "boundary:" +:+ n /\ n ∉ bg.*1) ->
  boundary_dict smpid groups bg
  = groups ++ ((fun kv : string * list Z =>
                  ("boundary:" +:+ kv.1, group_nodes smpid kv.2)) <$> bg).
Proof.
  unfold boundary_dict. revert groups.
  induction bg as [|[n1 s1] bg IH]; intros l Hnd Hl; simpl.
  { by rewrite app_nil_r. }
  rewrite fmap_cons in Hnd. apply NoDup_cons in Hnd as [Hn1 Hnd].
  rewrite dict_set_fresh.
  2:{ intros [Hp|(n & Heq%boundary_key_inj & Hn)]%Hl.
      - by rewrite boundary_key_prefix in Hp.
      - subst n. apply Hn. rewrite fmap_cons. apply list_elem_of_here. }
  rewrite IH; [by rewrite <- app_assoc|done|].
  intros k. rewrite fmap_app, elem_of_app. intros [Hk|Hk].
  - destruct (Hl k Hk) as [?|(n & -> & Hn)]; [by left|].
    right. exists n. split; [done|]. rewrite fmap_cons in Hn.
    by apply not_elem_of_cons in Hn as [_ ?].
  - simpl in Hk. apply list_elem_of_singleton in Hk as ->.
    right. by exists n1.
Qed.

Lemma boundary_dict_fresh smpid groups (bg : dict (list Z)) :
  NoDup bg.*1 ->
  (forall k, k ∈ groups.*1 -> String.prefix "boundary:" k = false) ->
  boundary_dict smpid groups bg
  = groups ++ ((fun kv : string * list Z =>
                  ("boundary:" +:+ kv.1, group_nodes smpid kv.2)) <$> bg).
Proof.
  intros Hnd Hg. apply boundary_dict_fresh_gen; [done|].
  intros k Hk. left. by apply Hg.
Qed.

(** ** Sorting and the inverse permutation *)

Lemma key_le_total : Total key_le.
Proof. intros a b. unfold key_le. lia. Qed.

Lemma Sorted_seq j n : Sorted le (seq j n).
Proof.
  revert j. induction n as [|n IH]; intros j; simpl; constructor; [done|].
  destruct n; simpl; constructor. lia.
Qed.

(** [np.argsort] of a permutation of [0 .. n-1] is its inverse. *)
Lemma argsort_inverse (p : list nat) n :
  p ≡ₚ seq 0 n ->
  length (argsort p) = n /\
  forall i j, argsort p !! i = Some j -> p !! j = Some i.
Proof.
  intros Hp. pose proof (Permutation_length Hp) as Hlen.
  rewrite length_seq in Hlen. unfold argsort. rewrite Hlen.
  set (s := merge_sort key_le (zip p (seq 0 n))).
  assert (s ≡ₚ zip p (seq 0 n)) as Hs by apply merge_sort_Permutation.
  assert (s.*1 = seq 0 n) as Hs1.
  { pose proof key_le_total.
    apply (Sorted_unique le).
    - apply (Sorted_fmap _ key_le); [done|]. by apply Sorted_merge_sort.
    - apply Sorted_seq.
    - rewrite Hs, fst_zip; [done|]. rewrite length_seq. lia. }
  split.
  { rewrite length_fmap, Hs, length_zip, length_seq. lia. }
  intros i j Hj. rewrite list_lookup_fmap in Hj.
  destruct (s !! i) as [[k j']|] eqn:Hsi; [|done].
  simpl in Hj. injection Hj as ->.
  assert (k = i) as ->.
  { assert (s.*1 !! i = Some k) as Hk by by rewrite list_lookup_fmap, Hsi.
    rewrite Hs1 in Hk. apply lookup_seq in Hk. lia. }
  assert ((i, j) ∈ zip p (seq 0 n)) as Hin.
  { rewrite <- Hs. by eapply list_elem_of_lookup_2. }
  apply list_elem_of_lookup_1 in Hin as [t Ht].
  apply lookup_zip_with_Some in Ht as (i' & j' & [= <- <-] & Hpt & Hseq).
  apply lookup_seq in Hseq as [-> _]. done.
Qed.

Lemma is_permutation_Permutation n p : is_permutation n p -> p ≡ₚ seq 0 n.
Proof.
  intros (Hnd & Hlen & Hb). apply submseteq_length_Permutation.
  - apply NoDup_submseteq; [done|]. intros i Hi. apply elem_of_seq.
    eapply Forall_forall in Hb; [|done]. lia.
  - by rewrite length_seq, Hlen.
Qed.

Lemma argsort_NoDup (p : list nat) n : p ≡ₚ seq 0 n -> NoDup (argsort p).
Proof.
  intros Hp. destruct (argsort_inverse p n Hp) as [_ Hinv].
  apply NoDup_alt. intros i1 i2 j H1%Hinv H2%Hinv. congruence.
Qed.

Lemma argsort_total (p : list nat) n i :
  p ≡ₚ seq 0 n -> i < n ->
  exists j, argsort p !! i = Some j /\ p !! j = Some i.
Proof.
  intros Hp Hi. destruct (argsort_inverse p n Hp) as [Hlen Hinv].
  destruct (lookup_lt_is_Some_2 (argsort p) i) as [j Hj]; [lia|].
  exists j. split; [done|]. by apply Hinv.
Qed.

Lemma occurrences_app j l1 l2 :
  occurrences j (l1 ++ l2) = occurrences j l1 + occurrences j l2.
Proof. unfold occurrences. by rewrite filter_app, length_app. Qed.

Lemma occurrences_not_in j l : j ∉ l -> occurrences j l = 0.
Proof.
  unfold occurrences. induction l as [|a l IH]; [done|].
  intros [Hne Hl]%not_elem_of_cons. rewrite filter_cons_False by done.
  by apply IH.
Qed.

Lemma occurrences_seq s a n :
  occurrences (Z.of_nat s) (Z.of_nat <$> seq a n)
  = if decide (a <= s < a + n) then 1 else 0.
Proof.
  unfold occurrences. revert a. induction n as [|n IH]; intros a.
  { simpl. case_decide; [lia|done]. }
  change (seq a (S n)) with (a :: seq (S a) n).
  rewrite fmap_cons, filter_cons.
  destruct (decide (Z.of_nat a = Z.of_nat s)); simpl; rewrite IH;
    repeat case_decide; lia.
Qed.

(** In the dictionary built from the snapping result, a node snapped to
    [j] occurs in the groups 'interior' and 'boundary:' as often as [j]
    occurs among -1 and the simplices claimed by the boundary groups. *)
Lemma memberships_boundary_dict smpid (pin : dict (list nat))
    (bg : dict (list Z)) i j :
  NoDup bg.*1 ->
  (forall k, k ∈ pin.*1 -> k = "pinned") ->
  smpid !! i = Some j ->
  memberships i (boundary_dict smpid
                   (("interior", snapped_to smpid (-1)) :: pin) bg)
  = occurrences j ((-1)%Z :: concat bg.*2).
Proof.
  intros Hnd Hpin Hi. rewrite boundary_dict_fresh; [|done|].
  2:{ intros k [->|Hk]%elem_of_cons; [done|]. by rewrite (Hpin k Hk). }
  unfold memberships. rewrite filter_app, filter_cons_True by done.
  assert (filter (fun kv : string * list nat => is_partition_key kv.1 = true)
                 pin = []) as ->.
  { induction pin as [|[k v] pin IH]; [done|].
    rewrite filter_cons_False.
    - apply IH. intros k' Hk'. apply Hpin. rewrite fmap_cons.
      by apply list_elem_of_further.
    - simpl. rewrite (Hpin k); [done|]. rewrite fmap_cons.
      apply list_elem_of_here. }
  rewrite fmap_app, concat_app. simpl.
  rewrite app_nil_r, filter_app, length_app, count_snapped_to.
  change ((-1)%Z :: concat bg.*2) with ([(-1)%Z] ++ concat bg.*2).
  rewrite occurrences_app. f_equal.
  - unfold occurrences. rewrite filter_cons.
    destruct (decide ((-1)%Z = j)) as [<-|Hne].
    + by rewrite decide_True.
    + rewrite decide_False; [done|]. congruence.
  - clear Hnd. induction bg as [|[name smp] bg IH]; [done|].
    rewrite !fmap_cons, filter_cons_True by apply boundary_key_partition.
    rewrite fmap_cons. simpl.
    rewrite filter_app, length_app, occurrences_app, IH.
    f_equal. by apply count_group_nodes.
Qed.

(** ** Groups under a renumbering of the nodes *)

Lemma dict_get_Forall2 {A B} (R : A -> B -> Prop) (g : dict A) (g' : dict B) k :
  Forall2 (fun (kv : string * A) (kv' : string * B) =>
             kv'.1 = kv.1 /\ R kv.2 kv'.2) g g' ->
  match dict_get g k, dict_get g' k with
  | Some v, Some v' => R v v'
  | None, None => True
  | _, _ => False
  end.
Proof.
  induction 1 as [|[k1 v1] [k2 v2] g g' [Hk Hv] _ IH]; simpl in *; [done|].
  subst k2. by case_decide.
Qed.

Lemma filter_key_Forall2 {A B} (P : string -> bool) (R : A -> B -> Prop)
    (g : dict A) (g' : dict B) :
  Forall2 (fun (kv : string * A) (kv' : string * B) =>
             kv'.1 = kv.1 /\ R kv.2 kv'.2) g g' ->
  Forall2 R (filter (fun kv : string * A => P kv.1 = true) g).*2
            (filter (fun kv : string * B => P kv.1 = true) g').*2.
Proof.
  induction 1 as [|[k1 v1] [k2 v2] g g' [Hk Hv] _ IH]; simpl in *.
  { constructor. }
  subst k2. rewrite !filter_cons. simpl.
  destruct (decide (P k1 = true)); simpl; [by constructor|done].
Qed.

Lemma count_remap (rel : nat -> nat -> Prop) (v v' : list nat) x x' :
  Forall2 rel v v' ->
  (forall a a', rel a a' -> a' = x' <-> a = x) ->
  length (filter (fun i => i = x') v') = length (filter (fun i => i = x) v).
Proof.
  intros Hv Hrel. induction Hv as [|a a' v v' Ha _ IH]; [done|].
  rewrite !filter_cons. specialize (Hrel a a' Ha).
  destruct (decide (a' = x')), (decide (a = x)); simpl; try lia; tauto.
Qed.

Lemma memberships_remap (rel : nat -> nat -> Prop) (g g' : dict (list nat))
    x x' :
  Forall2 (fun kv kv' : string * list nat =>
             kv'.1 = kv.1 /\ Forall2 rel kv.2 kv'.2) g g' ->
  (forall a a', rel a a' -> a' = x' <-> a = x) ->
  memberships x' g' = memberships x g.
Proof.
  intros Hg Hrel. unfold memberships. apply (count_remap rel); [|done].
  apply Forall2_concat. by apply (filter_key_Forall2 is_partition_key).
Qed.

Section Pipeline.

Context {F : Type} `{Arith F}.

#[local] Abbreviation point := (list F).
#[local] Abbreviation array := (list (list F)).
Variable kdtree : KDTree (F := F).
Variable reverse_cuthill_mckee : list (nat * nat) -> list nat.
Variable _check_spacing :
  list (list F) -> option (density (F := F)) -> res (list warning).
Variable orient : Domain (F := F) -> Domain (F := F).

Implicit Types (dom : Domain (F := F)) (o : Options (F := F)).
Implicit Types (st : Store (F := F)) (nodes : list (list F)).

Lemma reorder_total_spec sort_idx st :
  sort_idx ≡ₚ seq 0 (length (st_nodes st)) ->
  length (st_normals st) = length (st_nodes st) ->
  Forall (fun kv : string * list nat =>
            Forall (fun i => i < length (st_nodes st)) kv.2) (st_groups st) ->
  exists st',
    reorder sort_idx st = Ok st' /\
    length (st_nodes st') = length (st_nodes st) /\
    length (st_normals st') = length (st_nodes st) /\
    (forall i j, argsort sort_idx !! i = Some j ->
       st_nodes st' !! j = st_nodes st !! i /\
       st_normals st' !! j = st_normals st !! i) /\
    Forall2 (fun kv kv' : string * list nat =>
               kv'.1 = kv.1 /\
               Forall2 (fun i i' => argsort sort_idx !! i = Some i') kv.2 kv'.2)
            (st_groups st) (st_groups st').
Proof.
  intros Hp Hnl Hg. set (n := length (st_nodes st)) in *.
  pose proof (Permutation_length Hp) as Hlen. rewrite length_seq in Hlen.
  assert (Forall (fun i => i < n) sort_idx) as Hb.
  { apply Forall_forall. intros i Hi. rewrite Hp in Hi.
    apply elem_of_seq in Hi. lia. }
  destruct (take_rows_total (st_nodes st) sort_idx Hb) as [nodes' Hnodes].
  destruct (take_rows_total (st_normals st) sort_idx) as [normals' Hnormals].
  { by rewrite Hnl. }
  destruct (argsort_inverse sort_idx n Hp) as [Halen Hinv].
  destruct (traverse_total
              (fun kv : string * list nat =>
                 v ← take_rows (argsort sort_idx) kv.2; Ok (kv.1, v))
              (st_groups st)) as [groups' Hgroups].
  { eapply Forall_impl; [exact Hg|]. intros [k v] Hv. simpl in *.
    destruct (take_rows_total (argsort sort_idx) v) as [v' Hv'].
    { by rewrite Halen. }
    exists (k, v'). by rewrite Hv'. }
  exists {| st_nodes := nodes'; st_normals := normals'; st_groups := groups' |}.
  split. { unfold reorder. by rewrite Hnodes, Hnormals, Hgroups. }
  simpl. split. { by rewrite (take_rows_length _ _ _ Hnodes). }
  split. { by rewrite (take_rows_length _ _ _ Hnormals). }
  split.
  - intros i j Hj. pose proof (Hinv i j Hj) as Hji.
    destruct (take_rows_lookup _ _ _ _ _ Hnodes Hji) as (x & Hx1 & Hx2).
    destruct (take_rows_lookup _ _ _ _ _ Hnormals Hji) as (y & Hy1 & Hy2).
    split; [exact (eq_trans Hx1 (eq_sym Hx2))|exact (eq_trans Hy1 (eq_sym Hy2))].
  - apply traverse_Ok in Hgroups. eapply Forall2_impl; [exact Hgroups|].
    intros [k v] [k' v'] Hkv. simpl in *.
    apply bind_Ok in Hkv as (v'' & Hv'' & [= <- <-]). split; [done|].
    apply traverse_Ok in Hv''. eapply Forall2_impl; [exact Hv''|].
    intros i i' Hi. by apply get_Ok.
Qed.

(** C2: sorting the store with a permutation of its node indices
    succeeds, keeps the group names and sizes, and sends every index
    [i] of every group to an index [i'] at which the sorted node and
    normal arrays hold the rows that the arrays before sorting held at
    [i]. *)
Theorem sort_preserves_group_members st sort_idx :
  neighbor_argsort kdtree reverse_cuthill_mckee (st_nodes st) None
  = Ok sort_idx ->
  is_permutation (length (st_nodes st)) sort_idx ->
  length (st_normals st) = length (st_nodes st) ->
  Forall (fun kv : string * list nat =>
            Forall (fun i => i < length (st_nodes st)) kv.2) (st_groups st) ->
  exists st',
    sorted_store kdtree reverse_cuthill_mckee st = Ok st' /\
    st_nodes st' = (fun j => default [] (st_nodes st !! j)) <$> sort_idx /\
    st_normals st' = (fun j => default [] (st_normals st !! j)) <$> sort_idx /\
    Forall2 (fun kv kv' : string * list nat =>
               kv'.1 = kv.1 /\
               Forall2 (fun i i' =>
                          i' < length (st_nodes st') /\
                          st_nodes st' !! i' = st_nodes st !! i /\
                          st_normals st' !! i' = st_normals st !! i)
                       kv.2 kv'.2)
            (st_groups st) (st_groups st').
Proof.
  intros Hsort Hp%is_permutation_Permutation Hnl Hg.
  destruct (reorder_total_spec sort_idx st Hp Hnl Hg)
    as (st' & Hst' & Hl1 & Hl2 & Hrows & Hgroups).
  exists st'. split. { unfold sorted_store. by rewrite Hsort. }
  assert (forall (a r : list (list F)), take_rows a sort_idx = Ok r ->
            r = (fun j => default [] (a !! j)) <$> sort_idx) as Htake.
  { intros a r Hr. apply list_eq. intros k. rewrite list_lookup_fmap.
    destruct (sort_idx !! k) as [j|] eqn:Hk; simpl.
    - destruct (take_rows_lookup _ _ _ _ _ Hr Hk) as (x & Hx1 & Hx2).
      etrans; [exact Hx1|]. by rewrite Hx2.
    - apply lookup_ge_None. rewrite (take_rows_length _ _ _ Hr).
      by apply lookup_ge_None. }
  unfold reorder in Hst'.
  apply bind_Ok in Hst' as (nodes' & Hnodes & Hst').
  apply bind_Ok in Hst' as (normals' & Hnormals & Hst').
  apply bind_Ok in Hst' as (groups' & _ & [= <-]). simpl in *.
  split; [by apply Htake|]. split; [by apply Htake|].
  eapply Forall2_impl; [exact Hgroups|].
  intros [k v] [k' v'] [Hk Hv]. split; [done|]. simpl in *.
  eapply Forall2_impl; [exact Hv|]. intros i i' Hi.
  destruct (Hrows i i' Hi) as [Hn1 Hn2]. repeat split; try done.
  destruct (argsort_inverse sort_idx _ Hp) as [_ Hinv].
  apply Hinv, lookup_lt_Some in Hi.
  rewrite (Permutation_length Hp), length_seq in Hi. by rewrite Hl1.
Qed.

(** *** The stages of the pipeline *)

Lemma node_normals_inv dom nodes (smpid : list Z) normals0 :
  node_normals dom nodes smpid = Ok normals0 ->
  length smpid = length nodes /\ length normals0 = length nodes /\
  forall i x j, nodes !! i = Some x -> smpid !! i = Some j ->
    exists n, normals0 !! i = Some n /\
      ((0 <= j)%Z -> normals dom !! Z.to_nat j = Some n) /\
      ((j < 0)%Z -> n = replicate (length x) nan).
Proof.
  unfold node_normals. case_decide as Hlen; [|done]. intros Hn.
  split; [done|]. split.
  { rewrite (traverse_length _ _ _ Hn), length_zip_with. lia. }
  intros i x j Hx Hj.
  destruct (traverse_lookup _ _ _ i (x, j) Hn) as (n & Hni & Hnj).
  { apply lookup_zip_with_Some. by exists x, j. }
  exists n. split; [done|]. unfold node_normal in Hnj. simpl in Hnj.
  case_decide.
  - split; [intros _; by apply get_Ok|lia].
  - split; [lia|]. intros _. by injection Hnj as <-.
Qed.

Lemma base_store_inv dom o nodes (smpid : list Z) st0 :
  base_store dom o nodes smpid = Ok st0 ->
  exists normals0,
    node_normals dom nodes smpid = Ok normals0 /\
    st_nodes st0 = nodes ++ default [] (o_pinned_nodes o) /\
    st_normals st0
    = normals0 ++ full_like_nan (default [] (o_pinned_nodes o)) /\
    st_groups st0
    = ("interior", snapped_to smpid (-1)) ::
      match o_pinned_nodes o with
      | None => []
      | Some pinned => [("pinned", seq (length nodes) (length pinned))]
      end.
Proof.
  unfold base_store. intros Hst.
  apply bind_Ok in Hst as (normals0 & Hn & Hst). exists normals0.
  split; [done|].
  destruct (o_pinned_nodes o) as [pinned|]; injection Hst as <-; simpl.
  - done.
  - by rewrite !app_nil_r.
Qed.

Lemma resolve_boundary_groups_inv nsmp (bgo : option (dict (list Z))) log bg :
  resolve_boundary_groups nsmp bgo = (log, Ok bg) ->
  bg = default [("all", Z.of_nat <$> seq 0 nsmp)] bgo /\
  Forall (fun j => in_range nsmp j = true) (concat bg.*2).
Proof.
  unfold resolve_boundary_groups. destruct bgo as [bg'|].
  - destruct (filter _ (concat bg'.*2)) as [|j extra] eqn:Hextra; [|done].
    intros [= <- <-]. split; [done|]. apply Forall_forall. intros j Hj.
    destruct (in_range nsmp j) eqn:Hr; [done|].
    assert (j ∈ filter (fun j => in_range nsmp j = false) (concat bg'.*2))
      as Hin by by apply list_elem_of_filter.
    rewrite Hextra in Hin. by apply elem_of_nil in Hin.
  - intros [= <- <-]. split; [done|]. simpl. rewrite app_nil_r.
    apply Forall_fmap, Forall_forall. intros i Hi%elem_of_seq. simpl.
    unfold in_range. apply bool_decide_eq_true. lia.
Qed.

Lemma pre_sort_store_inv nodes dom o log st :
  pre_sort_store kdtree nodes dom o = (log, Ok st) ->
  exists nodes0 smpid st0 bg,
    snap_nodes kdtree nodes dom o = Ok (nodes0, smpid) /\
    base_store dom o nodes0 smpid = Ok st0 /\
    resolve_boundary_groups (length (simplices dom)) (o_boundary_groups o)
    = (log, Ok bg) /\
    grouped_store kdtree dom o st0 smpid bg = Ok st.
Proof.
  unfold pre_sort_store. intros Hst.
  destruct (snap_nodes kdtree nodes dom o) as [[nodes0 smpid]|e]; [|done].
  destruct (base_store dom o nodes0 smpid) as [st0|e] eqn:Hbase; [|done].
  destruct (resolve_boundary_groups _ _) as [log' [bg|e]] eqn:Hbg; [|done].
  injection Hst as <- Hst. by exists nodes0, smpid, st0, bg.
Qed.

Lemma prepare_nodes_inv nodes dom o log nodes' groups' normals' :
  prepare_nodes kdtree reverse_cuthill_mckee _check_spacing orient nodes dom o
  = (log, Ok (nodes', groups', normals')) ->
  exists log0 st st' ws,
    pre_sort_store kdtree nodes (oriented orient dom o) o = (log0, Ok st) /\
    sorted_store kdtree reverse_cuthill_mckee st = Ok st' /\
    _check_spacing (st_nodes st') (o_rho o) = Ok ws /\
    log = log0 ++ ws /\
    nodes' = st_nodes st' /\ groups' = st_groups st' /\
    normals' = st_normals st'.
Proof.
  unfold prepare_nodes. intros Hp.
  destruct (pre_sort_store kdtree nodes (oriented orient dom o) o)
    as [log0 [st|e]]; [|done].
  simpl in Hp.
  destruct (sorted_store kdtree reverse_cuthill_mckee st) as [st'|e]
    eqn:Hsort; [|done].
  destruct (_check_spacing (st_nodes st') (o_rho o)) as [ws|e] eqn:Hws;
    [|done].
  injection Hp as <- <- <- <-. by exists log0, st, st', ws.
Qed.

(** *** Ghost nodes *)

Lemma lookup_app_at {A} (l1 l2 : list A) k n :
  n = length l1 -> (l1 ++ l2) !! (n + k) = l2 !! k.
Proof. intros ->. rewrite lookup_app_r by lia. f_equal. lia. Qed.

Lemma take_rows_app {A} (a e : list A) idx r :
  take_rows a idx = Ok r -> take_rows (a ++ e) idx = Ok r.
Proof.
  intros Hr%traverse_Ok. apply traverse_Ok.
  eapply Forall2_impl; [exact Hr|]. intros i x Hx%get_Ok.
  apply get_Ok. by apply lookup_app_l_Some.
Qed.

Lemma ghosts_key_not_partition name :
  is_partition_key ("ghosts:" +:+ name) = false.
Proof. done. Qed.

Lemma ghosts_key_prefix name : String.prefix "ghosts:" ("ghosts:" +:+ name) = true.
Proof. cbv [String.append]. simpl. by destruct name. Qed.

Lemma boundary_key_not_ghosts name :
  String.prefix "ghosts:" ("boundary:" +:+ name) = false.
Proof. done. Qed.

Lemma ghosts_ok_app tree_nodes ghost_delta (nodes normals e e' : array)
    vb vg :
  ghosts_ok kdtree tree_nodes ghost_delta nodes normals vb vg ->
  ghosts_ok kdtree tree_nodes ghost_delta (nodes ++ e) (normals ++ e') vb vg.
Proof.
  intros (xs & dist & idx & Hxs & Hkd & Hlen & Hnd & Hrows).
  exists xs, dist, idx. repeat split; try done; [by apply take_rows_app|].
  intros k b Hb.
  destruct (Hrows k b Hb) as (g & x & n & row & d & ? & ? & ? & ? & ? & ? & ?).
  exists g, x, n, row, d. repeat split; try done; by apply lookup_app_l_Some.
Qed.

Lemma add_ghosts_inv tree_nodes ghost_delta st name st' :
  add_ghosts kdtree tree_nodes ghost_delta st name = Ok st' ->
  exists vb xs dist idx ns ghost_nodes,
    dict_get (st_groups st) ("boundary:" +:+ name) = Some vb /\
    take_rows (st_nodes st) vb = Ok xs /\
    kdtree tree_nodes xs 2%Z = Ok (dist, idx) /\
    take_rows (st_normals st) vb = Ok ns /\
    length ghost_nodes = length vb /\
    (forall k : nat, k < length vb ->
       exists x row d n,
         xs !! k = Some x /\ dist !! k = Some row /\ row !! 1 = Some d /\
         ns !! k = Some n /\
         ghost_nodes !! k = Some (vadd x (scale (mul ghost_delta d) n))) /\
    st_nodes st' = st_nodes st ++ ghost_nodes /\
    st_normals st' = st_normals st ++ full_like_nan ghost_nodes /\
    st_groups st'
    = dict_set (st_groups st) ("ghosts:" +:+ name)
               (seq (length (st_nodes st)) (length vb)).
Proof.
  unfold add_ghosts. intros Hst.
  apply bind_Ok in Hst as (vb & Hvb & Hst).
  apply bind_Ok in Hst as (xs & Hxs & Hst).
  apply bind_Ok in Hst as ([dist idx] & Hkd & Hst).
  apply bind_Ok in Hst as (ns & Hns & Hst).
  apply bind_Ok in Hst as (ghost_nodes & Hg & [= <-]).
  exists vb, xs, dist, idx, ns, ghost_nodes. simpl.
  destruct (dict_get (st_groups st) ("boundary:" +:+ name)) as [vb'|];
    [|done].
  injection Hvb as ->. repeat split; try done.
  - rewrite (traverse_length _ _ _ Hg). by rewrite length_seq.
  - intros k Hk.
    destruct (traverse_lookup _ _ _ k k Hg) as (y & Hy & Hrow).
    { apply lookup_seq. lia. }
    apply bind_Ok in Hrow as (x & Hx%get_Ok & Hrow).
    apply bind_Ok in Hrow as (row & Hd%get_Ok & Hrow).
    apply bind_Ok in Hrow as (n & Hn%get_Ok & Hrow).
    unfold ghost_row in Hrow.
    apply bind_Ok in Hrow as (d & Hd1%get_Ok & [= <-]).
    by exists x, row, d, n.
Qed.

Lemma add_ghosts_new_group tree_nodes ghost_delta st name st' :
  add_ghosts kdtree tree_nodes ghost_delta st name = Ok st' ->
  length (st_normals st) = length (st_nodes st) ->
  ghost_group_ok kdtree tree_nodes ghost_delta st' name.
Proof.
  intros Hst Hnl.
  destruct (add_ghosts_inv _ _ _ _ _ Hst)
    as (vb & xs & dist & idx & ns & gn & Hvb & Hxs & Hkd & Hns & Hlen
        & Hrows & Hn' & Hnl' & Hg').
  exists vb, (seq (length (st_nodes st)) (length vb)). split.
  { rewrite Hg', dict_get_set. rewrite decide_False; [done|].
    cbv [String.append]. by intros [=]. }
  split. { rewrite Hg', dict_get_set. by rewrite decide_True. }
  exists xs, dist, idx. rewrite Hn', Hnl'.
  split; [by apply take_rows_app|]. split; [done|].
  split; [by rewrite length_seq|]. split; [apply NoDup_seq|].
  intros k b Hb. pose proof (lookup_lt_Some _ _ _ Hb) as Hk.
  destruct (Hrows k Hk) as (x & row & d & n & Hx & Hrow & Hd & Hn & Hgk).
  destruct (take_rows_lookup _ _ _ _ _ Hxs Hb) as (x0 & Hx0 & Hxb).
  destruct (take_rows_lookup _ _ _ _ _ Hns Hb) as (n0 & Hn0 & Hnb).
  rewrite (lookup_agree _ _ _ _ Hx0 Hx) in Hxb.
  rewrite (lookup_agree _ _ _ _ Hn0 Hn) in Hnb.
  exists (length (st_nodes st) + k), x, n, row, d.
  repeat split; try done.
  - apply lookup_seq. lia.
  - by apply lookup_app_l_Some.
  - by apply lookup_app_l_Some.
  - etrans; [by apply lookup_app_at|]. done.
  - etrans; [apply lookup_app_at; by symmetry|].
    unfold full_like_nan. by rewrite list_lookup_fmap, Hgk.
Qed.

Lemma add_ghosts_step tree_nodes ghost_delta st name st' :
  add_ghosts kdtree tree_nodes ghost_delta st name = Ok st' ->
  store_ok st ->
  store_ok st' /\
  (exists extra,
     st_nodes st' = st_nodes st ++ extra /\
     st_normals st' = st_normals st ++ full_like_nan extra) /\
  (forall k, String.prefix "ghosts:" k = false ->
     dict_get (st_groups st') k = dict_get (st_groups st) k) /\
  filter (fun kv : string * list nat => is_partition_key kv.1 = true)
         (st_groups st')
  = filter (fun kv : string * list nat => is_partition_key kv.1 = true)
           (st_groups st) /\
  forall name',
    name' = name \/ ghost_group_ok kdtree tree_nodes ghost_delta st name' ->
    ghost_group_ok kdtree tree_nodes ghost_delta st' name'.
Proof.
  intros Hst [Hnl Hg].
  pose proof (add_ghosts_new_group _ _ _ _ _ Hst Hnl) as Hnew.
  destruct (add_ghosts_inv _ _ _ _ _ Hst)
    as (vb & xs & dist & idx & ns & gn & Hvb & Hxs & Hkd & Hns & Hlen
        & Hrows & Hn' & Hnl' & Hg').
  assert (forall k, String.prefix "ghosts:" k = false ->
            dict_get (st_groups st') k = dict_get (st_groups st) k) as Hkeep.
  { intros k Hk. rewrite Hg', dict_get_set. rewrite decide_False; [done|].
    intros ->. by rewrite ghosts_key_prefix in Hk. }
  split; [|split; [|split; [|split]]].
  - split.
    + rewrite Hn', Hnl', !length_app. unfold full_like_nan.
      rewrite length_fmap. lia.
    + rewrite Hg', Hn'. apply Forall_forall. intros [k v] Hkv.
      apply dict_set_elem in Hkv as [[= -> ->]|Hkv]; simpl.
      * apply Forall_forall. intros i Hi%elem_of_seq.
        rewrite length_app. lia.
      * eapply Forall_forall in Hg; [|done]. simpl in Hg.
        eapply Forall_impl; [exact Hg|]. intros i Hi. simpl in Hi.
        rewrite length_app. lia.
  - by exists gn.
  - done.
  - rewrite Hg'. apply dict_set_filter, ghosts_key_not_partition.
  - intros name' [->|(vb' & vg' & Hvb' & Hvg' & Hok)]; [done|].
    destruct (decide (name' = name)) as [->|Hne]; [done|].
    exists vb', vg'. split.
    { rewrite Hkeep; [done|]. apply boundary_key_not_ghosts. }
    split.
    { rewrite Hg', dict_get_set. rewrite decide_False; [done|].
      by intros ?%ghosts_key_inj. }
    rewrite Hn', Hnl'. by apply ghosts_ok_app.
Qed.

Lemma ghost_loop_inv tree_nodes ghost_delta names st st' :
  ghost_loop kdtree tree_nodes ghost_delta st names = Ok st' ->
  store_ok st ->
  store_ok st' /\
  (exists extra,
     st_nodes st' = st_nodes st ++ extra /\
     st_normals st' = st_normals st ++ full_like_nan extra) /\
  (forall k, String.prefix "ghosts:" k = false ->
     dict_get (st_groups st') k = dict_get (st_groups st) k) /\
  filter (fun kv : string * list nat => is_partition_key kv.1 = true)
         (st_groups st')
  = filter (fun kv : string * list nat => is_partition_key kv.1 = true)
           (st_groups st) /\
  forall name,
    name ∈ names \/ ghost_group_ok kdtree tree_nodes ghost_delta st name ->
    ghost_group_ok kdtree tree_nodes ghost_delta st' name.
Proof.
  revert st. induction names as [|name names IH]; intros st Hst Hok.
  { injection Hst as <-. repeat split; try apply Hok; try done.
    - exists []. unfold full_like_nan. simpl. by rewrite !app_nil_r.
    - by intros name [?%elem_of_nil|?]. }
  simpl in Hst. apply bind_Ok in Hst as (st1 & Hst1 & Hst).
  destruct (add_ghosts_step _ _ _ _ _ Hst1 Hok)
    as (Hok1 & (e1 & Hn1 & Hnl1) & Hk1 & Hf1 & Hg1).
  destruct (IH st1 Hst Hok1) as (Hok' & (e2 & Hn2 & Hnl2) & Hk2 & Hf2 & Hg2).
  split; [done|]. split; [|split; [|split]].
  - exists (e1 ++ e2). rewrite Hn2, Hn1, Hnl2, Hnl1. unfold full_like_nan.
    by rewrite fmap_app, !app_assoc.
  - intros k Hk. by rewrite Hk2, Hk1.
  - by rewrite Hf2, Hf1.
  - intros name' [[->|Hin]%elem_of_cons|Hgh]; apply Hg2.
    + right. apply Hg1. by left.
    + by left.
    + right. apply Hg1. by right.
Qed.

Lemma grouped_store_inv dom o nodes0 (smpid : list Z) st0
    (bg : dict (list Z)) st :
  snap_ok (length (simplices dom)) nodes0 smpid ->
  base_store dom o nodes0 smpid = Ok st0 ->
  Forall (fun j => in_range (length (simplices dom)) j = true)
         (concat bg.*2) ->
  grouped_store kdtree dom o st0 smpid bg = Ok st ->
  let st1 := {| st_nodes := st_nodes st0; st_normals := st_normals st0;
                st_groups := boundary_dict smpid (st_groups st0) bg |} in
  store_ok st1 /\
  ghost_loop kdtree (st_nodes st0) (o_ghost_delta o) st1
             (default [] (o_boundary_groups_with_ghosts o)) = Ok st.
Proof.
  intros [Hlen Hsnap] Hbase Hbg Hst. simpl.
  destruct (base_store_inv _ _ _ _ _ Hbase) as (normals0 & Hn0 & Hn & Hnl & Hg).
  destruct (node_normals_inv _ _ _ _ Hn0) as (_ & Hl0 & _).
  unfold grouped_store in Hst.
  destruct (smp_to_nodes_spec _ _ Hsnap) as (s2n & Hs2n & Hls & Hrows).
  rewrite Hs2n in Hst. simpl in Hst.
  rewrite (group_boundary_spec (length (simplices dom)) smpid) in Hst by done.
  simpl in Hst. split; [|done]. split; simpl.
  - rewrite Hn, Hnl, !length_app. unfold full_like_nan.
    rewrite length_fmap. lia.
  - apply Forall_forall. intros [k v] Hkv. simpl.
    assert (forall i j, smpid !! i = Some j -> i < length (st_nodes st0))
      as Hb.
    { intros i j Hi%lookup_lt_Some. rewrite Hn, length_app. lia. }
    apply boundary_dict_elem in Hkv
      as [Hkv|(name & smp & _ & -> & ->)].
    + rewrite Hg in Hkv. apply elem_of_cons in Hkv as [[= -> ->]|Hkv].
      * apply Forall_forall. intros i Hi%snapped_to_spec. by eapply Hb.
      * destruct (o_pinned_nodes o) as [pinned|];
          [|by apply elem_of_nil in Hkv].
        apply list_elem_of_singleton in Hkv as [= -> ->].
        apply Forall_forall. intros i Hi%elem_of_seq.
        rewrite Hn, length_app. simpl. lia.
    + apply Forall_forall. intros i (j & _ & Hi)%group_nodes_elem.
      by eapply Hb.
Qed.

(** The store before sorting, from a snapping result in contract. *)
Lemma pre_sort_store_spec nodes dom o log st :
  pre_sort_store kdtree nodes dom o = (log, Ok st) ->
  (forall nodes0 smpid,
     snap_nodes kdtree nodes dom o = Ok (nodes0, smpid) ->
     snap_ok (length (simplices dom)) nodes0 smpid) ->
  exists nodes0 smpid normals0 bg st0 extra,
    snap_nodes kdtree nodes dom o = Ok (nodes0, smpid) /\
    snap_ok (length (simplices dom)) nodes0 smpid /\
    node_normals dom nodes0 smpid = Ok normals0 /\
    base_store dom o nodes0 smpid = Ok st0 /\
    resolve_boundary_groups (length (simplices dom)) (o_boundary_groups o)
    = (log, Ok bg) /\
    st_nodes st = st_nodes st0 ++ extra /\
    st_normals st = st_normals st0 ++ full_like_nan extra /\
    store_ok st /\
    (forall k, String.prefix "ghosts:" k = false ->
       dict_get (st_groups st) k
       = dict_get (boundary_dict smpid (st_groups st0) bg) k) /\
    filter (fun kv : string * list nat => is_partition_key kv.1 = true)
           (st_groups st)
    = filter (fun kv : string * list nat => is_partition_key kv.1 = true)
             (boundary_dict smpid (st_groups st0) bg) /\
    forall name,
      name ∈ default [] (o_boundary_groups_with_ghosts o) ->
      ghost_group_ok kdtree (st_nodes st0) (o_ghost_delta o) st name.
Proof.
  intros Hst Hsnap.
  destruct (pre_sort_store_inv _ _ _ _ _ Hst)
    as (nodes0 & smpid & st0 & bg & Hsn & Hbase & Hres & Hgr).
  pose proof (Hsnap _ _ Hsn) as Hok.
  destruct (base_store_inv _ _ _ _ _ Hbase) as (normals0 & Hn0 & _).
  destruct (resolve_boundary_groups_inv _ _ _ _ Hres) as [_ Hrange].
  destruct (grouped_store_inv _ _ _ _ _ _ _ Hok Hbase Hrange Hgr)
    as [Hok1 Hloop].
  destruct (ghost_loop_inv _ _ _ _ _ Hloop Hok1)
    as (Hok' & (extra & Hn & Hnl) & Hkeep & Hfilter & Hgh).
  exists nodes0, smpid, normals0, bg, st0, extra. simpl in *.
  repeat split; try done; try apply Hok'; try apply Hok.
  intros name Hname. apply Hgh. by left.
Qed.

(** The sorted store, from a reordering in contract. *)
Lemma prepare_nodes_sorted nodes dom o log nodes' groups' normals' :
  prepare_nodes kdtree reverse_cuthill_mckee _check_spacing orient nodes dom o
  = (log, Ok (nodes', groups', normals')) ->
  collaborators_ok kdtree reverse_cuthill_mckee nodes (oriented orient dom o) o ->
  exists log0 ws st sort_idx,
    pre_sort_store kdtree nodes (oriented orient dom o) o = (log0, Ok st) /\
    log = log0 ++ ws /\
    sort_permutation kdtree reverse_cuthill_mckee nodes
                     (oriented orient dom o) o = Ok sort_idx /\
    sort_idx ≡ₚ seq 0 (length (st_nodes st)) /\
    length nodes' = length (st_nodes st) /\
    length normals' = length (st_nodes st) /\
    (forall i j, argsort sort_idx !! i = Some j ->
       nodes' !! j = st_nodes st !! i /\ normals' !! j = st_normals st !! i) /\
    Forall2 (fun kv kv' : string * list nat =>
               kv'.1 = kv.1 /\
               Forall2 (fun i i' => argsort sort_idx !! i = Some i') kv.2 kv'.2)
            (st_groups st) groups'.
Proof.
  intros Hp [Hsnap Hperm].
  destruct (prepare_nodes_inv _ _ _ _ _ _ _ Hp)
    as (log0 & st & st' & ws & Hpre & Hsort & _ & -> & -> & -> & ->).
  unfold sorted_store in Hsort.
  apply bind_Ok in Hsort as (sort_idx & Hidx & Hre).
  pose proof (Hperm _ _ _ Hpre Hidx) as Hp'%is_permutation_Permutation.
  destruct (pre_sort_store_spec _ _ _ _ _ Hpre Hsnap)
    as (nodes0 & smpid & normals0 & bg & st0 & extra
        & _ & _ & _ & _ & _ & _ & _ & [Hnl Hg] & _).
  destruct (reorder_total_spec sort_idx st Hp' Hnl Hg)
    as (st'' & Hst'' & Hl1 & Hl2 & Hrows & Hgroups).
  rewrite Hre in Hst''. injection Hst'' as <-.
  exists log0, ws, st, sort_idx. repeat split; try done.
  - unfold sort_permutation. by rewrite Hpre.
  - by apply Hrows.
  - by apply Hrows.
Qed.

(** *** The prepared nodes *)

Lemma base_groups_get dom o nodes0 (smpid : list Z) st0 k v :
  base_store dom o nodes0 smpid = Ok st0 ->
  dict_get (st_groups st0) k = Some v ->
  (k = "interior" /\ v = snapped_to smpid (-1)) \/
  (k = "pinned" /\ exists pinned, o_pinned_nodes o = Some pinned /\
                                   v = seq (length nodes0) (length pinned)).
Proof.
  intros (normals0 & _ & _ & _ & Hg)%base_store_inv. rewrite Hg.
  intros [[= <- <-]|Hin]%dict_get_elem%elem_of_cons; [by left|].
  destruct (o_pinned_nodes o) as [pinned|]; [|by apply elem_of_nil in Hin].
  apply list_elem_of_singleton in Hin as [= -> ->]. right.
  split; [done|]. by exists pinned.
Qed.

(** C7: the returned normals have one row per returned node; a node
    snapped to a simplex has the normal of that simplex as its row; the
    nodes of the groups 'interior' and 'pinned' have NaN in every
    coordinate of their row. *)
Theorem prepared_normals nodes dom o log nodes' groups' normals' :
  prepare_nodes kdtree reverse_cuthill_mckee _check_spacing orient nodes dom o
  = (log, Ok (nodes', groups', normals')) ->
  collaborators_ok kdtree reverse_cuthill_mckee nodes (oriented orient dom o) o ->
  length normals' = length nodes' /\
  (exists nodes0 smpid sort_idx,
     snap_nodes kdtree nodes (oriented orient dom o) o = Ok (nodes0, smpid) /\
     sort_permutation kdtree reverse_cuthill_mckee nodes
                      (oriented orient dom o) o = Ok sort_idx /\
     forall i x j, nodes0 !! i = Some x -> smpid !! i = Some j ->
       exists i' n,
         sort_idx !! i' = Some i /\ nodes' !! i' = Some x /\
         normals' !! i' = Some n /\
         ((0 <= j)%Z ->
          normals (oriented orient dom o) !! Z.to_nat j = Some n) /\
         (j = (-1)%Z -> n = replicate (length x) nan)) /\
  (forall k v i',
     k = "interior" \/ k = "pinned" ->
     dict_get groups' k = Some v -> i' ∈ v ->
     exists x, nodes' !! i' = Some x /\
               normals' !! i' = Some (replicate (length x) nan)).
Proof.
  intros Hp Hc.
  destruct (prepare_nodes_sorted _ _ _ _ _ _ _ Hp Hc)
    as (log0 & ws & st & sort_idx & Hpre & _ & Hsp & Hperm & Hl1 & Hl2
        & Hrows & Hgroups).
  destruct (pre_sort_store_spec _ _ _ _ _ Hpre (proj1 Hc))
    as (nodes0 & smpid & normals0 & bg & st0 & extra & Hsn & [Hls _] & Hnn
        & Hbase & _ & Hn & Hnl & _ & Hkeep & _).
  destruct (base_store_inv _ _ _ _ _ Hbase) as (nm0 & Hnn' & Hn0 & Hnl0 & Hg0).
  rewrite Hnn in Hnn'. injection Hnn' as <-.
  destruct (node_normals_inv _ _ _ _ Hnn) as (_ & Hln & Hnrm).
  destruct (argsort_inverse sort_idx _ Hperm) as [Halen Hinv].
  split; [congruence|]. split.
  - exists nodes0, smpid, sort_idx. repeat split; try done.
    intros i x j Hx Hj.
    destruct (Hnrm i x j Hx Hj) as (n & Hn1 & Hpos & Hneg).
    destruct (argsort_total sort_idx _ i Hperm) as (i' & Hi' & Hsi).
    { apply lookup_lt_Some in Hx. rewrite Hn, Hn0, !length_app. lia. }
    destruct (Hrows i i' Hi') as [Hr1 Hr2].
    exists i', n. repeat split; try done.
    + rewrite Hr1, Hn, Hn0. by do 2 apply lookup_app_l_Some.
    + rewrite Hr2, Hnl, Hnl0. by do 2 apply lookup_app_l_Some.
    + intros ->. by apply Hneg.
  - intros k v' i' Hk Hv' Hi'.
    pose proof (dict_get_Forall2 _ _ _ k Hgroups) as Hget.
    rewrite Hv' in Hget.
    destruct (dict_get (st_groups st) k) as [v|] eqn:Hv; [|done].
    apply list_elem_of_lookup_1 in Hi' as [t Ht].
    destruct (Forall2_lookup_r _ _ _ _ _ Hget Ht) as (i & Hi & Hrel).
    destruct (Hrows i i' Hrel) as [Hr1 Hr2]. rewrite Hr1, Hr2.
    rewrite Hkeep in Hv by (by destruct Hk as [-> | ->]).
    rewrite boundary_dict_get_other in Hv by (by destruct Hk as [-> | ->]).
    apply list_elem_of_lookup_2 in Hi.
    destruct (base_groups_get _ _ _ _ _ _ _ Hbase Hv)
      as [[_ ->]|(_ & pinned & Hpin & ->)].
    + apply snapped_to_spec in Hi.
      destruct (lookup_lt_is_Some_2 nodes0 i) as [x Hx].
      { rewrite <- Hls. by eapply lookup_lt_Some. }
      destruct (Hnrm i x _ Hx Hi) as (n & Hn1 & _ & Hneg).
      exists x. rewrite Hn, Hn0, Hnl, Hnl0. split.
      * by do 2 apply lookup_app_l_Some.
      * rewrite <- Hneg by lia. by do 2 apply lookup_app_l_Some.
    + apply elem_of_seq in Hi. rewrite Hpin in Hn0, Hnl0. simpl in *.
      destruct (lookup_lt_is_Some_2 pinned (i - length nodes0)) as [x Hx];
        [lia|].
      exists x. rewrite Hn, Hn0, Hnl, Hnl0.
      replace i with (length nodes0 + (i - length nodes0)) by lia. split.
      * apply lookup_app_l_Some.
        etrans; [by apply lookup_app_at|]. done.
      * apply lookup_app_l_Some.
        etrans; [by apply lookup_app_at|].
        unfold full_like_nan. by rewrite list_lookup_fmap, Hx.
Qed.

(** C3: in the returned groups, 'interior' shares no index with any
    'boundary:' group; every index of every group is an index of the
    returned node array; and when the boundary groups claim every
    simplex exactly once, every returned node that comes from the
    snapped sample (the dispersed nodes and the included vertices)
    occurs exactly once in 'interior' and the 'boundary:' groups taken
    together. *)
Theorem prepared_groups_partition nodes dom o log nodes' groups' normals' :
  prepare_nodes kdtree reverse_cuthill_mckee _check_spacing orient nodes dom o
  = (log, Ok (nodes', groups', normals')) ->
  collaborators_ok kdtree reverse_cuthill_mckee nodes (oriented orient dom o) o ->
  (forall name vi vb i',
     dict_get groups' "interior" = Some vi ->
     dict_get groups' ("boundary:" +:+ name) = Some vb ->
     i' ∈ vi -> i' ∉ vb) /\
  Forall (fun kv : string * list nat =>
            Forall (fun i' => i' < length nodes') kv.2) groups' /\
  exists nodes0 smpid sort_idx,
    snap_nodes kdtree nodes (oriented orient dom o) o = Ok (nodes0, smpid) /\
    sort_permutation kdtree reverse_cuthill_mckee nodes
                     (oriented orient dom o) o = Ok sort_idx /\
    (exact_partition (length (simplices (oriented orient dom o)))
                     (o_boundary_groups o) ->
     forall i' i, sort_idx !! i' = Some i -> i < length nodes0 ->
       memberships i' groups' = 1).
Proof.
  intros Hp Hc.
  destruct (prepare_nodes_sorted _ _ _ _ _ _ _ Hp Hc)
    as (log0 & ws & st & sort_idx & Hpre & _ & Hsp & Hperm & Hl1 & Hl2
        & Hrows & Hgroups).
  destruct (pre_sort_store_spec _ _ _ _ _ Hpre (proj1 Hc))
    as (nodes0 & smpid & normals0 & bg & st0 & extra & Hsn & [Hls Hsmp] & Hnn
        & Hbase & Hres & Hn & Hnl & _ & Hkeep & Hfilter & _).
  destruct (base_store_inv _ _ _ _ _ Hbase) as (nm0 & _ & Hn0 & _ & Hg0).
  destruct (resolve_boundary_groups_inv _ _ _ _ Hres) as [Hbg Hrange].
  destruct (argsort_inverse sort_idx _ Hperm) as [Halen Hinv].
  pose proof (argsort_NoDup sort_idx _ Hperm) as Hnd.
  pose proof (Permutation_length Hperm) as Hlen. rewrite length_seq in Hlen.
  assert (forall (v v' : list nat) i',
            Forall2 (fun i i' => argsort sort_idx !! i = Some i') v v' ->
            i' ∈ v' -> exists i, i ∈ v /\ argsort sort_idx !! i = Some i')
    as Hpre_image.
  { intros v v' i' Hv [t Ht]%list_elem_of_lookup_1.
    destruct (Forall2_lookup_r _ _ _ _ _ Hv Ht) as (i & Hi & Hrel).
    exists i. split; [by eapply list_elem_of_lookup_2|done]. }
  split; [|split].
  - intros name vi' vb' i' Hvi' Hvb' Hi1 Hi2.
    pose proof (dict_get_Forall2 _ _ _ "interior" Hgroups) as Hgi.
    pose proof (dict_get_Forall2 _ _ _ ("boundary:" +:+ name) Hgroups) as Hgb.
    rewrite Hvi' in Hgi. rewrite Hvb' in Hgb.
    destruct (dict_get (st_groups st) "interior") as [vi|] eqn:Hvi; [|done].
    destruct (dict_get (st_groups st) ("boundary:" +:+ name)) as [vb|] eqn:Hvb;
      [|done].
    destruct (Hpre_image _ _ _ Hgi Hi1) as (i1 & Hi1' & Hr1).
    destruct (Hpre_image _ _ _ Hgb Hi2) as (i2 & Hi2' & Hr2).
    assert (i1 = i2) as <-.
    { by eapply (proj1 (NoDup_alt (argsort sort_idx)) Hnd). }
    rewrite Hkeep in Hvi by done.
    rewrite boundary_dict_get_other in Hvi by done.
    rewrite Hg0 in Hvi. simpl in Hvi. injection Hvi as <-.
    apply snapped_to_spec in Hi1'.
    rewrite Hkeep in Hvb by apply boundary_key_not_ghosts.
    apply dict_get_elem, boundary_dict_elem in Hvb
      as [Hvb|(name' & smp & Hsmp' & _ & ->)].
    + rewrite Hg0 in Hvb. apply elem_of_cons in Hvb as [[=]|Hvb].
      destruct (o_pinned_nodes o); [|by apply elem_of_nil in Hvb].
      by apply list_elem_of_singleton in Hvb as [=].
    + apply group_nodes_elem in Hi2' as (j & Hj & Hi2').
      rewrite Hi1' in Hi2'. injection Hi2' as <-.
      assert ((-1)%Z ∈ concat bg.*2) as Hin.
      { apply elem_of_concat. exists smp. split; [done|].
        apply list_elem_of_fmap. by exists (name', smp). }
      eapply Forall_forall in Hrange; [|exact Hin].
      unfold in_range in Hrange. apply bool_decide_eq_true in Hrange. lia.
  - eapply Forall_forall. intros [k v'] [t Ht]%list_elem_of_lookup_1.
    destruct (Forall2_lookup_r _ _ _ _ _ Hgroups Ht) as ([k0 v] & _ & _ & Hv).
    simpl in *. apply Forall_forall. intros i' Hi'.
    destruct (Hpre_image _ _ _ Hv Hi') as (i & _ & Hrel).
    apply Hinv, lookup_lt_Some in Hrel. lia.
  - exists nodes0, smpid, sort_idx. repeat split; try done.
    intros Hex i' i Hi' Hi.
    destruct (argsort_total sort_idx _ i Hperm) as (i'' & Hrel & Hsi).
    { rewrite Hn, Hn0, !length_app. lia. }
    assert (i'' = i') as ->.
    { assert (NoDup sort_idx) as Hnds by (rewrite Hperm; apply NoDup_seq).
      by eapply (proj1 (NoDup_alt sort_idx) Hnds). }
    destruct (lookup_lt_is_Some_2 smpid i) as [j Hj]; [by rewrite Hls|].
    rewrite (memberships_remap
               (fun i i' => argsort sort_idx !! i = Some i')
               (st_groups st) groups' i i' Hgroups).
    2:{ intros a a' Ha. split.
        - intros ->. by eapply (proj1 (NoDup_alt (argsort sort_idx)) Hnd).
        - intros ->. congruence. }
    unfold memberships. rewrite Hfilter.
    change (memberships i (boundary_dict smpid (st_groups st0) bg) = 1).
    rewrite Hg0.
    assert (forall k,
              k ∈ (match o_pinned_nodes o with
                   | Some pinned =>
                       [("pinned", seq (length nodes0) (length pinned))]
                   | None => []
                   end).*1 -> k = "pinned") as Hpin.
    { intros k. destruct (o_pinned_nodes o); simpl.
      - by intros ->%list_elem_of_singleton.
      - by intros ?%elem_of_nil. }
    assert (occurrences (-1) (concat bg.*2) = 0) as Hneg.
    { apply occurrences_not_in. intros Hin.
      eapply Forall_forall in Hrange; [|exact Hin].
      unfold in_range in Hrange. apply bool_decide_eq_true in Hrange. lia. }
    assert (NoDup bg.*1 /\
            forall s, s < length (simplices (oriented orient dom o)) ->
                      occurrences (Z.of_nat s) (concat bg.*2) = 1)
      as [Hndb Hone].
    { unfold exact_partition in Hex. rewrite Hbg.
      destruct (o_boundary_groups o) as [bg'|]; simpl; [done|].
      split; [apply NoDup_singleton|]. intros s Hs.
      rewrite app_nil_r, occurrences_seq. rewrite decide_True; [done|lia]. }
    rewrite (memberships_boundary_dict smpid _ bg i j Hndb Hpin Hj).
    change ((-1)%Z :: concat bg.*2) with ([(-1)%Z] ++ concat bg.*2).
    rewrite occurrences_app.
    eapply Forall_forall in Hsmp; [|by eapply list_elem_of_lookup_2].
    destruct Hsmp as [->|Hj'].
    + by rewrite Hneg.
    + rewrite <- (Z2Nat.id j) by lia. rewrite Hone by lia.
      rewrite occurrences_not_in; [done|].
      intros ?%list_elem_of_singleton. lia.
Qed.



(** *** Validation of the boundary groups *)

Lemma resolve_boundary_groups_log nsmp (bg : dict (list Z)) s c :
  SimplexSpecified s c ∈ (resolve_boundary_groups nsmp (Some bg)).1 <->
  s < nsmp /\ c = simplex_count bg (Z.of_nat s) /\ c <> 1.
Proof.
  unfold resolve_boundary_groups. simpl. rewrite list_elem_of_omap. split.
  - intros (idx & Hidx%elem_of_seq & Hw). case_decide; [done|].
    injection Hw as <- <-. repeat split; [lia|done].
  - intros (Hs & -> & Hc). exists s. split; [apply elem_of_seq; lia|].
    by rewrite decide_False.
Qed.

Lemma resolve_boundary_groups_result nsmp (bg : dict (list Z)) :
  (resolve_boundary_groups nsmp (Some bg)).2
  = if decide (Forall (fun j => (0 <= j < Z.of_nat nsmp)%Z) (concat bg.*2))
    then Ok bg else Raise ValueError.
Proof.
  unfold resolve_boundary_groups. simpl.
  destruct (filter _ (concat bg.*2)) as [|j extra] eqn:Hextra.
  - rewrite decide_True; [done|]. apply Forall_forall. intros j Hj.
    destruct (in_range nsmp j) eqn:Hr.
    + unfold in_range in Hr. by apply bool_decide_eq_true in Hr.
    + assert (j ∈ filter (fun j => in_range nsmp j = false) (concat bg.*2))
        as Hin by by apply list_elem_of_filter.
      rewrite Hextra in Hin. by apply elem_of_nil in Hin.
  - rewrite decide_False; [done|]. intros Hall.
    assert (j ∈ filter (fun j => in_range nsmp j = false) (concat bg.*2))
      as [Hr Hj]%list_elem_of_filter.
    { rewrite Hextra. apply list_elem_of_here. }
    eapply Forall_forall in Hall; [|exact Hj].
    unfold in_range in Hr. apply bool_decide_eq_false in Hr. done.
Qed.

Lemma grouped_store_ghost_loop dom o (smpid : list Z) st0
    (bg : dict (list Z)) :
  Forall (fun j => j = (-1)%Z \/ (0 <= j < Z.of_nat (length (simplices dom)))%Z)
         smpid ->
  Forall (fun j => in_range (length (simplices dom)) j = true)
         (concat bg.*2) ->
  grouped_store kdtree dom o st0 smpid bg
  = ghost_loop kdtree (st_nodes st0) (o_ghost_delta o)
      {| st_nodes := st_nodes st0; st_normals := st_normals st0;
         st_groups := boundary_dict smpid (st_groups st0) bg |}
      (default [] (o_boundary_groups_with_ghosts o)).
Proof.
  intros Hsmp Hbg. unfold grouped_store.
  destruct (smp_to_nodes_spec _ _ Hsmp) as (s2n & -> & Hlen & Hs2n). simpl.
  by rewrite (group_boundary_spec _ smpid s2n bg (st_groups st0) Hlen Hs2n Hbg).
Qed.

(** C6: with caller-supplied boundary groups, once the nodes are
    snapped and the base groups built, [prepare_nodes] logs one warning
    for each simplex that the groups do not claim exactly once, with
    the number of times it is claimed. It raises [ValueError] if some
    group names a simplex index outside [0, number of simplices). If
    all indices are valid the validation raises nothing and the groups
    are entered as given, each 'boundary:' group with the nodes snapped
    to its simplices: the call returns what the ghost nodes, the
    sorting and the spacing check make of that store. *)
Theorem boundary_groups_validated nodes dom o (bg : dict (list Z))
    nodes0 smpid st0 :
  o_boundary_groups o = Some bg ->
  snap_nodes kdtree nodes (oriented orient dom o) o = Ok (nodes0, smpid) ->
  snap_ok (length (simplices (oriented orient dom o))) nodes0 smpid ->
  base_store (oriented orient dom o) o nodes0 smpid = Ok st0 ->
  let nsmp := length (simplices (oriented orient dom o)) in
  let out := prepare_nodes kdtree reverse_cuthill_mckee _check_spacing orient
                           nodes dom o in
  (forall s c, SimplexSpecified s c ∈ (resolve_boundary_groups nsmp (Some bg)).1
     <-> s < nsmp /\ c = simplex_count bg (Z.of_nat s) /\ c <> 1) /\
  ((exists j, j ∈ concat bg.*2 /\ ~ (0 <= j < Z.of_nat nsmp)%Z) ->
   out = ((resolve_boundary_groups nsmp (Some bg)).1, Raise ValueError)) /\
  ((forall j, j ∈ concat bg.*2 -> (0 <= j < Z.of_nat nsmp)%Z) ->
   forall st st' ws,
     ghost_loop kdtree (st_nodes st0) (o_ghost_delta o)
       {| st_nodes := st_nodes st0; st_normals := st_normals st0;
          st_groups := boundary_dict smpid (st_groups st0) bg |}
       (default [] (o_boundary_groups_with_ghosts o)) = Ok st ->
     sorted_store kdtree reverse_cuthill_mckee st = Ok st' ->
     _check_spacing (st_nodes st') (o_rho o) = Ok ws ->
     out = ((resolve_boundary_groups nsmp (Some bg)).1 ++ ws,
            Ok (st_nodes st', st_groups st', st_normals st'))).
Proof.
  intros Hbg Hsn [_ Hsmp] Hbase nsmp out.
  split; [apply resolve_boundary_groups_log|].
  assert (pre_sort_store kdtree nodes (oriented orient dom o) o
          = ((resolve_boundary_groups nsmp (Some bg)).1,
             bg' ← (resolve_boundary_groups nsmp (Some bg)).2;
             grouped_store kdtree (oriented orient dom o) o st0 smpid bg'))
    as Hpre.
  { unfold pre_sort_store. rewrite Hsn, Hbase, Hbg. fold nsmp.
    by destruct (resolve_boundary_groups nsmp (Some bg)). }
  subst out. unfold prepare_nodes. rewrite Hpre.
  rewrite resolve_boundary_groups_result. split.
  - intros (j & Hj & Hout). rewrite decide_False; [done|].
    intros Hall. eapply Forall_forall in Hall; [|exact Hj]. done.
  - intros Hall st st' ws Hst Hst' Hws.
    rewrite decide_True by by apply Forall_forall.
    simpl. rewrite grouped_store_ghost_loop; [|exact Hsmp|].
    + rewrite Hst. simpl. by rewrite Hst', Hws.
    + apply Forall_forall. intros j Hj. unfold in_range.
      apply bool_decide_eq_true. by apply Hall.
Qed.

End Pipeline.

(** ** The model run on the unit square *)

Local Open Scope float_scope.

Lemma float_zero_arith : zero_arith (fun a : float => a = 0).
Proof.
  repeat split; try reflexivity; by intros a ->.
Qed.

Lemma sample_collaborators_ok :
  collaborators_ok kdtree reversal sample
                   (oriented oriented_already square options) options.
Proof.
  split.
  - intros nodes0 smpid Hsnap. vm_compute in Hsnap.
    injection Hsnap as <- <-. split; [reflexivity|].
    repeat constructor; lia.
  - intros log st sort_idx Hpre Hsort. vm_compute in Hpre.
    injection Hpre as <- <-. vm_compute in Hsort. injection Hsort as <-.
    repeat split.
    + apply (bool_decide_unpack _). by vm_compute.
    + apply (bool_decide_unpack _). by vm_compute.
Qed.



(** C9 on the unit square with the ring as fixed nodes. *)
Lemma disperse_empty_noop_witness :
  assert_shape ring (dim square) = Ok tt /\
  disperse kdtree [] square 3 None (Some ring) None 0.5 = Ok [].
Proof.
  split; [reflexivity|].
  apply (disperse_empty_noop kdtree square 3 None (Some ring) None 0.5).
  - reflexivity.
  - right. left. reflexivity.
Defined.

Lemma two_nodes_crossing_ok :
  Forall2 (crossing_ok square) two_nodes two_nodes_proposed.
Proof.
  repeat constructor; intros _.
  - exists [0; 0.5], 3%nat, [-1; 0]. split; vm_compute; reflexivity.
  - exists [1; 0.5], 1%nat, [1; 0]. split; vm_compute; reflexivity.
Qed.

(** C1, as the code has it, on the two nodes sent across the left and
    the right edge. *)
Lemma bounce_reflects_proposed_position_witness :
  Forall2 (crossing_ok square) two_nodes two_nodes_proposed /\
  exists b,
    bounce_crossed square two_nodes two_nodes_proposed
                   (crossing square two_nodes two_nodes_proposed) = Ok b /\
    length b = length two_nodes_proposed /\
    forall i x x', two_nodes !! i = Some x ->
                   two_nodes_proposed !! i = Some x' ->
      (intersection_count1 square x x' = 0%nat -> b !! i = Some x') /\
      (intersection_count1 square x x' <> 0%nat ->
       exists p s n,
         intersection_point1 square x x' = Ok (p, s) /\
         normals square !! s = Some n /\
         b !! i = Some (vsub x' ((fun c => mul (mul two c)
                                              (dot (vsub x' p) n)) <$> n))).
Proof.
  split; [exact two_nodes_crossing_ok|].
  apply (bounce_reflects_proposed_position square two_nodes two_nodes_proposed).
  exact two_nodes_crossing_ok.
Defined.

(** C1, as the specification words it, fails on the second of the two
    nodes: the step proposes (1.4375, 0.5), the move crosses the right
    edge at (1, 0.5), and the bounce writes back (0.5625, 0.5), the
    proposed position reflected, where the formula of the specification
    gives (0.125, 0.5). *)
Lemma bounce_not_from_intersection_point :
  _disperse_step kdtree two_nodes default_rho [] 1 1.5
  = Ok two_nodes_proposed /\
  exists x x' p s n y b,
    two_nodes !! 1%nat = Some x /\
    two_nodes_proposed !! 1%nat = Some x' /\
    intersection_count1 square x x' <> 0%nat /\
    intersection_point1 square x x' = Ok (p, s) /\
    normals square !! s = Some n /\
    bounce_crossed square two_nodes two_nodes_proposed
                   (crossing square two_nodes two_nodes_proposed) = Ok b /\
    b !! 1%nat = Some y /\
    bounce square two_nodes two_nodes_proposed
    = Ok [[0.0625; 0.5]; y] /\
    disperse kdtree two_nodes square 1 None None None 1.5
    = Ok [[0.0625; 0.5]; y] /\
    y = [0.5625; 0.5] /\
    spec_bounce_row x' p n = [0.125; 0.5] /\
    y <> spec_bounce_row x' p n.
Proof.
  split; [vm_compute; reflexivity|].
  exists [0.875; 0.5], [1.4375; 0.5], [1; 0.5], 1%nat, [1; 0], [0.5625; 0.5],
         [[0.0625; 0.5]; [0.5625; 0.5]].
  repeat split; try (vm_compute; reflexivity).
  - vm_compute. discriminate.
  - intros Heq. vm_compute in Heq.
    apply (f_equal (fun v => match v with
                             | a :: _ => PrimFloat.ltb a 0.25
                             | [] => false
                             end)) in Heq.
    vm_compute in Heq. discriminate.
Qed.

(** C5 on a node near the corner of the square that a fixed node
    pushes across the top edge: the bounce sends it across the right
    edge, and the iteration leaves it where it was. *)
Lemma disperse_no_boundary_crossing_witness :
  _disperse_step kdtree corner default_rho pusher 1 3
  = Ok [[1.0625; 1.4375]] /\
  (exists p s n,
     intersection_point1 square [0.875; 0.875] [1.0625; 1.4375] = Ok (p, s) /\
     normals square !! s = Some n /\
     vsub [1.0625; 1.4375]
          ((fun c => mul (mul two c) (dot (vsub [1.0625; 1.4375] p) n)) <$> n)
     = [1.0625; 0.5625] /\
     intersection_count1 square [0.875; 0.875] [1.0625; 0.5625] = 1%nat) /\
  disperse kdtree corner square 1 None (Some pusher) None 3 = Ok corner /\
  exists (nb : Z) (tr : list (list (list float))),
    clamp_neighbors (dim square) None (length corner)
                    (length (default [] (Some pusher))) = Ok nb /\
    length tr = 2%nat /\ tr !! 0%nat = Some corner /\
    tr !! 1%nat = Some corner /\
    forall t a b, tr !! t = Some a -> tr !! S t = Some b ->
      disperse_iteration kdtree square (default default_rho None)
                         (default [] (Some pusher)) nb 3 a = Ok b /\
      exists new_nodes,
        _disperse_step kdtree a (default default_rho None)
                       (default [] (Some pusher)) nb 3 = Ok new_nodes /\
        length new_nodes = length a /\ length b = length a /\
        forall i x, a !! i = Some x ->
          exists x' y,
            new_nodes !! i = Some x' /\ b !! i = Some y /\
            ((intersection_count1 square x x' = 0%nat /\ y = x') \/
             (intersection_count1 square x x' <> 0%nat /\
              exists p s n,
                intersection_point1 square x x' = Ok (p, s) /\
                normals square !! s = Some n /\
                (let xb := vsub x' ((fun c => mul (mul two c)
                                                  (dot (vsub x' p) n)) <$> n) in
                 (intersection_count1 square x xb = 0%nat /\ y = xb) \/
                 (intersection_count1 square x xb <> 0%nat /\ y = x)))) /\
            (y = x \/ intersection_count1 square x y = 0%nat).
Proof.
  split; [vm_compute; reflexivity|].
  split.
  { eexists _, _, _. repeat split; vm_compute; reflexivity. }
  split; [vm_compute; reflexivity|].
  apply (disperse_no_boundary_crossing kdtree corner square 1 None
           (Some pusher) None 3 corner).
  vm_compute. reflexivity.
Defined.

(** C2 on the store of three nodes, sorted by the reversal. *)
Lemma sort_preserves_group_members_witness :
  neighbor_argsort kdtree reversal (st_nodes triangle) None
  = Ok [2; 1; 0]%nat /\
  exists st',
    sorted_store kdtree reversal triangle = Ok st' /\
    st_nodes st'
    = (fun j => default [] (st_nodes triangle !! j)) <$> [2; 1; 0]%nat /\
    st_normals st'
    = (fun j => default [] (st_normals triangle !! j)) <$> [2; 1; 0]%nat /\
    Forall2 (fun kv kv' : string * list nat =>
               kv'.1 = kv.1 /\
               Forall2 (fun i i' =>
                          (i' < length (st_nodes st'))%nat /\
                          st_nodes st' !! i' = st_nodes triangle !! i /\
                          st_normals st' !! i' = st_normals triangle !! i)
                       kv.2 kv'.2)
            (st_groups triangle) (st_groups st').
Proof.
  split; [vm_compute; reflexivity|].
  apply (sort_preserves_group_members kdtree reversal triangle [2; 1; 0]%nat).
  - vm_compute. reflexivity.
  - repeat split.
    + apply (bool_decide_unpack _). by vm_compute.
    + apply (bool_decide_unpack _). by vm_compute.
  - reflexivity.
  - repeat constructor.
Defined.

Lemma sample_prepared :
  prepare_nodes kdtree reversal no_spacing_warnings oriented_already
                sample square options
  = ([], Ok (out_nodes, out_groups, out_normals)).
Proof. vm_compute. reflexivity. Qed.

(** C7 on the sample prepared in the unit square. *)
Lemma prepared_normals_witness :
  length out_normals = length out_nodes /\
  (exists nodes0 smpid sort_idx,
     snap_nodes kdtree sample (oriented oriented_already square options)
                options = Ok (nodes0, smpid) /\
     sort_permutation kdtree reversal sample
                      (oriented oriented_already square options) options
     = Ok sort_idx /\
     forall i x j, nodes0 !! i = Some x -> smpid !! i = Some j ->
       exists i' n,
         sort_idx !! i' = Some i /\ out_nodes !! i' = Some x /\
         out_normals !! i' = Some n /\
         ((0 <= j)%Z ->
          normals (oriented oriented_already square options) !! Z.to_nat j
          = Some n) /\
         (j = (-1)%Z -> n = replicate (length x) nan)) /\
  (forall k v i',
     k = "interior" \/ k = "pinned" ->
     dict_get out_groups k = Some v -> i' ∈ v ->
     exists x, out_nodes !! i' = Some x /\
               out_normals !! i' = Some (replicate (length x) nan)).
Proof.
  apply (prepared_normals kdtree reversal no_spacing_warnings oriented_already
           sample square options []
           out_nodes out_groups out_normals).
  - exact sample_prepared.
  - exact sample_collaborators_ok.
Defined.

(** C3 on the sample prepared in the unit square. *)
Lemma prepared_groups_partition_witness :
  (forall name vi vb i',
     dict_get out_groups "interior" = Some vi ->
     dict_get out_groups ("boundary:" +:+ name) = Some vb ->
     i' ∈ vi -> i' ∉ vb) /\
  Forall (fun kv : string * list nat =>
            Forall (fun i' => (i' < length out_nodes)%nat) kv.2) out_groups /\
  exists nodes0 smpid sort_idx,
    snap_nodes kdtree sample (oriented oriented_already square options)
               options = Ok (nodes0, smpid) /\
    sort_permutation kdtree reversal sample
                     (oriented oriented_already square options) options
    = Ok sort_idx /\
    (exact_partition
       (length (simplices (oriented oriented_already square options)))
       (o_boundary_groups options) ->
     forall i' i, sort_idx !! i' = Some i -> (i < length nodes0)%nat ->
       memberships i' out_groups = 1%nat).
Proof.
  apply (prepared_groups_partition kdtree reversal no_spacing_warnings
           oriented_already sample square options []
           out_nodes out_groups out_normals).
  - exact sample_prepared.
  - exact sample_collaborators_ok.
Defined.

(** C6 on boundary groups that claim the simplex 1 twice and the
    simplex 3 not at all: two warnings, and a result. *)
Lemma boundary_groups_validated_witness :
  exists bg nodes0 smpid st0 st st',
    o_boundary_groups overlapping = Some bg /\
    snap_nodes kdtree sample (oriented oriented_already square overlapping)
               overlapping = Ok (nodes0, smpid) /\
    base_store (oriented oriented_already square overlapping) overlapping
               nodes0 smpid = Ok st0 /\
    ghost_loop kdtree (st_nodes st0) (o_ghost_delta overlapping)
      {| st_nodes := st_nodes st0; st_normals := st_normals st0;
         st_groups := boundary_dict smpid (st_groups st0) bg |}
      (default [] (o_boundary_groups_with_ghosts overlapping)) = Ok st /\
    sorted_store kdtree reversal st = Ok st' /\
    resolve_boundary_groups 4 (Some bg)
    = ([SimplexSpecified 1 2; SimplexSpecified 3 0], Ok bg) /\
    prepare_nodes kdtree reversal no_spacing_warnings oriented_already
                  sample square overlapping
    = ((resolve_boundary_groups 4 (Some bg)).1 ++ [],
       Ok (st_nodes st', st_groups st', st_normals st')).
Proof.
  eexists _, _, _, _, _, _.
  split; [reflexivity|].
  split; [vm_compute; reflexivity|].
  split; [vm_compute; reflexivity|].
  split; [vm_compute; reflexivity|].
  split; [vm_compute; reflexivity|].
  split; [vm_compute; reflexivity|].
  eapply (boundary_groups_validated kdtree reversal no_spacing_warnings
            oriented_already sample square overlapping).
  - reflexivity.
  - vm_compute. reflexivity.
  - split; [reflexivity|]. repeat constructor; lia.
  - vm_compute. reflexivity.
  - intros j Hj. apply (bool_decide_unpack _). revert j Hj.
    apply Forall_forall. repeat constructor.
  - vm_compute. reflexivity.
  - vm_compute. reflexivity.
  - reflexivity.
Defined.

(** ** Further properties of the reordering and the grouping *)

Local Close Scope float_scope.

Lemma nonzero_from_sorted {A} (p : A -> bool) (l : list A) i0 :
  StronglySorted lt (nonzero_from p i0 l) /\
  Forall (fun i => i0 <= i) (nonzero_from p i0 l).
Proof.
  revert i0. induction l as [|x l IH]; intros i0; simpl.
  - split; constructor.
  - destruct (IH (S i0)) as [Hs Hge]. destruct (p x).
    + split.
      * constructor; [done|]. eapply Forall_impl; [exact Hge|].
        intros i Hi. simpl in Hi. lia.
      * constructor; [lia|]. eapply Forall_impl; [exact Hge|].
        intros i Hi. simpl in Hi. lia.
    + split; [done|]. eapply Forall_impl; [exact Hge|].
      intros i Hi. simpl in Hi. lia.
Qed.

(** X1: for a permutation [p] of the indices, [np.argsort(p)] is again
    a permutation and is the inverse of [p]: [argsort(p)[p[i]] = i] and
    [p[argsort(p)[j]] = j]. *)
Theorem argsort_inverts_permutation (p : list nat) :
  is_permutation (length p) p ->
  is_permutation (length p) (argsort p) /\
  (forall i j, p !! i = Some j -> argsort p !! j = Some i) /\
  (forall j i, argsort p !! j = Some i -> p !! i = Some j).
Proof.
  intros Hp. pose proof (is_permutation_Permutation _ _ Hp) as Hperm.
  destruct Hp as (Hnd & _ & Hlt).
  destruct (argsort_inverse p (length p) Hperm) as [Hlen Hinv].
  repeat split.
  - by eapply argsort_NoDup.
  - done.
  - apply Forall_forall. intros i [j Hj]%list_elem_of_lookup_1.
    apply Hinv in Hj. by apply lookup_lt_Some in Hj.
  - intros i j Hij.
    assert (j < length p) as Hj.
    { eapply Forall_forall in Hlt; [exact Hlt|].
      by eapply list_elem_of_lookup_2. }
    destruct (argsort_total p (length p) j Hperm Hj) as (i' & Hi' & Hpi').
    rewrite Hi'. f_equal. by eapply NoDup_lookup.
  - exact Hinv.
Qed.

(** X1 on the permutation 2, 0, 1. *)
Lemma argsort_inverts_permutation_witness :
  is_permutation 3 [2; 0; 1] /\
  is_permutation 3 (argsort [2; 0; 1]) /\
  (forall i j, [2; 0; 1] !! i = Some j -> argsort [2; 0; 1] !! j = Some i) /\
  (forall j i, argsort [2; 0; 1] !! j = Some i -> [2; 0; 1] !! i = Some j).
Proof.
  assert (is_permutation 3 [2; 0; 1]) as Hp.
  { repeat split.
    - apply (bool_decide_unpack _). by vm_compute.
    - apply (bool_decide_unpack _). by vm_compute. }
  split; [exact Hp|].
  exact (argsort_inverts_permutation [2; 0; 1] Hp).
Defined.

(** X2: when every node is snapped to -1 or to the index of a simplex,
    the map from simplices to nodes is built without error, has one
    entry per simplex, and the entry of the simplex [s] lists, in
    ascending order, exactly the nodes snapped to [s]. *)
Theorem smp_to_nodes_lists_snapped_nodes nsmp (smpid : list Z) :
  Forall (fun j => j = (-1)%Z \/ (0 <= j < Z.of_nat nsmp)%Z) smpid ->
  exists s2n,
    smp_to_nodes nsmp smpid = Ok s2n /\ length s2n = nsmp /\
    forall s l, s2n !! s = Some l ->
      StronglySorted lt l /\
      forall i, i ∈ l <-> smpid !! i = Some (Z.of_nat s).
Proof.
  intros Hsmp.
  destruct (smp_to_nodes_spec _ _ Hsmp) as (s2n & Hs2n & Hlen & Hrow).
  exists s2n. split; [done|]. split; [done|]. intros s l Hl.
  assert (s < nsmp) as Hs by (rewrite <- Hlen; by eapply lookup_lt_Some).
  rewrite (Hrow s Hs) in Hl. injection Hl as <-. split.
  - apply nonzero_from_sorted.
  - intros i. apply snapped_to_spec.
Qed.

(** X2 on five nodes and the four edges of the square. *)
Lemma smp_to_nodes_lists_snapped_nodes_witness :
  exists s2n,
    smp_to_nodes 4 [(-1)%Z; 1%Z; 1%Z; (-1)%Z; 0%Z] = Ok s2n /\
    length s2n = 4 /\
    forall s l, s2n !! s = Some l ->
      StronglySorted lt l /\
      forall i, i ∈ l <->
                [(-1)%Z; 1%Z; 1%Z; (-1)%Z; 0%Z] !! i = Some (Z.of_nat s).
Proof.
  apply (smp_to_nodes_lists_snapped_nodes 4 [(-1)%Z; 1%Z; 1%Z; (-1)%Z; 0%Z]).
  repeat constructor; lia.
Defined.

Lemma smp_to_nodes_from_result (smpid : list Z) i0 (acc : list (list nat)) :
  (Forall (fun j => j = (-1)%Z \/
                    (- Z.of_nat (length acc) <= j < Z.of_nat (length acc))%Z)
          smpid ->
   exists acc', smp_to_nodes_from i0 smpid acc = Ok acc') /\
  (Exists (fun j => j <> (-1)%Z /\
                    ~ (- Z.of_nat (length acc) <= j < Z.of_nat (length acc))%Z)
          smpid ->
   smp_to_nodes_from i0 smpid acc = Raise IndexError).
Proof.
  revert i0 acc. induction smpid as [|j smpid IH]; intros i0 acc.
  - split; [by exists acc|]. intros Hex. by apply Exists_nil in Hex.
  - simpl. case_decide as Hj.
    + split.
      * intros Hall. apply Forall_cons in Hall as [_ Hall].
        by apply IH.
      * intros [[Hne _]|Hex]%Exists_cons; [done|]. by apply IH.
    + unfold py_index. case_decide as Hpos; [|case_decide as Hneg].
      * simpl. split.
        -- intros Hall. apply Forall_cons in Hall as [_ Hall].
           apply IH. by rewrite length_alter.
        -- intros [[_ Hout]|Hex]%Exists_cons; [lia|].
           apply IH. by rewrite length_alter.
      * simpl. split.
        -- intros Hall. apply Forall_cons in Hall as [_ Hall].
           apply IH. by rewrite length_alter.
        -- intros [[_ Hout]|Hex]%Exists_cons; [lia|].
           apply IH. by rewrite length_alter.
      * simpl. split; [|done].
        intros Hall. apply Forall_cons in Hall as [[Hm|Hin] _]; [done|lia].
Qed.

(** X3: the map from simplices to nodes is built by indexing a Python
    list with the simplex id of each node that is not -1, so a negative
    id counts from the end; building it raises [IndexError] exactly
    when some id other than -1 lies outside [-nsmp, nsmp), and returns
    the map otherwise. *)
Theorem smp_to_nodes_index_error nsmp (smpid : list Z) :
  (smp_to_nodes nsmp smpid = Raise IndexError <->
   Exists (fun j => j <> (-1)%Z /\
                    ~ (- Z.of_nat nsmp <= j < Z.of_nat nsmp)%Z) smpid) /\
  ((exists s2n, smp_to_nodes nsmp smpid = Ok s2n) <->
   Forall (fun j => j = (-1)%Z \/
                    (- Z.of_nat nsmp <= j < Z.of_nat nsmp)%Z) smpid).
Proof.
  unfold smp_to_nodes.
  pose proof (smp_to_nodes_from_result smpid 0 (replicate nsmp [])) as Hres.
  rewrite length_replicate in Hres. destruct Hres as [Hok Herr].
  assert (Forall (fun j => j = (-1)%Z \/
                           (- Z.of_nat nsmp <= j < Z.of_nat nsmp)%Z) smpid \/
          Exists (fun j => j <> (-1)%Z /\
                           ~ (- Z.of_nat nsmp <= j < Z.of_nat nsmp)%Z) smpid)
    as Hcases.
  { clear. induction smpid as [|j smpid IH]; [left; constructor|].
    destruct (decide (j = (-1)%Z)) as [Hj|Hj].
    - destruct IH as [IH|IH]; [left|right].
      + constructor; [by left|done].
      + by apply Exists_cons_tl.
    - destruct (decide (- Z.of_nat nsmp <= j < Z.of_nat nsmp)%Z) as [Hin|Hout].
      + destruct IH as [IH|IH]; [left|right].
        * constructor; [by right|done].
        * by apply Exists_cons_tl.
      + right. by apply Exists_cons_hd. }
  split; split.
  - intros Hraise. destruct Hcases as [Hall|Hex]; [|done].
    destruct (Hok Hall) as [acc' Hacc']. congruence.
  - exact Herr.
  - intros [s2n Hs2n]. destruct Hcases as [Hall|Hex]; [done|].
    rewrite (Herr Hex) in Hs2n. done.
  - exact Hok.
Qed.

Section Groups.

Context {F : Type} `{Arith F}.

#[local] Abbreviation point := (list F).
#[local] Abbreviation array := (list (list F)).
Variable kdtree : KDTree (F := F).
Variable reverse_cuthill_mckee : list (nat * nat) -> list nat.
Variable _check_spacing :
  list (list F) -> option (density (F := F)) -> res (list warning).
Variable orient : Domain (F := F) -> Domain (F := F).

Implicit Types (dom : Domain (F := F)) (o : Options (F := F)).
Implicit Types (st : Store (F := F)) (nodes : list (list F)).

Lemma boundary_key_not_ghosts_key a b : "boundary:" +:+ a <> "ghosts:" +:+ b.
Proof. cbv [String.append]. discriminate. Qed.

Lemma group_boundary_missing (s2n : list (list nat)) (bg : dict (list Z))
    (groups groups' : dict (list nat)) name :
  group_boundary s2n bg groups = Ok groups' ->
  name ∉ bg.*1 ->
  dict_get groups ("boundary:" +:+ name) = None ->
  dict_get groups' ("boundary:" +:+ name) = None.
Proof.
  revert groups. induction bg as [|[k smp] bg IH]; intros groups Hg Hname Hget.
  - by injection Hg as <-.
  - simpl in Hg. apply bind_Ok in Hg as (bnd_idx & _ & Hg).
    apply not_elem_of_cons in Hname as [Hne Hname].
    eapply IH; [exact Hg|exact Hname|].
    rewrite dict_get_set. rewrite decide_False; [done|].
    intros Heq%boundary_key_inj. done.
Qed.

Lemma ghost_loop_missing tree_nodes ghost_delta names st name :
  name ∈ names ->
  dict_get (st_groups st) ("boundary:" +:+ name) = None ->
  exists e, ghost_loop kdtree tree_nodes ghost_delta st names = Raise e.
Proof.
  revert st. induction names as [|n names IH]; intros st Hin Hget.
  - by apply elem_of_nil in Hin.
  - simpl. destruct (decide (n = name)) as [->|Hne].
    + exists KeyError. unfold add_ghosts. by rewrite Hget.
    + apply elem_of_cons in Hin as [Heq|Hin]; [done|].
      destruct (add_ghosts kdtree tree_nodes ghost_delta st n)
        as [st'|e] eqn:Hadd; [|by exists e].
      simpl. apply IH; [done|].
      apply add_ghosts_inv in Hadd
        as (vb & xs & dist & idx & ns & gn & _ & _ & _ & _ & _ & _ & _ & _ & ->).
      rewrite dict_get_set. rewrite decide_False; [done|].
      apply boundary_key_not_ghosts_key.
Qed.

(** X4: a name in [boundary_groups_with_ghosts] that is not the name of
    a boundary group makes [prepare_nodes] fail, after the validation
    warnings: it never returns a result, and when the name is the first
    of the list and snapping kept its contract the failure is the
    [KeyError] of the lookup of 'boundary:<name>'. *)
Theorem ghost_group_must_be_boundary_group nodes dom o nodes0 (smpid : list Z)
    st0 log (bg : dict (list Z)) name :
  snap_nodes kdtree nodes (oriented orient dom o) o = Ok (nodes0, smpid) ->
  base_store (oriented orient dom o) o nodes0 smpid = Ok st0 ->
  resolve_boundary_groups (length (simplices (oriented orient dom o)))
                          (o_boundary_groups o) = (log, Ok bg) ->
  name ∈ default [] (o_boundary_groups_with_ghosts o) ->
  name ∉ bg.*1 ->
  (exists e,
     prepare_nodes kdtree reverse_cuthill_mckee _check_spacing orient
                   nodes dom o = (log, Raise e)) /\
  (snap_ok (length (simplices (oriented orient dom o))) nodes0 smpid ->
   (exists rest, o_boundary_groups_with_ghosts o = Some (name :: rest)) ->
   prepare_nodes kdtree reverse_cuthill_mckee _check_spacing orient
                 nodes dom o = (log, Raise KeyError)).
Proof.
  intros Hsnap Hbase Hres Hin Hname.
  assert (dict_get (st_groups st0) ("boundary:" +:+ name) = None) as Hget0.
  { destruct (dict_get (st_groups st0) ("boundary:" +:+ name)) as [v|] eqn:Hv;
      [|done].
    destruct (base_groups_get _ _ _ _ _ _ _ Hbase Hv) as [[Hk _]|[Hk _]];
      revert Hk; cbv [String.append]; discriminate. }
  assert (pre_sort_store kdtree nodes (oriented orient dom o) o
          = (log, grouped_store kdtree (oriented orient dom o) o st0 smpid bg))
    as Hpre.
  { unfold pre_sort_store. by rewrite Hsnap, Hbase, Hres. }
  split.
  - assert (exists e, grouped_store kdtree (oriented orient dom o) o st0
                                    smpid bg = Raise e) as [e He].
    { unfold grouped_store.
      destruct (smp_to_nodes _ smpid) as [s2n|e]; [|by exists e]. simpl.
      destruct (group_boundary s2n bg (st_groups st0)) as [groups|e] eqn:Hg;
        [|by exists e].
      simpl. eapply ghost_loop_missing; [exact Hin|]. simpl.
      by eapply group_boundary_missing. }
    exists e. unfold prepare_nodes. by rewrite Hpre, He.
  - intros [_ Hsmp] [rest Hrest].
    apply resolve_boundary_groups_inv in Hres as [_ Hrange].
    unfold prepare_nodes. rewrite Hpre.
    rewrite (grouped_store_ghost_loop kdtree _ o smpid st0 bg Hsmp Hrange).
    rewrite Hrest. simpl. unfold add_ghosts. simpl.
    assert (dict_get (boundary_dict smpid (st_groups st0) bg)
                     ("boundary:" +:+ name) = None) as ->; [|done].
    destruct (dict_get (boundary_dict smpid (st_groups st0) bg)
                       ("boundary:" +:+ name)) as [v|] eqn:Hv; [|done].
    apply dict_get_elem, boundary_dict_elem in Hv
      as [Hv|(k & smp & Hk & Heq%boundary_key_inj & _)].
    + assert ("boundary:" +:+ name ∈ (st_groups st0).*1) as Hkey.
      { apply list_elem_of_fmap. by exists ("boundary:" +:+ name, v). }
      apply base_store_inv in Hbase as (n0 & _ & _ & _ & Hgroups).
      rewrite Hgroups in Hkey. revert Hkey. clear.
      destruct (o_pinned_nodes o); simpl; cbv [String.append];
        rewrite ?elem_of_cons, elem_of_nil; intros Hk;
        repeat (destruct Hk as [Hk|Hk]; [discriminate Hk|]); done.
    + subst k. exfalso. apply Hname. apply list_elem_of_fmap.
      by exists (name, smp).
Qed.

Lemma dict_get_is_Some {V} (d : dict V) k :
  is_Some (dict_get d k) <-> k ∈ d.*1.
Proof.
  induction d as [|[k' v] d IH]; simpl.
  - split; [by intros [? ?]|by intros ?%elem_of_nil].
  - case_decide as Hk; simpl in Hk.
    + subst k'. split; [intros _; apply list_elem_of_here|by eexists].
    + rewrite IH. rewrite elem_of_cons. split; [by right|].
      by intros [->|Hin].
Qed.

Lemma dict_set_keys {V} (d : dict V) k v k' :
  k' ∈ (dict_set d k v).*1 <-> k' = k \/ k' ∈ d.*1.
Proof.
  rewrite <- !dict_get_is_Some, dict_get_set.
  case_decide as Hk.
  - split; [by left|by eexists].
  - split; [by right|]. by intros [->|Hin].
Qed.

Lemma group_boundary_keys (s2n : list (list nat)) (bg : dict (list Z))
    (groups groups' : dict (list nat)) k :
  group_boundary s2n bg groups = Ok groups' ->
  k ∈ groups'.*1 <->
  k ∈ groups.*1 \/ exists name, name ∈ bg.*1 /\ k = "boundary:" +:+ name.
Proof.
  revert groups. induction bg as [|[name smp] bg IH]; intros groups Hg.
  - injection Hg as <-. split; [by left|].
    intros [Hk|(name & Hname%elem_of_nil & _)]; done.
  - simpl in Hg. apply bind_Ok in Hg as (bnd_idx & _ & Hg).
    rewrite (IH _ Hg), dict_set_keys. simpl. split.
    + intros [[->|Hk]|(n & Hn & ->)].
      * right. exists name. split; [apply list_elem_of_here|done].
      * by left.
      * right. exists n. split; [by apply list_elem_of_further|done].
    + intros [Hk|(n & [->|Hn]%elem_of_cons & ->)].
      * left. by right.
      * left. by left.
      * right. by exists n.
Qed.

Lemma ghost_loop_keys tree_nodes ghost_delta names st st' k :
  ghost_loop kdtree tree_nodes ghost_delta st names = Ok st' ->
  k ∈ (st_groups st').*1 <->
  k ∈ (st_groups st).*1 \/ exists name, name ∈ names /\ k = "ghosts:" +:+ name.
Proof.
  revert st. induction names as [|n names IH]; intros st Hloop.
  - injection Hloop as <-. split; [by left|].
    intros [Hk|(name & Hname%elem_of_nil & _)]; done.
  - simpl in Hloop. apply bind_Ok in Hloop as (st1 & Hadd & Hloop).
    rewrite (IH _ Hloop).
    apply add_ghosts_inv in Hadd
      as (vb & xs & dist & idx & ns & gn & _ & _ & _ & _ & _ & _ & _ & _ & ->).
    rewrite dict_set_keys. split.
    + intros [[->|Hk]|(name & Hname & ->)].
      * right. exists n. split; [apply list_elem_of_here|done].
      * by left.
      * right. exists name. split; [by apply list_elem_of_further|done].
    + intros [Hk|(name & [->|Hname]%elem_of_cons & ->)].
      * left. by right.
      * left. by left.
      * right. by exists name.
Qed.

Lemma sorted_store_keys st st' :
  sorted_store kdtree reverse_cuthill_mckee st = Ok st' ->
  (st_groups st').*1 = (st_groups st).*1.
Proof.
  unfold sorted_store, reorder. intros Hs.
  apply bind_Ok in Hs as (sort_idx & _ & Hs).
  apply bind_Ok in Hs as (nodes1 & _ & Hs).
  apply bind_Ok in Hs as (normals1 & _ & Hs).
  apply bind_Ok in Hs as (groups & Hgroups & [= <-]). simpl.
  apply traverse_Ok in Hgroups. revert Hgroups.
  generalize (st_groups st). intros g Hgroups.
  induction Hgroups as [|kv kv' g g' Hkv _ IH]; [done|].
  rewrite !fmap_cons, IH. f_equal.
  apply bind_Ok in Hkv as (v & _ & [= <-]). done.
Qed.

(** X5: the dictionary returned by [prepare_nodes] has exactly these
    keys: 'interior'; 'pinned' when pinned nodes are given;
    'boundary:<name>' for each boundary group in force, the single group
    'all' by default; and 'ghosts:<name>' for each name in
    [boundary_groups_with_ghosts]. *)
Theorem prepared_group_names nodes dom o log nodes' groups' normals' :
  prepare_nodes kdtree reverse_cuthill_mckee _check_spacing orient nodes dom o
  = (log, Ok (nodes', groups', normals')) ->
  let nsmp := length (simplices (oriented orient dom o)) in
  let bg := default [("all", Z.of_nat <$> seq 0 nsmp)] (o_boundary_groups o) in
  forall k,
    is_Some (dict_get groups' k) <->
    k = "interior" \/
    (k = "pinned" /\ is_Some (o_pinned_nodes o)) \/
    (exists name, name ∈ bg.*1 /\ k = "boundary:" +:+ name) \/
    (exists name, name ∈ default [] (o_boundary_groups_with_ghosts o) /\
                  k = "ghosts:" +:+ name).
Proof.
  intros Hprep nsmp bg k.
  apply prepare_nodes_inv in Hprep
    as (log0 & st & st' & ws & Hpre & Hsort & _ & _ & _ & -> & _).
  apply pre_sort_store_inv in Hpre
    as (nodes0 & smpid & st0 & bg' & _ & Hbase & Hres & Hgrouped).
  apply resolve_boundary_groups_inv in Hres as [-> _]. fold nsmp bg in Hgrouped.
  rewrite dict_get_is_Some, (sorted_store_keys _ _ Hsort).
  unfold grouped_store in Hgrouped.
  apply bind_Ok in Hgrouped as (s2n & _ & Hgrouped).
  apply bind_Ok in Hgrouped as (groups & Hgroups & Hloop).
  rewrite (ghost_loop_keys _ _ _ _ _ k Hloop). simpl.
  rewrite (group_boundary_keys _ _ _ _ k Hgroups).
  apply base_store_inv in Hbase as (normals0 & _ & _ & _ & ->).
  destruct (o_pinned_nodes o) as [pinned|]; simpl;
    rewrite ?elem_of_cons, elem_of_nil.
  - split.
    + intros [[[->|[->|[]]]|Hb]|Hg]; [by left| |by right; right; left|
                                      by right; right; right].
      right. left. split; [done|by eexists].
    + intros [->|[[-> _]|[Hb|Hg]]]; [left; left; by left|
                                     left; left; right; by left|
                                     left; by right|by right].
  - split.
    + intros [[[->|[]]|Hb]|Hg]; [by left|by right; right; left|
                                 by right; right; right].
    + intros [->|[[_ [? [=]]]|[Hb|Hg]]]; [left; left; by left|
                                          left; by right|by right].
Qed.

(** X6: the pinned nodes are returned: the group 'pinned' has one
    index per pinned node, in the order given, and the returned node
    array holds at that index the position of the pinned node,
    unchanged. *)
Theorem pinned_nodes_returned nodes dom o log nodes' groups' normals' pinned :
  prepare_nodes kdtree reverse_cuthill_mckee _check_spacing orient nodes dom o
  = (log, Ok (nodes', groups', normals')) ->
  collaborators_ok kdtree reverse_cuthill_mckee nodes (oriented orient dom o) o ->
  o_pinned_nodes o = Some pinned ->
  exists v,
    dict_get groups' "pinned" = Some v /\ length v = length pinned /\
    forall k p, pinned !! k = Some p ->
      exists i', v !! k = Some i' /\ nodes' !! i' = Some p.
Proof.
  intros Hprep Hcol Hpin.
  destruct (prepare_nodes_sorted _ _ _ _ _ _ _ _ _ _ _ Hprep Hcol)
    as (log0 & ws & st & sort_idx & Hpre & _ & _ & _ & _ & _ & Hrows & Hgroups).
  destruct Hcol as [Hsnapok _].
  destruct (pre_sort_store_spec _ _ _ _ _ _ Hpre Hsnapok)
    as (nodes0 & smpid & normals0 & bg & st0 & extra & _ & _ & _ & Hbase & _ &
        Hnodes & _ & _ & Hget & _).
  apply base_store_inv in Hbase as (n0 & _ & Hnodes0 & _ & Hgroups0).
  rewrite Hpin in Hnodes0, Hgroups0. simpl in Hnodes0.
  assert (dict_get (st_groups st) "pinned"
          = Some (seq (length nodes0) (length pinned))) as Hst.
  { rewrite Hget by reflexivity. rewrite boundary_dict_get_other by reflexivity.
    by rewrite Hgroups0. }
  pose proof (dict_get_Forall2 _ _ _ "pinned" Hgroups) as Hrel.
  rewrite Hst in Hrel.
  destruct (dict_get groups' "pinned") as [v|]; [|done].
  exists v. split; [done|].
  pose proof (Forall2_length _ _ _ Hrel) as Hlen. rewrite length_seq in Hlen.
  split; [done|]. intros k p Hp.
  assert (seq (length nodes0) (length pinned) !! k = Some (length nodes0 + k))
    as Hk.
  { apply lookup_seq. split; [done|]. by eapply lookup_lt_Some. }
  destruct (Forall2_lookup_l _ _ _ _ _ Hrel Hk) as (i' & Hi' & Harg).
  exists i'. split; [done|].
  destruct (Hrows _ _ Harg) as [-> _].
  rewrite Hnodes, Hnodes0. apply lookup_app_l_Some.
  rewrite lookup_app_r by lia.
  by replace (length nodes0 + k - length nodes0) with k by lia.
Qed.

Lemma ghost_loop_length tree_nodes ghost_delta names st st' :
  ghost_loop kdtree tree_nodes ghost_delta st names = Ok st' ->
  length (st_nodes st')
  = length (st_nodes st)
    + sum_list ((fun name =>
                   length (default [] (dict_get (st_groups st)
                                                ("boundary:" +:+ name))))
                <$> names).
Proof.
  revert st. induction names as [|n names IH]; intros st Hloop.
  - injection Hloop as <-. simpl. lia.
  - simpl in Hloop. apply bind_Ok in Hloop as (st1 & Hadd & Hloop).
    rewrite (IH _ Hloop).
    apply add_ghosts_inv in Hadd
      as (vb & xs & dist & idx & ns & gn & Hvb & _ & _ & _ & Hgn & _ &
          -> & _ & ->).
    rewrite length_app, Hgn, fmap_cons. simpl. rewrite Hvb. simpl.
    rewrite <- Nat.add_assoc. do 3 f_equal.
    apply list_fmap_ext. intros _ name _.
    rewrite dict_get_set. rewrite decide_False; [done|].
    apply boundary_key_not_ghosts_key.
Qed.

(** X7: the number of returned nodes is the number of snapped nodes
    (the dispersed nodes and, when included, the vertices) plus the
    number of pinned nodes plus, for each name in
    [boundary_groups_with_ghosts], the size of the group
    'boundary:<name>'. *)
Theorem prepared_node_count nodes dom o log nodes' groups' normals' :
  prepare_nodes kdtree reverse_cuthill_mckee _check_spacing orient nodes dom o
  = (log, Ok (nodes', groups', normals')) ->
  collaborators_ok kdtree reverse_cuthill_mckee nodes (oriented orient dom o) o ->
  exists nodes0 smpid,
    snap_nodes kdtree nodes (oriented orient dom o) o = Ok (nodes0, smpid) /\
    length nodes'
    = length nodes0 + length (default [] (o_pinned_nodes o))
      + sum_list ((fun name =>
                     length (default [] (dict_get groups'
                                                  ("boundary:" +:+ name))))
                  <$> default [] (o_boundary_groups_with_ghosts o)).
Proof.
  intros Hprep Hcol.
  destruct (prepare_nodes_sorted _ _ _ _ _ _ _ _ _ _ _ Hprep Hcol)
    as (log0 & ws & st & sort_idx & Hpre & _ & _ & _ & Hlen & _ & _ & Hgroups).
  destruct Hcol as [Hsnapok _].
  destruct (pre_sort_store_inv _ _ _ _ _ _ Hpre)
    as (nodes0 & smpid & st0 & bg & Hsnap & Hbase & Hres & Hgrouped).
  exists nodes0, smpid. split; [done|].
  apply resolve_boundary_groups_inv in Hres as [_ Hrange].
  destruct (grouped_store_inv _ _ _ _ _ _ _ _ (Hsnapok _ _ Hsnap) Hbase
              Hrange Hgrouped) as [Hok Hloop].
  destruct (ghost_loop_inv _ _ _ _ _ _ Hloop Hok) as (_ & _ & Hget & _).
  rewrite Hlen, (ghost_loop_length _ _ _ _ _ Hloop). simpl.
  apply base_store_inv in Hbase as (n0 & _ & -> & _ & _).
  rewrite length_app. f_equal.
  apply (f_equal sum_list), list_fmap_ext. intros _ name _.
  specialize (Hget _ (boundary_key_not_ghosts name)). simpl in Hget.
  rewrite <- Hget.
  pose proof (dict_get_Forall2 _ _ _ ("boundary:" +:+ name) Hgroups) as Hrel.
  destruct (dict_get (st_groups st) ("boundary:" +:+ name)) as [v|],
           (dict_get groups' ("boundary:" +:+ name)) as [v'|]; try done.
  simpl. by apply Forall2_length in Hrel.
Qed.

Lemma argsort_lookup_iff (p : list nat) n i i' :
  p ≡ₚ seq 0 n -> argsort p !! i = Some i' <-> p !! i' = Some i.
Proof.
  intros Hperm. destruct (argsort_inverse p n Hperm) as [Hlen Hinv].
  split; [apply Hinv|]. intros Hp.
  assert (i < n) as Hi.
  { assert (i ∈ seq 0 n) as Hin.
    { rewrite <- Hperm. by eapply list_elem_of_lookup_2. }
    apply elem_of_seq in Hin. lia. }
  destruct (argsort_total p n i Hperm Hi) as (j & Hj & Hpj).
  rewrite Hj. f_equal. eapply NoDup_lookup; [|exact Hpj|exact Hp].
  rewrite Hperm. apply NoDup_seq.
Qed.

Lemma Forall2_elem_of_r {A B} (R : A -> B -> Prop) (v : list A) (v' : list B) y :
  (forall x y1 y2, R x y1 -> R x y2 -> y1 = y2) ->
  Forall2 R v v' -> y ∈ v' <-> exists x, x ∈ v /\ R x y.
Proof.
  intros Hfun Hrel. split.
  - intros [k Hk]%list_elem_of_lookup_1.
    destruct (Forall2_lookup_r _ _ _ _ _ Hrel Hk) as (x & Hx & Hxy).
    exists x. split; [by eapply list_elem_of_lookup_2|done].
  - intros (x & [k Hk]%list_elem_of_lookup_1 & Hxy).
    destruct (Forall2_lookup_l _ _ _ _ _ Hrel Hk) as (y' & Hy' & Hxy').
    rewrite (Hfun _ _ _ Hxy Hxy'). by eapply list_elem_of_lookup_2.
Qed.

Lemma boundary_dict_get_fresh smpid (groups : dict (list nat))
    (bg : dict (list Z)) name :
  name ∉ bg.*1 ->
  dict_get (boundary_dict smpid groups bg) ("boundary:" +:+ name)
  = dict_get groups ("boundary:" +:+ name).
Proof.
  revert groups. induction bg as [|[k smp] bg IH]; intros groups Hname; [done|].
  apply not_elem_of_cons in Hname as [Hne Hname].
  unfold boundary_dict. simpl. fold (boundary_dict smpid).
  change (foldl _ ?g bg) with (boundary_dict smpid g bg).
  rewrite IH by done. rewrite dict_get_set, decide_False; [done|].
  by intros Heq%boundary_key_inj.
Qed.

Lemma boundary_dict_get_member smpid (groups : dict (list nat))
    (bg : dict (list Z)) name smp :
  NoDup bg.*1 -> (name, smp) ∈ bg ->
  dict_get (boundary_dict smpid groups bg) ("boundary:" +:+ name)
  = Some (group_nodes smpid smp).
Proof.
  revert groups. induction bg as [|[k s] bg IH]; intros groups Hnd Hin.
  - by apply elem_of_nil in Hin.
  - apply NoDup_cons in Hnd as [Hk Hnd].
    unfold boundary_dict. simpl.
    change (foldl _ ?g bg) with (boundary_dict smpid g bg).
    apply elem_of_cons in Hin as [[= -> ->]|Hin].
    + rewrite boundary_dict_get_fresh by done.
      by rewrite dict_get_set, decide_True.
    + by apply IH.
Qed.

(** X8: in the returned dictionary the group 'interior' holds exactly
    the returned nodes that snapping left in the interior (simplex id
    -1), and each group 'boundary:<name>' holds exactly the returned
    nodes snapped to one of the simplices of that boundary group. *)
Theorem prepared_group_members nodes dom o log nodes' groups' normals' :
  prepare_nodes kdtree reverse_cuthill_mckee _check_spacing orient nodes dom o
  = (log, Ok (nodes', groups', normals')) ->
  collaborators_ok kdtree reverse_cuthill_mckee nodes (oriented orient dom o) o ->
  let nsmp := length (simplices (oriented orient dom o)) in
  let bg := default [("all", Z.of_nat <$> seq 0 nsmp)] (o_boundary_groups o) in
  NoDup bg.*1 ->
  exists nodes0 smpid sort_idx,
    snap_nodes kdtree nodes (oriented orient dom o) o = Ok (nodes0, smpid) /\
    sort_permutation kdtree reverse_cuthill_mckee nodes
                     (oriented orient dom o) o = Ok sort_idx /\
    (exists vi,
       dict_get groups' "interior" = Some vi /\
       forall i', i' ∈ vi <->
         exists i, sort_idx !! i' = Some i /\ smpid !! i = Some (-1)%Z) /\
    (forall name smp, (name, smp) ∈ bg ->
       exists vb,
         dict_get groups' ("boundary:" +:+ name) = Some vb /\
         forall i', i' ∈ vb <->
           exists i j, sort_idx !! i' = Some i /\ smpid !! i = Some j /\
                       j ∈ smp).
Proof.
  intros Hprep Hcol nsmp bg Hnd.
  destruct (prepare_nodes_sorted _ _ _ _ _ _ _ _ _ _ _ Hprep Hcol)
    as (log0 & ws & st & sort_idx & Hpre & _ & Hsort & Hperm & _ & _ & _ &
        Hgroups).
  destruct Hcol as [Hsnapok _].
  destruct (pre_sort_store_spec _ _ _ _ _ _ Hpre Hsnapok)
    as (nodes0 & smpid & normals0 & bg' & st0 & extra & Hsnap & _ & _ & Hbase &
        Hres & _ & _ & _ & Hget & _).
  apply resolve_boundary_groups_inv in Hres as [-> _]. fold nsmp bg in Hget.
  apply base_store_inv in Hbase as (n0 & _ & _ & _ & Hgroups0).
  exists nodes0, smpid, sort_idx. split; [done|]. split; [done|].
  assert (forall k v,
            dict_get (st_groups st) k = Some v ->
            exists v', dict_get groups' k = Some v' /\
              forall i', i' ∈ v' <->
                exists i, i ∈ v /\ sort_idx !! i' = Some i) as Hremap.
  { intros k v Hv.
    pose proof (dict_get_Forall2 _ _ _ k Hgroups) as Hrel. rewrite Hv in Hrel.
    destruct (dict_get groups' k) as [v'|]; [|done].
    exists v'. split; [done|]. intros i'.
    assert (forall x y1 y2 : nat,
              argsort sort_idx !! x = Some y1 ->
              argsort sort_idx !! x = Some y2 -> y1 = y2) as Hfun
      by (intros x y1 y2 H1 H2; congruence).
    rewrite (Forall2_elem_of_r _ _ _ i' Hfun Hrel).
    split; intros (i & Hi & Harg); exists i; (split; [done|]);
      by apply (argsort_lookup_iff _ _ _ _ Hperm). }
  split.
  - destruct (Hremap "interior" (snapped_to smpid (-1))) as (vi & Hvi & Hmem).
    { rewrite Hget by reflexivity.
      rewrite boundary_dict_get_other by reflexivity. by rewrite Hgroups0. }
    exists vi. split; [done|]. intros i'. rewrite Hmem.
    split; intros (i & Hi & Hs); exists i.
    + split; [done|]. by apply snapped_to_spec.
    + split; [by apply snapped_to_spec|done].
  - intros name smp Hin.
    destruct (Hremap ("boundary:" +:+ name) (group_nodes smpid smp))
      as (vb & Hvb & Hmem).
    { rewrite Hget by apply boundary_key_not_ghosts.
      by apply boundary_dict_get_member. }
    exists vb. split; [done|]. intros i'. rewrite Hmem.
    split.
    + intros (i & (j & Hj & Hs)%group_nodes_elem & Hi). by exists i, j.
    + intros (i & j & Hi & Hs & Hj). exists i. split; [|done].
      apply group_nodes_elem. by exists j.
Qed.

End Groups.

(** ** Further properties of the dispersion *)

Section Shape.

Context {F : Type} `{Arith F}.

#[local] Abbreviation point := (list F).
#[local] Abbreviation array := (list (list F)).
Variable kdtree : KDTree (F := F).

Implicit Types (dom : Domain (F := F)) (rho : density (F := F)).
Implicit Types (nodes new_nodes fixed_nodes a b : list (list F)).
Implicit Types (x y : list F).

Lemma assert_shape_Ok a d :
  assert_shape a d = Ok tt <-> Forall (fun r : list F => length r = d) a.
Proof.
  unfold assert_shape.
  destruct (forallb _ a) eqn:Hall.
  - split; [intros _|done]. apply Forall_forall. intros r Hr.
    rewrite forallb_forall in Hall. apply Nat.eqb_eq, Hall.
    by apply list_elem_of_In.
  - split; [done|]. intros Hw. exfalso.
    assert (forallb (fun r : list F => length r =? d) a = true) as Htrue.
    { apply forallb_forall. intros r Hr%list_elem_of_In.
      apply Nat.eqb_eq. by eapply Forall_forall in Hw. }
    congruence.
Qed.

Lemma assert_shape_cases a d :
  assert_shape a d = Ok tt \/ assert_shape a d = Raise ValueError.
Proof. unfold assert_shape. destruct (forallb _ a); auto. Qed.

Lemma vsum_length d (rows : list (list F)) :
  Forall (fun r => length r = d) rows -> length (vsum d rows) = d.
Proof.
  destruct rows as [|r rows]; simpl; [intros _; apply length_replicate|].
  intros [Hr Hrows]%Forall_cons. revert r Hr.
  induction Hrows as [|r' rows Hr' _ IH]; intros r Hr; [done|].
  simpl. apply IH. unfold vadd. rewrite length_zip_with. lia.
Qed.

Lemma disperse_row_width all_nodes rho_all delta x rho_x dist idx row d :
  disperse_row all_nodes rho_all delta x rho_x dist idx = Ok row ->
  length x = d -> Forall (fun r => length r = d) all_nodes ->
  length row = d.
Proof.
  unfold disperse_row. intros Hrow Hx Hall.
  apply bind_Ok in Hrow as (forces & Hforces & Hrow).
  apply bind_Ok in Hrow as (d0 & _ & [= <-]).
  assert (Forall (fun f => length f = d) forces) as Hf.
  { apply traverse_Ok in Hforces.
    induction Hforces as [|ri f l l' Hri _ IH]; constructor; [|done].
    apply bind_Ok in Hri as (y & Hy%get_Ok & Hri).
    apply bind_Ok in Hri as (rho_y & _ & [= <-]).
    unfold pair_force, vsub. rewrite length_fmap, length_zip_with.
    eapply Forall_forall in Hall; [|by eapply list_elem_of_lookup_2]. lia. }
  unfold vadd, scale, unit_direction.
  rewrite length_zip_with, !length_fmap, Hx, vsum_length by done. lia.
Qed.

Lemma disperse_step_width nodes rho fixed_nodes neighbors delta new_nodes d :
  _disperse_step kdtree nodes rho fixed_nodes neighbors delta = Ok new_nodes ->
  Forall (fun r => length r = d) nodes ->
  Forall (fun r => length r = d) fixed_nodes ->
  Forall (fun r => length r = d) new_nodes.
Proof.
  unfold _disperse_step. case_decide; [by intros [= <-]|].
  intros Hs Hn Hfx. apply bind_Ok in Hs as ([dist idx] & _ & Hs).
  apply traverse_Ok in Hs. apply Forall_forall.
  intros row [k Hk]%list_elem_of_lookup_1.
  destruct (Forall2_lookup_r _ _ _ _ _ Hs Hk) as (i & _ & Hrow).
  apply bind_Ok in Hrow as (x & Hx%get_Ok & Hrow).
  apply bind_Ok in Hrow as (rho_x & _ & Hrow).
  apply bind_Ok in Hrow as (dist_i & _ & Hrow).
  apply bind_Ok in Hrow as (idx_i & _ & Hrow).
  eapply disperse_row_width; [exact Hrow| |by apply Forall_app].
  eapply Forall_forall in Hn; [exact Hn|]. by eapply list_elem_of_lookup_2.
Qed.

Lemma disperse_iteration_width dom rho fixed_nodes neighbors delta a b :
  Forall (fun n => length n = dim dom) (normals dom) ->
  disperse_iteration kdtree dom rho fixed_nodes neighbors delta a = Ok b ->
  Forall (fun r => length r = dim dom) a ->
  Forall (fun r => length r = dim dom) fixed_nodes ->
  length b = length a /\ Forall (fun r => length r = dim dom) b.
Proof.
  intros Hnorm Hit Ha Hfx.
  destruct (disperse_iteration_inv _ _ _ _ _ _ _ _ Hit)
    as (new_nodes & Hstep & Hlen & Hrows).
  split; [done|].
  pose proof (disperse_step_width _ _ _ _ _ _ _ Hstep Ha Hfx) as Hnew.
  apply Forall_forall. intros y [i Hy]%list_elem_of_lookup_1.
  destruct (lookup_lt_is_Some_2 a i) as [x Hx].
  { rewrite <- Hlen. by eapply lookup_lt_Some. }
  destruct (Hrows i x Hx) as (x' & y' & Hx' & Hy' & Hb).
  assert (y' = y) as -> by congruence.
  assert (length x = dim dom) as Hwx.
  { eapply Forall_forall in Ha; [exact Ha|]. by eapply list_elem_of_lookup_2. }
  assert (length x' = dim dom) as Hwx'.
  { eapply Forall_forall in Hnew; [exact Hnew|].
    by eapply list_elem_of_lookup_2. }
  destruct Hb as [[_ ->]|(_ & p & s & n & _ & Hn & [[_ ->]|[_ ->]])];
    [done| |done].
  unfold bounce_row, vsub. rewrite length_zip_with, length_fmap.
  eapply Forall_forall in Hnorm; [|by eapply list_elem_of_lookup_2]. lia.
Qed.

Lemma disperse_loop_shape iterations dom rho fixed_nodes neighbors delta
    nodes out :
  Forall (fun n => length n = dim dom) (normals dom) ->
  disperse_loop kdtree iterations dom rho fixed_nodes neighbors delta nodes
  = Ok out ->
  Forall (fun r => length r = dim dom) nodes ->
  Forall (fun r => length r = dim dom) fixed_nodes ->
  length out = length nodes /\ Forall (fun r => length r = dim dom) out.
Proof.
  intros Hnorm. revert nodes.
  induction iterations as [|n IH]; intros nodes Hloop Hn Hfx.
  - by injection Hloop as <-.
  - simpl in Hloop. apply bind_Ok in Hloop as (mid & Hit & Hloop).
    destruct (disperse_iteration_width _ _ _ _ _ _ _ Hnorm Hit Hn Hfx)
      as [Hlen Hmid].
    destruct (IH _ Hloop Hmid Hfx) as [Hlen' Hout].
    split; [congruence|done].
Qed.

(** X9: [disperse] returns an array of the shape of its input: as many
    rows as free nodes, each with as many columns as the domain has
    dimensions, for a domain whose normals have that many columns. *)
Theorem disperse_keeps_shape nodes dom iterations (rho : option density)
    (fixed_nodes : option array) neighbors delta out :
  Forall (fun n => length n = dim dom) (normals dom) ->
  disperse kdtree nodes dom iterations rho fixed_nodes neighbors delta = Ok out ->
  length out = length nodes /\ Forall (fun r => length r = dim dom) out.
Proof.
  intros Hnorm Hd. pose proof Hd as Hd'.
  destruct (disperse_inv _ _ _ _ _ _ _ _ _ Hd) as (nb & _ & Hloop).
  unfold disperse in Hd'.
  apply bind_Ok in Hd' as ([] & Hshape%assert_shape_Ok & Hd').
  apply bind_Ok in Hd' as (fx & Hfx & _).
  eapply disperse_loop_shape; [done|exact Hloop|done|].
  destruct fixed_nodes as [fx'|]; simpl.
  - apply bind_Ok in Hfx as ([] & Hs%assert_shape_Ok & [= <-]). done.
  - constructor.
Qed.

Lemma disperse_loop_add m n dom rho fixed_nodes neighbors delta nodes :
  disperse_loop kdtree (m + n) dom rho fixed_nodes neighbors delta nodes
  = (mid ← disperse_loop kdtree m dom rho fixed_nodes neighbors delta nodes;
     disperse_loop kdtree n dom rho fixed_nodes neighbors delta mid).
Proof.
  revert nodes. induction m as [|m IH]; intros nodes; [done|].
  simpl. destruct (disperse_iteration _ _ _ _ _ _ nodes) as [mid|e]; [|done].
  simpl. apply IH.
Qed.

(** X10: running [disperse] for [m + n] iterations gives what running
    it for [m] iterations and then for [n] iterations on the result
    gives, the same array or the same exception, for a domain whose
    normals have as many columns as it has dimensions. *)
Theorem disperse_iterations_compose nodes dom m n (rho : option density)
    (fixed_nodes : option array) neighbors delta :
  Forall (fun r => length r = dim dom) (normals dom) ->
  disperse kdtree nodes dom (m + n) rho fixed_nodes neighbors delta
  = (mid ← disperse kdtree nodes dom m rho fixed_nodes neighbors delta;
     disperse kdtree mid dom n rho fixed_nodes neighbors delta).
Proof.
  intros Hnorm.
  destruct (assert_shape_cases nodes (dim dom)) as [Hs|Hs].
  2:{ unfold disperse. rewrite Hs. done. }
  assert (exists fx,
            (match fixed_nodes with
             | Some fx => _ ← assert_shape fx (dim dom); Ok fx
             | None => Ok []
             end = Ok fx /\ Forall (fun r => length r = dim dom) fx) \/
            match fixed_nodes with
            | Some fx => _ ← assert_shape fx (dim dom); Ok fx
            | None => Ok []
            end = Raise ValueError) as [fx [[Hfx Hwfx]|Hfx]].
  { destruct fixed_nodes as [fx|].
    - exists fx. destruct (assert_shape_cases fx (dim dom)) as [Hf|Hf];
        rewrite Hf; [left|by right].
      split; [done|]. by apply assert_shape_Ok.
    - exists []. left. split; [done|constructor]. }
  2:{ unfold disperse. rewrite Hs. simpl. rewrite Hfx. done. }
  destruct (clamp_neighbors (dim dom) neighbors (length nodes) (length fx))
    as [nb|e] eqn:Hnb.
  2:{ unfold disperse. rewrite Hs. simpl. rewrite Hfx. simpl.
      rewrite Hnb. done. }
  assert (forall k,
            disperse kdtree nodes dom k rho fixed_nodes neighbors delta
            = disperse_loop kdtree k dom (default default_rho rho) fx nb
                            delta nodes) as Hk.
  { intros k. unfold disperse. rewrite Hs. simpl. rewrite Hfx. simpl.
    by rewrite Hnb. }
  rewrite !Hk, disperse_loop_add.
  destruct (disperse_loop kdtree m dom (default default_rho rho) fx nb delta
                          nodes) as [mid|e] eqn:Hmid; [|done].
  simpl. apply assert_shape_Ok in Hs.
  destruct (disperse_loop_shape _ _ _ _ _ _ _ _ Hnorm Hmid Hs Hwfx)
    as [Hlen Hwmid].
  unfold disperse. apply assert_shape_Ok in Hwmid. rewrite Hwmid. simpl.
  rewrite Hfx. simpl. by rewrite Hlen, Hnb.
Qed.

(** X11: when the neighbour count in force is 0, as for a single free
    node without fixed nodes, the neighbour query asks for one point
    per node, the node itself; the step then has no nearest-neighbour
    distance to scale by, and [disperse] with at least one iteration
    raises [IndexError]. *)
Theorem disperse_without_neighbors_fails nodes dom iterations
    (fixed_nodes : option array) neighbors delta dist idx :
  nodes <> [] ->
  assert_shape nodes (dim dom) = Ok tt ->
  match fixed_nodes with
  | Some fx => assert_shape fx (dim dom) = Ok tt
  | None => True
  end ->
  clamp_neighbors (dim dom) neighbors (length nodes)
                  (length (default [] fixed_nodes)) = Ok 0%Z ->
  kdtree (nodes ++ default [] fixed_nodes) nodes 1%Z = Ok (dist, idx) ->
  Forall (fun d => length d <= 1) dist ->
  disperse kdtree nodes dom (S iterations) None fixed_nodes neighbors delta
  = Raise IndexError.
Proof.
  intros Hne Hs Hfx Hnb Hkd Hdist. unfold disperse. rewrite Hs. simpl.
  assert (match fixed_nodes with
          | Some fx => _ ← assert_shape fx (dim dom); Ok fx
          | None => Ok []
          end = Ok (default [] fixed_nodes)) as ->.
  { destruct fixed_nodes as [fx|]; simpl; [|done]. by rewrite Hfx. }
  simpl. rewrite Hnb. simpl. unfold disperse_iteration, _disperse_step.
  rewrite decide_False by (by destruct nodes).
  simpl. change (0 + 1)%Z with 1%Z. rewrite Hkd. simpl.
  destruct nodes as [|x nodes]; [done|]. simpl.
  destruct dist as [|d dist]; [done|]. simpl.
  destruct idx as [|j idx]; [done|]. simpl.
  apply Forall_cons in Hdist as [Hd _].
  assert (drop 1 d = []) as ->.
  { destruct d as [|d0 [|d1 d]]; simpl in *; [done..|lia]. }
  unfold disperse_row. simpl. done.
Qed.

End Shape.

(** ** Further properties of the locality reorderer *)

Section Adjacency.

Context {F : Type}.

Variable kdtree : KDTree (F := F).
Variable reverse_cuthill_mckee : list (nat * nat) -> list nat.

Lemma zip_replicate_elem (a : nat) (r : list nat) i j :
  (i, j) ∈ zip (replicate (length r) a) r <-> i = a /\ j ∈ r.
Proof.
  induction r as [|j0 r IH]; simpl.
  - rewrite elem_of_nil. split; [done|]. by intros [_ ?%elem_of_nil].
  - rewrite !elem_of_cons, IH. split.
    + intros [[= -> ->]|[-> Hj]]; auto.
    + intros [-> [->|Hj]]; auto.
Qed.

Lemma adjacency_elem k (idx : list (list nat)) a i j :
  Forall (fun row => length row = k) idx ->
  (i, j) ∈ zip (flat_map (fun i => replicate k i) (seq a (length idx)))
               (concat idx) <->
  exists row, a <= i /\ idx !! (i - a) = Some row /\ j ∈ row.
Proof.
  intros Hidx. revert a.
  induction Hidx as [|r idx Hr _ IH]; intros a; simpl.
  - rewrite elem_of_nil. split; [done|]. by intros (row & _ & [=] & _).
  - rewrite zip_with_app by (by rewrite length_replicate).
    rewrite elem_of_app, IH. subst k. rewrite zip_replicate_elem. split.
    + intros [[-> Hj]|(row & Ha & Hrow & Hj)].
      * exists r. rewrite Nat.sub_diag. auto.
      * exists row. split; [lia|]. split; [|done].
        replace (i - a) with (S (i - S a)) by lia. done.
    + intros (row & Ha & Hrow & Hj).
      destruct (decide (i = a)) as [->|Hne].
      * left. rewrite Nat.sub_diag in Hrow. injection Hrow as <-. auto.
      * right. exists row. split; [lia|]. split; [|done].
        replace (i - a) with (S (i - S a)) in Hrow by lia. done.
Qed.

(** X12: [neighbor_argsort] asks the k-d tree for the [min(m, n)]
    nearest nodes of each of the [n] nodes, [m] being 5 to the power of
    the number of columns by default, and hands the reordering an
    adjacency structure with an entry at row [i] and column [j] exactly
    when [j] is one of the neighbours returned for the node [i]; what
    the reordering returns is the result. *)
Theorem neighbor_argsort_adjacency (nodes : list (list F)) (m : option Z)
    dist idx :
  let k := Z.min (default (5 ^ Z.of_nat (shape1 nodes))%Z m)
                 (Z.of_nat (length nodes)) in
  kdtree nodes nodes k = Ok (dist, idx) ->
  length idx = length nodes ->
  Forall (fun row => length row = Z.to_nat k) idx ->
  exists entries,
    neighbor_argsort kdtree reverse_cuthill_mckee nodes m
    = Ok (reverse_cuthill_mckee entries) /\
    forall i j, (i, j) ∈ entries <->
                exists row, idx !! i = Some row /\ j ∈ row.
Proof.
  intros k Hkd Hlen Hrows. unfold neighbor_argsort. fold k. rewrite Hkd.
  simpl. eexists. split; [reflexivity|]. intros i j.
  rewrite <- Hlen. rewrite (adjacency_elem _ idx 0 i j Hrows).
  rewrite Nat.sub_0_r. split.
  - intros (row & _ & Hrow & Hj). by exists row.
  - intros (row & Hrow & Hj). exists row. split; [lia|done].
Qed.

End Adjacency.

(** ** The orthogonal groups *)

Section Orthogonal.

Context {F : Type} `{Arith F}.

#[local] Abbreviation point := (list F).
#[local] Abbreviation array := (list (list F)).
Variable kdtree : KDTree (F := F).
Variable reverse_cuthill_mckee : list (nat * nat) -> list nat.
Variable _check_spacing :
  list (list F) -> option (density (F := F)) -> res (list warning).
Variable orient : Domain (F := F) -> Domain (F := F).

Implicit Types (dom : Domain (F := F)) (o : Options (F := F)).
Implicit Types (st : Store (F := F)) (nodes : list (list F)).

Lemma partition_key_not_ghosts k :
  is_partition_key k = true -> String.prefix "ghosts:" k = false.
Proof.
  unfold is_partition_key. intros [Hk|Hk]%orb_true_iff.
  - apply String.eqb_eq in Hk. by subst k.
  - destruct k as [|c k]; [done|].
    by destruct c as [[] [] [] [] [] [] [] []].
Qed.

Lemma ghost_loop_ghost_range tree_nodes ghost_delta names st st' m :
  ghost_loop kdtree tree_nodes ghost_delta st names = Ok st' ->
  m <= length (st_nodes st) ->
  (forall k v, dict_get (st_groups st) k = Some v ->
     String.prefix "ghosts:" k = true -> Forall (fun i => m <= i) v) ->
  forall k v, dict_get (st_groups st') k = Some v ->
    String.prefix "ghosts:" k = true -> Forall (fun i => m <= i) v.
Proof.
  revert st. induction names as [|n names IH]; intros st Hloop Hm Hold.
  - by injection Hloop as <-.
  - simpl in Hloop. apply bind_Ok in Hloop as (st1 & Hadd & Hloop).
    apply add_ghosts_inv in Hadd
      as (vb & xs & dist & idx & ns & gn & _ & _ & _ & _ & _ & _ &
          Hnodes & _ & Hgroups).
    apply (IH _ Hloop).
    + rewrite Hnodes, length_app. lia.
    + intros k v. rewrite Hgroups, dict_get_set. case_decide as Hk.
      * intros [= <-] _. apply Forall_forall.
        intros i Hi%elem_of_seq. lia.
      * apply Hold.
Qed.

Lemma pre_sort_ranges nodes dom o log st :
  pre_sort_store kdtree nodes dom o = (log, Ok st) ->
  (forall nodes0 smpid,
     snap_nodes kdtree nodes dom o = Ok (nodes0, smpid) ->
     snap_ok (length (simplices dom)) nodes0 smpid) ->
  exists n0,
    forall k v i, dict_get (st_groups st) k = Some v -> i ∈ v ->
      (is_partition_key k = true -> i < n0) /\
      (k = "pinned" ->
       n0 <= i < n0 + length (default [] (o_pinned_nodes o))) /\
      (String.prefix "ghosts:" k = true ->
       n0 + length (default [] (o_pinned_nodes o)) <= i).
Proof.
  intros Hpre Hsnapok.
  destruct (pre_sort_store_inv _ _ _ _ _ _ Hpre)
    as (nodes0 & smpid & st0 & bg & Hsnap & Hbase & Hres & Hgrouped).
  destruct (Hsnapok _ _ Hsnap) as [Hls Hsmp].
  apply resolve_boundary_groups_inv in Hres as [_ Hrange].
  destruct (grouped_store_inv _ _ _ _ _ _ _ _ (Hsnapok _ _ Hsnap) Hbase
              Hrange Hgrouped) as [Hok Hloop].
  destruct (ghost_loop_inv _ _ _ _ _ _ Hloop Hok) as (_ & _ & Hget & _).
  apply base_store_inv in Hbase as (normals0 & _ & Hnodes0 & _ & Hgroups0).
  exists (length nodes0).
  assert (forall k v i,
            (k, v) ∈ boundary_dict smpid (st_groups st0) bg -> i ∈ v ->
            String.prefix "ghosts:" k = false /\
            (is_partition_key k = true -> i < length nodes0) /\
            (k = "pinned" ->
             length nodes0 <= i
             < length nodes0 + length (default [] (o_pinned_nodes o))))
    as Hbefore.
  { intros k v i [Hkv|(name & smp & _ & -> & ->)]%boundary_dict_elem Hi.
    - rewrite Hgroups0 in Hkv. apply elem_of_cons in Hkv as [[= -> ->]|Hkv].
      + split; [done|]. split; [|done]. intros _.
        apply snapped_to_spec, lookup_lt_Some in Hi. lia.
      + destruct (o_pinned_nodes o) as [pinned|];
          [|by apply elem_of_nil in Hkv].
        apply list_elem_of_singleton in Hkv as [= -> ->].
        split; [done|]. split; [done|]. intros _.
        apply elem_of_seq in Hi. simpl. lia.
    - split; [apply boundary_key_not_ghosts|]. split.
      + intros _. apply group_nodes_elem in Hi as (j & _ & Hj).
        apply lookup_lt_Some in Hj. lia.
      + cbv [String.append]. discriminate. }
  intros k v i Hv Hi.
  destruct (String.prefix "ghosts:" k) eqn:Hpre_k.
  - split; [|split].
    + intros Hk%partition_key_not_ghosts. congruence.
    + intros ->. done.
    + intros _.
      assert (Forall (fun i => length (st_nodes st0) <= i) v) as Hall.
      { eapply (ghost_loop_ghost_range _ _ _ _ _ _ Hloop); [done| |done|done].
        simpl. intros k' v' Hv' Hk'.
        apply dict_get_elem in Hv'. apply Forall_forall. intros i' Hi'.
        destruct (Hbefore _ _ _ Hv' Hi') as [Hno _]. congruence. }
      eapply Forall_forall in Hall; [|exact Hi].
      rewrite Hnodes0, length_app in Hall. done.
  - rewrite (Hget _ Hpre_k) in Hv. simpl in Hv. apply dict_get_elem in Hv.
    destruct (Hbefore _ _ _ Hv Hi) as (_ & Hpart & Hpin).
    split; [done|]. split; [done|]. done.
Qed.

(** X13: pinned nodes and ghost nodes are classified on their own: an
    index of the group 'pinned' or of a group 'ghosts:<name>' is in
    neither 'interior' nor any 'boundary:' group, and no index is both
    in 'pinned' and in a 'ghosts:' group. *)
Theorem pinned_and_ghosts_apart nodes dom o log nodes' groups' normals' :
  prepare_nodes kdtree reverse_cuthill_mckee _check_spacing orient nodes dom o
  = (log, Ok (nodes', groups', normals')) ->
  collaborators_ok kdtree reverse_cuthill_mckee nodes (oriented orient dom o) o ->
  forall k1 k2 v1 v2 i',
    dict_get groups' k1 = Some v1 -> dict_get groups' k2 = Some v2 ->
    (is_partition_key k1 = true /\
     (k2 = "pinned" \/ String.prefix "ghosts:" k2 = true)) \/
    (k1 = "pinned" /\ String.prefix "ghosts:" k2 = true) ->
    i' ∈ v1 -> i' ∉ v2.
Proof.
  intros Hprep Hcol k1 k2 v1' v2' i' Hv1' Hv2' Hkeys Hi1 Hi2.
  destruct (prepare_nodes_sorted _ _ _ _ _ _ _ _ _ _ _ Hprep Hcol)
    as (log0 & ws & st & sort_idx & Hpre & _ & _ & Hperm & _ & _ & _ & Hgroups).
  destruct (pre_sort_ranges _ _ _ _ _ Hpre (proj1 Hcol)) as (n0 & Hranges).
  pose proof (argsort_NoDup sort_idx _ Hperm) as Hnd.
  assert (forall k v', dict_get groups' k = Some v' -> i' ∈ v' ->
            exists v i, dict_get (st_groups st) k = Some v /\ i ∈ v /\
                        argsort sort_idx !! i = Some i') as Hback.
  { intros k v' Hv' [t Ht]%list_elem_of_lookup_1.
    pose proof (dict_get_Forall2 _ _ _ k Hgroups) as Hrel. rewrite Hv' in Hrel.
    destruct (dict_get (st_groups st) k) as [v|]; [|done].
    destruct (Forall2_lookup_r _ _ _ _ _ Hrel Ht) as (i & Hi & Harg).
    exists v, i. split; [done|]. split; [by eapply list_elem_of_lookup_2|done]. }
  destruct (Hback _ _ Hv1' Hi1) as (v1 & i1 & Hv1 & Hin1 & Harg1).
  destruct (Hback _ _ Hv2' Hi2) as (v2 & i2 & Hv2 & Hin2 & Harg2).
  assert (i1 = i2) as <-.
  { by eapply (proj1 (NoDup_alt (argsort sort_idx)) Hnd). }
  destruct (Hranges _ _ _ Hv1 Hin1) as (Hp1 & Hq1 & _).
  destruct (Hranges _ _ _ Hv2 Hin2) as (_ & Hq2 & Hg2).
  destruct Hkeys as [[Hk1 [Hk2|Hk2]]|[Hk1 Hk2]].
  - specialize (Hp1 Hk1). specialize (Hq2 Hk2). lia.
  - specialize (Hp1 Hk1). specialize (Hg2 Hk2). lia.
  - specialize (Hq1 Hk1). specialize (Hg2 Hk2). lia.
Qed.

End Orthogonal.

(** ** The further properties run on the unit square *)

(** X4 on the sample, with ghost nodes asked for the group top. *)
Lemma ghost_group_must_be_boundary_group_witness :
  exists nodes0 smpid st0,
    snap_nodes kdtree sample (oriented oriented_already square stray_ghosts)
               stray_ghosts = Ok (nodes0, smpid) /\
    base_store (oriented oriented_already square stray_ghosts) stray_ghosts
               nodes0 smpid = Ok st0 /\
    ("top" ∉ [("all", [0; 1; 2; 3]%Z)].*1) /\
    (exists e,
       prepare_nodes kdtree reversal no_spacing_warnings oriented_already
                     sample square stray_ghosts = ([], Raise e)) /\
    (snap_ok 4 nodes0 smpid ->
     (exists rest,
        o_boundary_groups_with_ghosts stray_ghosts = Some ("top" :: rest)) ->
     prepare_nodes kdtree reversal no_spacing_warnings oriented_already
                   sample square stray_ghosts = ([], Raise KeyError)).
Proof.
  eexists _, _, _.
  split; [vm_compute; reflexivity|].
  split; [vm_compute; reflexivity|].
  assert ("top" ∉ [("all", [0; 1; 2; 3]%Z)].*1) as Hout.
  { intros Hin%list_elem_of_singleton. discriminate Hin. }
  split; [exact Hout|].
  eapply (ghost_group_must_be_boundary_group kdtree reversal
            no_spacing_warnings oriented_already sample square stray_ghosts
            _ _ _ [] [("all", [0; 1; 2; 3]%Z)] "top").
  - vm_compute. reflexivity.
  - vm_compute. reflexivity.
  - reflexivity.
  - apply list_elem_of_here.
  - exact Hout.
Defined.

(** X5 on the sample prepared in the unit square. *)
Lemma prepared_group_names_witness :
  prepare_nodes kdtree reversal no_spacing_warnings oriented_already
                sample square options
  = ([], Ok (out_nodes, out_groups, out_normals)) /\
  forall k,
    is_Some (dict_get out_groups k) <->
    k = "interior" \/
    (k = "pinned" /\ is_Some (o_pinned_nodes options)) \/
    (exists name, name ∈ [("all", [0; 1; 2; 3]%Z)].*1 /\
                  k = "boundary:" +:+ name) \/
    (exists name, name ∈ default [] (o_boundary_groups_with_ghosts options) /\
                  k = "ghosts:" +:+ name).
Proof.
  split; [exact sample_prepared|].
  exact (prepared_group_names kdtree reversal no_spacing_warnings
           oriented_already sample square options [] out_nodes out_groups
           out_normals sample_prepared).
Defined.

(** X6 on the sample prepared in the unit square. *)
Lemma pinned_nodes_returned_witness :
  o_pinned_nodes options = Some [[0.5; 0.5]%float] /\
  exists v,
    dict_get out_groups "pinned" = Some v /\
    length v = length [[0.5; 0.5]%float] /\
    forall k p, [[0.5; 0.5]%float] !! k = Some p ->
      exists i', v !! k = Some i' /\ out_nodes !! i' = Some p.
Proof.
  split; [reflexivity|].
  apply (pinned_nodes_returned kdtree reversal no_spacing_warnings
           oriented_already sample square options [] out_nodes out_groups
           out_normals [[0.5; 0.5]%float]).
  - exact sample_prepared.
  - exact sample_collaborators_ok.
  - reflexivity.
Defined.

(** X7 on the sample prepared in the unit square. *)
Lemma prepared_node_count_witness :
  exists nodes0 smpid,
    snap_nodes kdtree sample (oriented oriented_already square options)
               options = Ok (nodes0, smpid) /\
    length out_nodes
    = length nodes0 + length (default [] (o_pinned_nodes options))
      + sum_list ((fun name =>
                     length (default [] (dict_get out_groups
                                                  ("boundary:" +:+ name))))
                  <$> default [] (o_boundary_groups_with_ghosts options)).
Proof.
  apply (prepared_node_count kdtree reversal no_spacing_warnings
           oriented_already sample square options [] out_nodes out_groups
           out_normals).
  - exact sample_prepared.
  - exact sample_collaborators_ok.
Defined.

(** X8 on the sample prepared in the unit square. *)
Lemma prepared_group_members_witness :
  NoDup [("all", [0; 1; 2; 3]%Z)].*1 /\
  exists nodes0 smpid sort_idx,
    snap_nodes kdtree sample (oriented oriented_already square options)
               options = Ok (nodes0, smpid) /\
    sort_permutation kdtree reversal sample
                     (oriented oriented_already square options) options
    = Ok sort_idx /\
    (exists vi,
       dict_get out_groups "interior" = Some vi /\
       forall i', i' ∈ vi <->
         exists i, sort_idx !! i' = Some i /\ smpid !! i = Some (-1)%Z) /\
    (forall name smp, (name, smp) ∈ [("all", [0; 1; 2; 3]%Z)] ->
       exists vb,
         dict_get out_groups ("boundary:" +:+ name) = Some vb /\
         forall i', i' ∈ vb <->
           exists i j, sort_idx !! i' = Some i /\ smpid !! i = Some j /\
                       j ∈ smp).
Proof.
  assert (NoDup [("all", [0; 1; 2; 3]%Z)].*1) as Hnd
    by apply NoDup_singleton.
  split; [exact Hnd|].
  apply (prepared_group_members kdtree reversal no_spacing_warnings
           oriented_already sample square options [] out_nodes out_groups
           out_normals).
  - exact sample_prepared.
  - exact sample_collaborators_ok.
  - exact Hnd.
Defined.

(** X13 on the sample prepared in the unit square. *)
Lemma pinned_and_ghosts_apart_witness :
  prepare_nodes kdtree reversal no_spacing_warnings oriented_already
                sample square options
  = ([], Ok (out_nodes, out_groups, out_normals)) /\
  forall k1 k2 v1 v2 i',
    dict_get out_groups k1 = Some v1 -> dict_get out_groups k2 = Some v2 ->
    (is_partition_key k1 = true /\
     (k2 = "pinned" \/ String.prefix "ghosts:" k2 = true)) \/
    (k1 = "pinned" /\ String.prefix "ghosts:" k2 = true) ->
    i' ∈ v1 -> i' ∉ v2.
Proof.
  split; [exact sample_prepared|].
  apply (pinned_and_ghosts_apart kdtree reversal no_spacing_warnings
           oriented_already sample square options [] out_nodes out_groups
           out_normals).
  - exact sample_prepared.
  - exact sample_collaborators_ok.
Defined.

Lemma square_normals_width :
  Forall (fun n : list float => length n = dim square) (normals square).
Proof. repeat constructor. Qed.

(** X9 on the run of one iteration from the two nodes. *)
Lemma disperse_keeps_shape_witness :
  disperse kdtree two_nodes square 1 None None None 1.5%float
  = Ok [[0.0625; 0.5]; [0.5625; 0.5]]%float /\
  length [[0.0625; 0.5]; [0.5625; 0.5]]%float = length two_nodes /\
  Forall (fun r : list float => length r = dim square)
         [[0.0625; 0.5]; [0.5625; 0.5]]%float.
Proof.
  split; [vm_compute; reflexivity|].
  apply (disperse_keeps_shape kdtree two_nodes square 1 None None None
           1.5%float).
  - exact square_normals_width.
  - vm_compute. reflexivity.
Defined.

(** X10 on two iterations from the two nodes. *)
Lemma disperse_iterations_compose_witness :
  disperse kdtree two_nodes square (1 + 1) None None None 1.5%float
  = (mid ← disperse kdtree two_nodes square 1 None None None 1.5%float;
     disperse kdtree mid square 1 None None None 1.5%float).
Proof.
  apply (disperse_iterations_compose kdtree two_nodes square 1 1 None None
           None 1.5%float).
  exact square_normals_width.
Defined.

(** X11 on the single node at the centre of the square. *)
Lemma disperse_without_neighbors_fails_witness :
  clamp_neighbors (dim square) None (length centre) 0 = Ok 0%Z /\
  kdtree (centre ++ []) centre 1%Z = Ok ([[0%float]], [[0]]) /\
  disperse kdtree centre square 1 None None None 0.5%float = Raise IndexError.
Proof.
  split; [reflexivity|]. split; [vm_compute; reflexivity|].
  apply (disperse_without_neighbors_fails kdtree centre square 0 None None
           0.5%float [[0%float]] [[0]]).
  - discriminate.
  - reflexivity.
  - exact I.
  - reflexivity.
  - vm_compute. reflexivity.
  - repeat constructor.
Defined.

(** X12 on the three nodes of the triangle store. *)
Lemma neighbor_argsort_adjacency_witness :
  exists dist idx entries,
    kdtree (st_nodes triangle) (st_nodes triangle) 3%Z = Ok (dist, idx) /\
    neighbor_argsort kdtree reversal (st_nodes triangle) None
    = Ok (reversal entries) /\
    forall i j, (i, j) ∈ entries <->
                exists row, idx !! i = Some row /\ j ∈ row.
Proof.
  eexists _, _.
  edestruct (neighbor_argsort_adjacency kdtree reversal (st_nodes triangle)
               None) as (entries & Hentries & Hmem).
  - vm_compute. reflexivity.
  - reflexivity.
  - repeat constructor.
  - exists entries. split; [vm_compute; reflexivity|]. split; [exact Hentries|].
    exact Hmem.
Defined.

(** ** The ghost nodes and their groups *)

Section Ghosts.

Context {F : Type} `{Arith F}.

#[local] Abbreviation point := (list F).
#[local] Abbreviation array := (list (list F)).
Variable kdtree : KDTree (F := F).
Variable reverse_cuthill_mckee : list (nat * nat) -> list nat.
Variable _check_spacing :
  list (list F) -> option (density (F := F)) -> res (list warning).
Variable orient : Domain (F := F) -> Domain (F := F).

Implicit Types (dom : Domain (F := F)) (o : Options (F := F)).
Implicit Types (st : Store (F := F)) (nodes : list (list F)).


Lemma ghost_loop_grows tree_nodes ghost_delta names st st' :
  ghost_loop kdtree tree_nodes ghost_delta st names = Ok st' ->
  length (st_nodes st) <= length (st_nodes st').
Proof.
  intros Hloop. rewrite (ghost_loop_length _ _ _ _ _ _ Hloop). lia.
Qed.




End Ghosts.


